(** * KonkoAI chat service: admission control, ordered request queue and
      conversation store

    A shallow embedding of [konko_ai_chat/api/rate_limiter.py],
    [konko_ai_chat/api/request_queue.py] and
    [konko_ai_chat/repositories/memory.py] (with the models of
    [konko_ai_chat/domain/models.py], and the task and the error handling
    of [create_message] in [konko_ai_chat/api/app.py]), and the properties
    proved over it.

    Conventions.
    - Time is read from a clock that counts ticks; a reading of [time.time()]
      and the length of a window or of a timeout are integers of type [Z] in
      that unit.  Only the order of clock readings and their differences
      matter to the code.
    - Every coroutine of the source runs without interruption from one
      suspension point ([await] on something that is not ready) to the next;
      a function of the model with a [current_time] argument is one such
      uninterrupted run, with the clock read at its start. *)

From stdpp Require Import gmap strings list fin_maps sorting.
From Stdlib Require Import ZArith Lia Ascii.

Local Open Scope Z_scope.

(** ** The sliding-window rate limiter *)

Module RateLimiter.

(** [class RateLimiter]: the two configuration fields and the dictionary
    [self.requests] from key to the list of recorded timestamps. *)
Record RateLimiter := mkRateLimiter {
  rate_limit : Z;
  time_window : Z;
  requests : gmap string (list Z);
}.

Definition with_requests (self : RateLimiter) (reqs : gmap string (list Z)) : RateLimiter :=
  {| rate_limit := rate_limit self; time_window := time_window self; requests := reqs |}.

(** [RateLimiter(rate_limit, time_window)]. *)
Definition init (limit window : Z) : RateLimiter :=
  {| rate_limit := limit; time_window := window; requests := ∅ |}.

(** What a call hands back: a value, or the exception [RateLimitExceeded]
    with the limit and the window its message is built from. *)
Inductive outcome (A : Type) : Type :=
  | Return (a : A)
  | RateLimitExceeded (limit window : Z).
Arguments Return {A} a.
Arguments RateLimitExceeded {A} limit window.

(** [[ts for ts in l if ts > cutoff_time]] *)
Definition newer_than (cutoff_time : Z) (l : list Z) : list Z :=
  filter (λ ts, cutoff_time < ts) l.

(** [self.requests[key]] for a key known to be present; the empty list
    stands for the [KeyError] that the callers below rule out. *)
Definition stored (reqs : gmap string (list Z)) (key : string) : list Z :=
  default [] (reqs !! key).

(** [RateLimiter.check_rate_limit], the body under [self._lock]. *)
Definition check_rate_limit (current_time : Z) (key : string) (self : RateLimiter)
  : RateLimiter * outcome unit :=
  let reqs1 :=
    match requests self !! key with
    | None => <[key := []]> (requests self)
    | Some _ => requests self
    end in
  let cutoff_time := current_time - time_window self in
  let reqs2 := <[key := newer_than cutoff_time (stored reqs1 key)]> reqs1 in
  if bool_decide (rate_limit self ≤ Z.of_nat (length (stored reqs2 key))) then
    (with_requests self reqs2, RateLimitExceeded (rate_limit self) (time_window self))
  else
    (with_requests self (<[key := stored reqs2 key ++ [current_time]]> reqs2), Return ()).

(** [RateLimiter.get_remaining_requests], the body under [self._lock]. *)
Definition get_remaining_requests (current_time : Z) (key : string) (self : RateLimiter)
  : RateLimiter * Z :=
  match requests self !! key with
  | None => (self, rate_limit self)
  | Some _ =>
      let cutoff_time := current_time - time_window self in
      let reqs := <[key := newer_than cutoff_time (stored (requests self) key)]> (requests self) in
      (with_requests self reqs, Z.max 0 (rate_limit self - Z.of_nat (length (stored reqs key))))
  end.

(** One turn of the [for key in list(self.requests.keys())] loop of
    [_periodic_cleanup]. *)
Definition cleanup_key (cutoff_time : Z) (reqs : gmap string (list Z)) (key : string)
  : gmap string (list Z) :=
  let reqs1 := <[key := newer_than cutoff_time (stored reqs key)]> reqs in
  match stored reqs1 key with
  | [] => delete key reqs1
  | _ :: _ => reqs1
  end.

(** [RateLimiter._periodic_cleanup]: one sweep, the body under [self._lock]
    that follows each [asyncio.sleep(self.time_window)]. *)
Definition periodic_cleanup (current_time : Z) (self : RateLimiter) : RateLimiter :=
  let cutoff_time := current_time - time_window self in
  with_requests self
    (foldl (cleanup_key cutoff_time) (requests self) (elements (dom (requests self)))).

(** The operations a client or the background task can perform, and a run
    of a schedule of them, each at its clock reading. *)
Inductive operation :=
  | DoCheck (key : string)
  | DoRemaining (key : string)
  | DoSweep.

Inductive observation :=
  | Checked (r : outcome unit)
  | Remains (n : Z)
  | Swept.

Definition perform (current_time : Z) (op : operation) (self : RateLimiter)
  : RateLimiter * observation :=
  match op with
  | DoCheck key =>
      let '(self', r) := check_rate_limit current_time key self in (self', Checked r)
  | DoRemaining key =>
      let '(self', n) := get_remaining_requests current_time key self in (self', Remains n)
  | DoSweep => (periodic_cleanup current_time self, Swept)
  end.

Fixpoint perform_all (schedule : list (Z * operation)) (self : RateLimiter)
  : RateLimiter * list observation :=
  match schedule with
  | [] => (self, [])
  | (t, op) :: rest =>
      let '(self1, o) := perform t op self in
      let '(self2, os) := perform_all rest self1 in
      (self2, o :: os)
  end.

(** The clock does not run backwards along a schedule that starts at [t0]. *)
Fixpoint clock_monotone (t0 : Z) (schedule : list (Z * operation)) : Prop :=
  match schedule with
  | [] => True
  | (t, _) :: rest => t0 ≤ t ∧ clock_monotone t rest
  end.



End RateLimiter.

(** ** The ordered request queue

    The model follows the event loop of [asyncio].  A coroutine runs without
    interruption until it awaits something that is not ready, so its code is
    cut at the awaits that may suspend it, and each piece is one step of the
    model: a [System] holds the [RequestQueue] object, the queues,
    dictionaries and futures it refers to, and the program point of every
    coroutine.  The scheduler, the clients and the clock are the
    environment: an [event] names which coroutine runs next, which call a
    client makes, or how far the clock advances, and a step is refused
    ([None]) when the coroutine it names is still blocked. *)

Module RequestQueue.

(** The exceptions that reach a future or a caller. [TaskException] stands
    for any [Exception] a task raises, told apart by its message. *)
Inductive exn : Type :=
  | TimeoutError (msg : string)
  | KeyError
  | CancelledError
  | TaskException (msg : string).

(** The awaitable [task( *args, **kwargs)] of a request, as
    [asyncio.wait_for] observes it: the time it needs, and whether it then
    returns a value or raises an [Exception]. *)
Inductive completion : Type :=
  | Returns (v : Z)
  | Raises (msg : string).

Record Task := mkTask {
  duration : Z;
  ending : completion;
}.

(** [await asyncio.wait_for(task, timeout)]: the task's own ending when it
    is over within [timeout], [asyncio.TimeoutError] otherwise; and the time
    the wait takes. *)
Inductive awaited : Type :=
  | Completed (c : completion)
  | TimedOut.

Definition wait_for (t : Task) (timeout : Z) : awaited :=
  if bool_decide (duration t ≤ timeout) then Completed (ending t) else TimedOut.

Definition wait_time (t : Task) (timeout : Z) : Z :=
  match wait_for t timeout with
  | Completed _ => duration t
  | TimedOut => timeout
  end.

(** An [asyncio.Future]. *)
Inductive future_state : Type :=
  | Pending
  | Result (v : Z)
  | Exception (e : exn)
  | Cancelled.

(** [future.done()] *)
Definition done (f : future_state) : bool :=
  match f with
  | Pending => false
  | _ => true
  end.

(** [@dataclass QueuedRequest]; [args] and [kwargs] are part of the task,
    and [future] is the address of the request's future. *)
Record QueuedRequest := mkQueuedRequest {
  conversation_id : N;
  task : Task;
  future : nat;
  sequence_number : nat;
}.

(** An [asyncio.Queue] without bound: its items, oldest first, and the
    count behind [task_done]. *)
Record Queue := mkQueue {
  items : list QueuedRequest;
  unfinished_tasks : nat;
}.

Definition put_nowait (r : QueuedRequest) (q : Queue) : Queue :=
  {| items := items q ++ [r]; unfinished_tasks := S (unfinished_tasks q) |}.

(** A [_process_queue] task: where it stands, its local variables, and
    whether [task.cancel()] has been called on it since it last ran. *)
Inductive processor_pc : Type :=
  | P_created                                  (* scheduled, body not entered *)
  | P_get                                      (* [await queue.get()] *)
  | P_acquire (next_request : QueuedRequest)   (* [async with self.semaphore] *)
  | P_run (next_request : QueuedRequest) (since : Z)  (* [await asyncio.wait_for(...)] *)
  | P_finally                                  (* [async with self._lock] of [finally] *)
  | P_done.

Record Processor := mkProcessor {
  p_conversation_id : N;
  p_queue : nat;
  p_pending : nat;
  next_sequence : nat;
  p_pc : processor_pc;
  cancel_requested : bool;
}.

Definition at_pc (pc : processor_pc) (p : Processor) : Processor :=
  {| p_conversation_id := p_conversation_id p; p_queue := p_queue p;
     p_pending := p_pending p; next_sequence := next_sequence p;
     p_pc := pc; cancel_requested := cancel_requested p |}.

(** [task.done()] *)
Definition task_done (p : Processor) : bool :=
  match p_pc p with
  | P_done => true
  | _ => false
  end.

(** [task.cancel()] *)
Definition cancel (p : Processor) : Processor :=
  if task_done p then p
  else {| p_conversation_id := p_conversation_id p; p_queue := p_queue p;
          p_pending := p_pending p; next_sequence := next_sequence p;
          p_pc := p_pc p; cancel_requested := true |}.

(** What a call of [enqueue_request] hands to its caller. *)
Inductive result : Type :=
  | Returned (v : Z)
  | Raised (e : exn).

(** A call of [enqueue_request]. *)
Inductive caller_pc : Type :=
  | C_get_queue                          (* [await self._get_queue(...)] *)
  | C_assign (queue : nat)               (* [async with self._lock] *)
  | C_wait (fut : nat) (since : Z)       (* [await asyncio.wait_for(future, ...)] *)
  | C_done (r : result).

Record Caller := mkCaller {
  c_conversation_id : N;
  c_task : Task;
  c_pc : caller_pc;
}.

(** A call of [cleanup]. *)
Inductive cleanup_pc : Type :=
  | CL_lock                              (* [async with self._lock] *)
  | CL_gather (tasks : list nat)         (* [await asyncio.gather( *tasks)] *)
  | CL_done.

(** A block [async with queue.acquire(): ...]. *)
Inductive acquire_pc : Type :=
  | A_enter                              (* [async with self._lock], first *)
  | A_semaphore                          (* [async with self.semaphore] *)
  | A_body                               (* inside the block, at [yield] *)
  | A_exit                               (* [async with self._lock] of [finally] *)
  | A_done.

(** What an observer of the tasks sees: a request is built and queued, a
    task is invoked, the wait for it ends. *)
Inductive action : Type :=
  | Submitted (r : QueuedRequest)
  | Started (r : QueuedRequest)
  | Finished (r : QueuedRequest).

(** A [RequestQueue] object, together with the objects it refers to, the
    coroutines that operate on it, the clock, and the actions so far.

    A conversation id is a number.  [semaphore] is the value of
    [self.semaphore] and [_lock] tells whether [self._lock] is held.
    [queues] and [_pending_requests] hold addresses into [queue_objects]
    and [dict_objects], so that a coroutine that keeps a queue or a
    dictionary in a local variable shares it with the registry.  [_tasks]
    holds the indices in [processors] of the tasks started so far; the weak
    dictionary of the source may have dropped tasks that are done, which
    [cleanup] skips in any case. *)
Record System := mkSystem {
  (* the attributes of the [RequestQueue] object *)
  max_concurrent : nat;
  queue_timeout : Z;
  semaphore : nat;
  active_requests : Z;
  _lock : bool;
  queues : gmap N nat;
  _tasks : list nat;
  _sequence_counters : gmap N nat;
  _pending_requests : gmap N nat;
  (* the objects it refers to: queues, dictionaries and futures by address *)
  queue_objects : list Queue;
  dict_objects : list (gmap nat QueuedRequest);
  futures : list future_state;
  (* the coroutines: one per [_process_queue] task, [enqueue_request] call,
     [cleanup] call and [acquire] block *)
  processors : list Processor;
  callers : list Caller;
  cleanups : list cleanup_pc;
  acquirers : list acquire_pc;
  (* the clock of the event loop and the actions observed so far *)
  clock : Z;
  trace : list action;
}.

Definition set_semaphore (v : nat) (s : System) : System :=
  mkSystem (max_concurrent s) (queue_timeout s) v (active_requests s) (_lock s) (queues s)
    (_tasks s) (_sequence_counters s) (_pending_requests s) (queue_objects s)
    (dict_objects s) (futures s) (processors s) (callers s) (cleanups s) (acquirers s)
    (clock s) (trace s).

Definition set_active_requests (v : Z) (s : System) : System :=
  mkSystem (max_concurrent s) (queue_timeout s) (semaphore s) v (_lock s) (queues s)
    (_tasks s) (_sequence_counters s) (_pending_requests s) (queue_objects s)
    (dict_objects s) (futures s) (processors s) (callers s) (cleanups s) (acquirers s)
    (clock s) (trace s).

Definition set_lock (v : bool) (s : System) : System :=
  mkSystem (max_concurrent s) (queue_timeout s) (semaphore s) (active_requests s) v
    (queues s) (_tasks s) (_sequence_counters s) (_pending_requests s) (queue_objects s)
    (dict_objects s) (futures s) (processors s) (callers s) (cleanups s) (acquirers s)
    (clock s) (trace s).

Definition set_queues (v : gmap N nat) (s : System) : System :=
  mkSystem (max_concurrent s) (queue_timeout s) (semaphore s) (active_requests s)
    (_lock s) v (_tasks s) (_sequence_counters s) (_pending_requests s) (queue_objects s)
    (dict_objects s) (futures s) (processors s) (callers s) (cleanups s) (acquirers s)
    (clock s) (trace s).

Definition set_tasks (v : list nat) (s : System) : System :=
  mkSystem (max_concurrent s) (queue_timeout s) (semaphore s) (active_requests s)
    (_lock s) (queues s) v (_sequence_counters s) (_pending_requests s) (queue_objects s)
    (dict_objects s) (futures s) (processors s) (callers s) (cleanups s) (acquirers s)
    (clock s) (trace s).

Definition set_sequence_counters (v : gmap N nat) (s : System) : System :=
  mkSystem (max_concurrent s) (queue_timeout s) (semaphore s) (active_requests s)
    (_lock s) (queues s) (_tasks s) v (_pending_requests s) (queue_objects s)
    (dict_objects s) (futures s) (processors s) (callers s) (cleanups s) (acquirers s)
    (clock s) (trace s).

Definition set_pending_requests (v : gmap N nat) (s : System) : System :=
  mkSystem (max_concurrent s) (queue_timeout s) (semaphore s) (active_requests s)
    (_lock s) (queues s) (_tasks s) (_sequence_counters s) v (queue_objects s)
    (dict_objects s) (futures s) (processors s) (callers s) (cleanups s) (acquirers s)
    (clock s) (trace s).

Definition set_queue_objects (v : list Queue) (s : System) : System :=
  mkSystem (max_concurrent s) (queue_timeout s) (semaphore s) (active_requests s)
    (_lock s) (queues s) (_tasks s) (_sequence_counters s) (_pending_requests s) v
    (dict_objects s) (futures s) (processors s) (callers s) (cleanups s) (acquirers s)
    (clock s) (trace s).

Definition set_dict_objects (v : list (gmap nat QueuedRequest)) (s : System) : System :=
  mkSystem (max_concurrent s) (queue_timeout s) (semaphore s) (active_requests s)
    (_lock s) (queues s) (_tasks s) (_sequence_counters s) (_pending_requests s)
    (queue_objects s) v (futures s) (processors s) (callers s) (cleanups s) (acquirers s)
    (clock s) (trace s).

Definition set_futures (v : list future_state) (s : System) : System :=
  mkSystem (max_concurrent s) (queue_timeout s) (semaphore s) (active_requests s)
    (_lock s) (queues s) (_tasks s) (_sequence_counters s) (_pending_requests s)
    (queue_objects s) (dict_objects s) v (processors s) (callers s) (cleanups s)
    (acquirers s) (clock s) (trace s).

Definition set_processors (v : list Processor) (s : System) : System :=
  mkSystem (max_concurrent s) (queue_timeout s) (semaphore s) (active_requests s)
    (_lock s) (queues s) (_tasks s) (_sequence_counters s) (_pending_requests s)
    (queue_objects s) (dict_objects s) (futures s) v (callers s) (cleanups s)
    (acquirers s) (clock s) (trace s).

Definition set_callers (v : list Caller) (s : System) : System :=
  mkSystem (max_concurrent s) (queue_timeout s) (semaphore s) (active_requests s)
    (_lock s) (queues s) (_tasks s) (_sequence_counters s) (_pending_requests s)
    (queue_objects s) (dict_objects s) (futures s) (processors s) v (cleanups s)
    (acquirers s) (clock s) (trace s).

Definition set_cleanups (v : list cleanup_pc) (s : System) : System :=
  mkSystem (max_concurrent s) (queue_timeout s) (semaphore s) (active_requests s)
    (_lock s) (queues s) (_tasks s) (_sequence_counters s) (_pending_requests s)
    (queue_objects s) (dict_objects s) (futures s) (processors s) (callers s) v
    (acquirers s) (clock s) (trace s).

Definition set_acquirers (v : list acquire_pc) (s : System) : System :=
  mkSystem (max_concurrent s) (queue_timeout s) (semaphore s) (active_requests s)
    (_lock s) (queues s) (_tasks s) (_sequence_counters s) (_pending_requests s)
    (queue_objects s) (dict_objects s) (futures s) (processors s) (callers s) (cleanups s)
    v (clock s) (trace s).

Definition set_clock (v : Z) (s : System) : System :=
  mkSystem (max_concurrent s) (queue_timeout s) (semaphore s) (active_requests s)
    (_lock s) (queues s) (_tasks s) (_sequence_counters s) (_pending_requests s)
    (queue_objects s) (dict_objects s) (futures s) (processors s) (callers s) (cleanups s)
    (acquirers s) v (trace s).

Definition set_trace (v : list action) (s : System) : System :=
  mkSystem (max_concurrent s) (queue_timeout s) (semaphore s) (active_requests s)
    (_lock s) (queues s) (_tasks s) (_sequence_counters s) (_pending_requests s)
    (queue_objects s) (dict_objects s) (futures s) (processors s) (callers s) (cleanups s)
    (acquirers s) (clock s) v.

(** [RequestQueue(max_concurrent, queue_timeout)] on a loop whose clock
    reads [now]. *)
Definition init (max_concurrent : nat) (queue_timeout now : Z) : System :=
  {| max_concurrent := max_concurrent; queue_timeout := queue_timeout;
     semaphore := max_concurrent; active_requests := 0; _lock := false;
     queues := ∅; _tasks := []; _sequence_counters := ∅; _pending_requests := ∅;
     queue_objects := []; dict_objects := []; futures := [];
     processors := []; callers := []; cleanups := []; acquirers := [];
     clock := now; trace := [] |}.

(** *** [get_queue_length] and [is_full]

    Both read under [self._lock]; [None] when the lock is held and the call
    has to wait. *)
Definition get_queue_length (s : System) : option Z :=
  if _lock s then None else Some (active_requests s).

Definition is_full (s : System) : option bool :=
  if _lock s then None
  else Some (bool_decide (Z.of_nat (max_concurrent s) ≤ active_requests s)).

(** *** [acquire] *)
Definition acquire (u : nat) (s : System) : option System :=
  pc ← acquirers s !! u;
  match pc with
  | A_enter =>
      if _lock s then None
      else Some (set_acquirers (<[u := A_semaphore]> (acquirers s))
                   (set_active_requests (active_requests s + 1) s))
  | A_semaphore =>
      match semaphore s with
      | O => None
      | S n => Some (set_acquirers (<[u := A_body]> (acquirers s)) (set_semaphore n s))
      end
  | A_body =>
      Some (set_acquirers (<[u := A_exit]> (acquirers s))
              (set_semaphore (S (semaphore s)) s))
  | A_exit =>
      if _lock s then None
      else Some (set_acquirers (<[u := A_done]> (acquirers s))
                   (set_active_requests (active_requests s - 1) s))
  | A_done => None
  end.

(** *** [_get_queue]

    The body under [self._lock]: the state after it and the address of the
    queue it returns.  A new key gets a new queue, the counter 0, a new
    dictionary, and a new [_process_queue] task, recorded in [_tasks]. *)
Definition _get_queue (conversation_id : N) (s : System) : System * nat :=
  match queues s !! conversation_id with
  | Some q => (s, q)
  | None =>
      let q := length (queue_objects s) in
      let d := length (dict_objects s) in
      let t := length (processors s) in
      let task := {| p_conversation_id := conversation_id; p_queue := 0; p_pending := 0;
                     next_sequence := 0; p_pc := P_created; cancel_requested := false |} in
      let s1 := set_queue_objects (queue_objects s ++ [mkQueue [] 0]) s in
      let s2 := set_queues (<[conversation_id := q]> (queues s1)) s1 in
      let s3 := set_sequence_counters (<[conversation_id := 0%nat]> (_sequence_counters s2)) s2 in
      let s4 := set_dict_objects (dict_objects s3 ++ [∅]) s3 in
      let s5 := set_pending_requests (<[conversation_id := d]> (_pending_requests s4)) s4 in
      let s6 := set_processors (processors s5 ++ [task]) s5 in
      (set_tasks (_tasks s6 ++ [t]) s6, q)
  end.

(** *** [enqueue_request] *)

Definition finish_caller (i : nat) (c : Caller) (r : result) (s : System) : System :=
  set_callers (<[i := mkCaller (c_conversation_id c) (c_task c) (C_done r)]> (callers s)) s.

(** From the second [async with self._lock] to the await of the future:
    the sequence number is read and incremented under the lock; then the
    future and the request are built, the request is stored in the key's
    dictionary and put on the queue that [_get_queue] returned. *)
Definition assign_and_put (i : nat) (c : Caller) (queue : nat) (s : System) : System :=
  match _sequence_counters s !! c_conversation_id c with
  | None => finish_caller i c (Raised KeyError) s
  | Some sequence_number =>
      let s1 := set_sequence_counters
                  (<[c_conversation_id c := S sequence_number]> (_sequence_counters s)) s in
      let fut := length (futures s1) in
      let s2 := set_futures (futures s1 ++ [Pending]) s1 in
      let request := {| conversation_id := c_conversation_id c; task := c_task c;
                        future := fut; sequence_number := sequence_number |} in
      match _pending_requests s2 !! c_conversation_id c with
      | None => finish_caller i c (Raised KeyError) s2
      | Some d =>
          let s3 := set_dict_objects
                      (alter (insert sequence_number request) d (dict_objects s2)) s2 in
          let s4 := set_queue_objects
                      (alter (put_nowait request) queue (queue_objects s3)) s3 in
          let s5 := set_trace (trace s4 ++ [Submitted request]) s4 in
          set_callers (<[i := mkCaller (c_conversation_id c) (c_task c)
                                (C_wait fut (clock s5))]> (callers s5)) s5
      end
  end.

(** The end of [await asyncio.wait_for(future, timeout=self.queue_timeout)]
    and the handlers around it: the outcome of a future that is done, or,
    once [queue_timeout] has passed, the cancellation of the future and
    [TimeoutError]. *)
Definition await_future (i : nat) (c : Caller) (fut : nat) (since : Z) (s : System)
  : option System :=
  match futures s !! fut with
  | None => None
  | Some (Result v) => Some (finish_caller i c (Returned v) s)
  | Some (Exception e) => Some (finish_caller i c (Raised e) s)
  | Some Cancelled => Some (finish_caller i c (Raised CancelledError) s)
  | Some Pending =>
      if bool_decide (since + queue_timeout s ≤ clock s) then
        Some (finish_caller i c (Raised (TimeoutError "Request processing timed out"))
                (set_futures (<[fut := Cancelled]> (futures s)) s))
      else None
  end.

Definition enqueue_request (i : nat) (s : System) : option System :=
  c ← callers s !! i;
  match c_pc c with
  | C_get_queue =>
      if _lock s then None
      else
        let '(s1, queue) := _get_queue (c_conversation_id c) s in
        Some (set_callers (<[i := mkCaller (c_conversation_id c) (c_task c)
                                   (C_assign queue)]> (callers s1)) s1)
  | C_assign queue =>
      if _lock s then None else Some (assign_and_put i c queue s)
  | C_wait fut since => await_future i c fut since s
  | C_done _ => None
  end.

(** *** [_process_queue] *)

(** The head of [while next_sequence in pending]: either the next request
    is taken out of the dictionary and the task goes on to the semaphore,
    or the task goes back to [queue.get()]. *)
Definition while_next_in_pending (t : nat) (p : Processor) (s : System) : System :=
  match dict_objects s !! p_pending p ≫= (λ pending, pending !! next_sequence p) with
  | Some next_request =>
      set_processors (<[t := at_pc (P_acquire next_request) p]> (processors s))
        (set_dict_objects (alter (delete (next_sequence p)) (p_pending p) (dict_objects s)) s)
  | None => set_processors (<[t := at_pc P_get p]> (processors s)) s
  end.

(** The three handlers of the inner [try]: what the future is resolved
    with, when it is not done yet. *)
Definition outcome (w : awaited) : future_state :=
  match w with
  | Completed (Returns v) => Result v
  | Completed (Raises msg) => Exception (TaskException msg)
  | TimedOut => Exception (TimeoutError "Request processing timed out")
  end.

Definition resolve (fut : nat) (o : future_state) (s : System) : System :=
  match futures s !! fut with
  | Some f => if done f then s else set_futures (<[fut := o]> (futures s)) s
  | None => s
  end.

(** The [finally] of [_process_queue], under [self._lock]. *)
Definition teardown (conversation_id : N) (s : System) : System :=
  match queues s !! conversation_id ≫= (λ q, queue_objects s !! q) with
  | Some q =>
      match items q with
      | [] =>
          set_pending_requests (delete conversation_id (_pending_requests s))
            (set_sequence_counters (delete conversation_id (_sequence_counters s))
               (set_queues (delete conversation_id (queues s)) s))
      | _ :: _ => s
      end
  | None => s
  end.

(** A task on which [cancel()] was called receives [CancelledError] where
    it waits: a task that has not run yet ends at once; inside the [try] the
    exception leaves the [async with] block of the semaphore, releasing it,
    and reaches [finally]; in [finally] it ends the task. *)
Definition throw_cancelled (t : nat) (p : Processor) (s : System) : option System :=
  let p' := {| p_conversation_id := p_conversation_id p; p_queue := p_queue p;
               p_pending := p_pending p; next_sequence := next_sequence p;
               p_pc := p_pc p; cancel_requested := false |} in
  match p_pc p with
  | P_created => Some (set_processors (<[t := at_pc P_done p']> (processors s)) s)
  | P_get | P_acquire _ =>
      Some (set_processors (<[t := at_pc P_finally p']> (processors s)) s)
  | P_run _ _ =>
      Some (set_processors (<[t := at_pc P_finally p']> (processors s))
              (set_semaphore (S (semaphore s)) s))
  | P_finally => Some (set_processors (<[t := at_pc P_done p']> (processors s)) s)
  | P_done => None
  end.

Definition _process_queue (t : nat) (s : System) : option System :=
  p ← processors s !! t;
  if cancel_requested p then throw_cancelled t p s
  else
    match p_pc p with
    | P_created =>
        match queues s !! p_conversation_id p, _pending_requests s !! p_conversation_id p with
        | Some queue, Some pending =>
            Some (set_processors
                    (<[t := {| p_conversation_id := p_conversation_id p; p_queue := queue;
                               p_pending := pending; next_sequence := 0; p_pc := P_get;
                               cancel_requested := false |}]> (processors s)) s)
        | _, _ => Some (set_processors (<[t := at_pc P_done p]> (processors s)) s)
        end
    | P_get =>
        queue ← queue_objects s !! p_queue p;
        match items queue with
        | [] => None
        | request :: rest =>
            let s1 := set_queue_objects
                        (<[p_queue p := mkQueue rest (unfinished_tasks queue)]>
                           (queue_objects s)) s in
            let s2 := set_dict_objects
                        (alter (insert (sequence_number request) request) (p_pending p)
                           (dict_objects s1)) s1 in
            Some (while_next_in_pending t p s2)
        end
    | P_acquire next_request =>
        match semaphore s with
        | O => None
        | S n =>
            Some (set_trace (trace s ++ [Started next_request])
                    (set_processors
                       (<[t := at_pc (P_run next_request (clock s)) p]> (processors s))
                       (set_semaphore n s)))
        end
    | P_run next_request since =>
        if bool_decide (since + wait_time (task next_request) (queue_timeout s) ≤ clock s)
        then
          let s1 := resolve (future next_request)
                      (outcome (wait_for (task next_request) (queue_timeout s))) s in
          let s2 := set_semaphore (S (semaphore s1)) s1 in
          let s3 := set_trace (trace s2 ++ [Finished next_request]) s2 in
          queue ← queue_objects s3 !! p_queue p;
          match unfinished_tasks queue with
          | O => (* [queue.task_done()] raises [ValueError], caught by the outer
                    handler: back to [queue.get()], [next_sequence] as it was *)
              Some (set_processors (<[t := at_pc P_get p]> (processors s3)) s3)
          | S n =>
              let s4 := set_queue_objects
                          (<[p_queue p := mkQueue (items queue) n]> (queue_objects s3)) s3 in
              let p' := {| p_conversation_id := p_conversation_id p; p_queue := p_queue p;
                           p_pending := p_pending p; next_sequence := S (next_sequence p);
                           p_pc := p_pc p; cancel_requested := cancel_requested p |} in
              Some (while_next_in_pending t p' s4)
          end
        else None
    | P_finally =>
        if _lock s then None
        else Some (set_processors (<[t := at_pc P_done p]> (processors s))
                     (teardown (p_conversation_id p) s))
    | P_done => None
    end.

(** *** [cleanup] *)

(** [self.queues.clear()] and the three lines after it. *)
Definition clear (s : System) : System :=
  set_pending_requests ∅ (set_sequence_counters ∅ (set_tasks [] (set_queues ∅ s))).

(** [for task in tasks: if not task.done(): task.cancel()] *)
Definition cancel_all (tasks : list nat) (ps : list Processor) : list Processor :=
  foldl (λ ps t, alter cancel t ps) ps tasks.

(** [all(task.done() for task in tasks)], what [gather] waits for. *)
Definition all_done (tasks : list nat) (ps : list Processor) : bool :=
  forallb (λ t, from_option task_done false (ps !! t)) tasks.

Definition cleanup (j : nat) (s : System) : option System :=
  pc ← cleanups s !! j;
  match pc with
  | CL_lock =>
      if _lock s then None
      else
        let tasks := _tasks s in
        let s1 := set_processors (cancel_all tasks (processors s)) s in
        match tasks with
        | [] => Some (set_cleanups (<[j := CL_done]> (cleanups s1)) (clear s1))
        | _ :: _ => Some (set_cleanups (<[j := CL_gather tasks]> (cleanups s1))
                            (set_lock true s1))
        end
  | CL_gather tasks =>
      if all_done tasks (processors s)
      then Some (set_cleanups (<[j := CL_done]> (cleanups s)) (set_lock false (clear s)))
      else None
  | CL_done => None
  end.

(** The four containers are empty. *)
Definition cleared (s : System) : Prop :=
  queues s = ∅ ∧ _tasks s = [] ∧ _sequence_counters s = ∅ ∧ _pending_requests s = ∅.

(** *** The environment *)

Inductive event : Type :=
  | Call (conversation_id : N) (task : Task)   (* a client calls [enqueue_request] *)
  | CallerRuns (i : nat)
  | ProcessorRuns (t : nat)
  | CallAcquire                                (* a client enters [acquire()] *)
  | AcquirerRuns (u : nat)
  | CallCleanup                                (* a client calls [cleanup] *)
  | CleanupRuns (j : nat)
  | CancelTask (t : nat)                       (* the loop cancels a processor task *)
  | Tick (d : nat).                            (* the clock advances *)

Definition step (e : event) (s : System) : option System :=
  match e with
  | Call conversation_id task =>
      Some (set_callers (callers s ++ [mkCaller conversation_id task C_get_queue]) s)
  | CallerRuns i => enqueue_request i s
  | ProcessorRuns t => _process_queue t s
  | CallAcquire => Some (set_acquirers (acquirers s ++ [A_enter]) s)
  | AcquirerRuns u => acquire u s
  | CallCleanup => Some (set_cleanups (cleanups s ++ [CL_lock]) s)
  | CleanupRuns j => cleanup j s
  | CancelTask t =>
      p ← processors s !! t;
      Some (set_processors (<[t := cancel p]> (processors s)) s)
  | Tick d => Some (set_clock (clock s + Z.of_nat d) s)
  end.

Fixpoint run (es : list event) (s : System) : option System :=
  match es with
  | [] => Some s
  | e :: rest => s' ← step e s; run rest s'
  end.

(** Events of a run in which nothing is cancelled and [cleanup] is not
    called. *)
Definition undisturbed (e : event) : bool :=
  match e with
  | CallCleanup | CleanupRuns _ | CancelTask _ => false
  | _ => true
  end.

(** *** Reading a trace *)

Definition submitted (conversation_id0 : N) (tr : list action) : list QueuedRequest :=
  omap (λ a, match a with
             | Submitted r =>
                 if bool_decide (conversation_id r = conversation_id0) then Some r else None
             | _ => None
             end) tr.

(** The invocations of the tasks of one key and the ends of the waits for
    them, in the order they happened. *)
Definition executions (conversation_id0 : N) (tr : list action) : list action :=
  omap (λ a, match a with
             | Submitted _ => None
             | Started r | Finished r =>
                 if bool_decide (conversation_id r = conversation_id0) then Some a else None
             end) tr.

(** The tasks that hold a slot of the semaphore. *)
Definition running (p : Processor) : bool :=
  match p_pc p with
  | P_run _ _ => true
  | _ => false
  end.

Definition in_block (pc : acquire_pc) : bool :=
  match pc with
  | A_body => true
  | _ => false
  end.

Definition count {A : Type} (f : A → bool) (l : list A) : nat :=
  length (filter (λ x, Is_true (f x)) l).

(** The semaphore accounts for every slot: the free ones, and one for each
    task inside [async with self.semaphore]. *)
Definition slots_accounted (s : System) : Prop :=
  (semaphore s + count running (processors s) + count in_block (acquirers s)
   = max_concurrent s)%nat.

(** Events that run a piece of an [acquire] block. *)
Definition of_acquire (e : event) : bool :=
  match e with
  | AcquirerRuns _ => true
  | _ => false
  end.

End RequestQueue.

(** ** [class SlidingWindow]

    The deque [self.requests] is a list whose head is the left end; a clock
    reading and [window_size] are integers in ticks, as for the
    [RateLimiter]. *)

Module SlidingWindow.

Record SlidingWindow := mkSlidingWindow {
  window_size : Z;
  max_requests : Z;
  requests : list Z;
}.

(** [SlidingWindow(window_size, max_requests)] *)
Definition init (window_size max_requests : Z) : SlidingWindow :=
  {| window_size := window_size; max_requests := max_requests; requests := [] |}.

(** [while self.requests and now - self.requests[0] > self.window_size:
       self.requests.popleft()] *)
Fixpoint popleft_while_old (now window_size : Z) (requests : list Z) : list Z :=
  match requests with
  | [] => []
  | ts :: rest =>
      if bool_decide (window_size < now - ts) then popleft_while_old now window_size rest
      else requests
  end.

Definition _cleanup_old_requests (now : Z) (self : SlidingWindow) : SlidingWindow :=
  {| window_size := window_size self; max_requests := max_requests self;
     requests := popleft_while_old now (window_size self) (requests self) |}.

(** [try_acquire], the body under [self.lock], with [now] the reading of
    [time.time()]. *)
Definition try_acquire (now : Z) (self : SlidingWindow) : SlidingWindow * bool :=
  let self1 := _cleanup_old_requests now self in
  if bool_decide (Z.of_nat (length (requests self1)) < max_requests self1) then
    ({| window_size := window_size self1; max_requests := max_requests self1;
        requests := requests self1 ++ [now] |}, true)
  else (self1, false).

(** Calls of [try_acquire], one after the other, at the given clock
    readings. *)
Fixpoint try_acquire_all (clock : list Z) (self : SlidingWindow)
  : SlidingWindow * list bool :=
  match clock with
  | [] => (self, [])
  | now :: rest =>
      let '(self1, b) := try_acquire now self in
      let '(self2, bs) := try_acquire_all rest self1 in
      (self2, b :: bs)
  end.

End SlidingWindow.

(** ** [rate_limit_middleware] *)

Module Middleware.
Import RateLimiter.

(** What the middleware reads of a [Request]: [request.client.host], when
    there is a client, and [request.url.path]. *)
Record Request := mkRequest {
  client : option string;
  path : string;
}.

(** [request.client.host if request.client else "unknown"] *)
Definition client_ip (request : Request) : string :=
  default "unknown" (client request).

(** [f"{client_ip}:{path}"] *)
Definition key_of (request : Request) : string :=
  client_ip request +:+ ":" +:+ path request.



End Middleware.

(** ** The endpoint [create_message] of [app.py] *)

Module App.
Import RequestQueue.

(** What the endpoint answers: the message, an [HTTPException], or an
    exception that its handlers do not catch. *)
Inductive response : Type :=
  | Ok (v : Z)
  | HTTPException (status_code : Z) (detail : string)
  | Propagated (e : exn).

(** The handlers around [await process_queued_request(conversation_id,
    process_message)], applied to what [enqueue_request] hands back:
    [except TimeoutError] answers 408 and [except Exception] answers 500;
    [asyncio.CancelledError] is not an [Exception]. *)
Definition create_message (r : result) : response :=
  match r with
  | Returned v => Ok v
  | Raised (TimeoutError _) => HTTPException 408 "Request timeout"
  | Raised CancelledError => Propagated CancelledError
  | Raised _ => HTTPException 500 "Failed to process message"
  end.

End App.

(** ** The in-memory repository

    [repositories/memory.py] over the models of [domain/models.py].  A
    [UUID] is a number and a [datetime] is a clock reading in ticks.  A
    Python dictionary keeps its keys in the order of their first insertion,
    which [list_conversations] observes through [values()], so a dictionary
    is an association list here. *)

Module Builtins.

Section Dict.
Context {V : Type}.

(** [d.get(k)] *)
Fixpoint dict_get (k : N) (d : list (N * V)) : option V :=
  match d with
  | [] => None
  | (k', v) :: d' => if decide (k' = k) then Some v else dict_get k d'
  end.

(** [d[k] = v]: a key that is present keeps its place. *)
Fixpoint dict_set (k : N) (v : V) (d : list (N * V)) : list (N * V) :=
  match d with
  | [] => [(k, v)]
  | (k', v') :: d' => if decide (k' = k) then (k, v) :: d' else (k', v') :: dict_set k v d'
  end.

(** [d.values()] *)
Definition dict_values (d : list (N * V)) : list V := snd <$> d.

End Dict.

Section Sequences.
Context {A : Type}.

(** The index that a slice bound stands for in a list of length [n]. *)
Definition slice_index (n : nat) (i : Z) : nat :=
  if bool_decide (i < 0) then Z.to_nat (Z.max 0 (i + Z.of_nat n))
  else Z.to_nat (Z.min i (Z.of_nat n)).

(** [l[start:stop]] *)
Definition slice (start stop : Z) (l : list A) : list A :=
  let a := slice_index (length l) start in
  let b := slice_index (length l) stop in
  take (b - a) (drop a l).

(** [sorted(l, key=key)]: the sort is stable, an element goes before the
    elements after it that have the same key. *)
Fixpoint insort (key : A → Z) (x : A) (l : list A) : list A :=
  match l with
  | [] => [x]
  | y :: l' => if bool_decide (key x ≤ key y) then x :: l else y :: insort key x l'
  end.

Definition sorted (key : A → Z) (l : list A) : list A :=
  foldr (insort key) [] l.

(** [sorted(l, key=key, reverse=True)]: descending, and elements with the
    same key still in their original order. *)
Definition sorted_reverse (key : A → Z) (l : list A) : list A :=
  sorted (λ x, - key x) l.

End Sequences.

End Builtins.

Module Message.
(** [class Message(BaseModel)] *)
Record Message := mkMessage {
  id : N;
  conversation_id : N;
  content : string;
  role : string;
  created_at : Z;
  context : option string;
}.
End Message.

Module Conversation.
(** [class Conversation(BaseModel)] *)
Record Conversation := mkConversation {
  id : N;
  created_at : Z;
  updated_at : Z;
  messages : list Message.Message;
}.
End Conversation.

Module InMemoryRepository.
Import Builtins.

Record InMemoryRepository := mkInMemoryRepository {
  _conversations : list (N * Conversation.Conversation);
  _messages : list (N * list Message.Message);
}.

(** [InMemoryRepository()], the first time. *)
Definition init : InMemoryRepository :=
  {| _conversations := []; _messages := [] |}.

(** What a call hands back: a value, or [ValueError] for the conversation
    that was not found. *)
Inductive outcome (A : Type) : Type :=
  | Return (a : A)
  | ValueError (conversation_id : N).
Arguments Return {A} a.
Arguments ValueError {A} conversation_id.

Definition get_conversation (conversation_id : N) (self : InMemoryRepository)
  : option Conversation.Conversation :=
  dict_get conversation_id (_conversations self).

Definition list_conversations (limit offset : Z) (self : InMemoryRepository)
  : list Conversation.Conversation :=
  let conversations :=
    sorted_reverse Conversation.updated_at (dict_values (_conversations self)) in
  slice offset (offset + limit) conversations.

(** [create_conversation], with the fields that [Conversation()] draws:
    the [uuid4()] and the two readings of [datetime.utcnow()]. *)
Definition create_conversation (id : N) (created_at updated_at : Z)
    (self : InMemoryRepository) : InMemoryRepository * Conversation.Conversation :=
  let conversation :=
    {| Conversation.id := id; Conversation.created_at := created_at;
       Conversation.updated_at := updated_at; Conversation.messages := [] |} in
  ({| _conversations := dict_set id conversation (_conversations self);
      _messages := dict_set id [] (_messages self) |}, conversation).

Definition add_message (message : Message.Message) (self : InMemoryRepository)
  : InMemoryRepository * outcome Message.Message :=
  match dict_get (Message.conversation_id message) (_conversations self) with
  | None => (self, ValueError (Message.conversation_id message))
  | Some conversation =>
      let messages0 :=
        match dict_get (Message.conversation_id message) (_messages self) with
        | None => dict_set (Message.conversation_id message) [] (_messages self)
        | Some _ => _messages self
        end in
      let appended :=
        default [] (dict_get (Message.conversation_id message) messages0) ++ [message] in
      let messages1 := dict_set (Message.conversation_id message) appended messages0 in
      let conversation1 :=
        {| Conversation.id := Conversation.id conversation;
           Conversation.created_at := Conversation.created_at conversation;
           Conversation.updated_at := Message.created_at message;
           Conversation.messages := appended |} in
      ({| _conversations :=
            dict_set (Message.conversation_id message) conversation1 (_conversations self);
          _messages := messages1 |}, Return message)
  end.

Definition get_messages (conversation_id : N) (limit offset : Z)
    (self : InMemoryRepository) : outcome (list Message.Message) :=
  match dict_get conversation_id (_conversations self) with
  | None => ValueError conversation_id
  | Some _ =>
      let messages := default [] (dict_get conversation_id (_messages self)) in
      Return (sorted Message.created_at (slice offset (offset + limit) messages))
  end.

End InMemoryRepository.

(** ** The task of [create_message]

    [process_message], the coroutine that [create_message] of [api/app.py]
    hands to the request queue.  The lock of the repository is free
    whenever a coroutine asks for it, a holder giving it back before it
    awaits anything, so the coroutine runs from its start to its end
    without suspension.  The identifiers and the clock readings that the
    two [Message(...)] draw are arguments. *)

Module AppMessages.
Import InMemoryRepository.

Inductive answer : Type :=
  | Returns (user_message : Message.Message)
  | HTTPException (status_code : Z) (detail : string).

Section Service.

(** [llm_service.process_message]: it catches what its body raises and
    hands back a string for every list of messages. *)
Variable llm_process_message : list Message.Message → string.

Definition process_message (conversation_id : N) (content : string)
    (user_id : N) (user_now : Z) (ai_id : N) (ai_now : Z)
    (repository : InMemoryRepository) : InMemoryRepository * answer :=
  match get_conversation conversation_id repository with
  | None => (repository, HTTPException 404 "Conversation not found")
  | Some _ =>
      let user_message :=
        {| Message.id := user_id; Message.conversation_id := conversation_id;
           Message.content := content; Message.role := "user";
           Message.created_at := user_now; Message.context := None |} in
      match add_message user_message repository with
      | (repository1, ValueError _) =>
          (repository1, HTTPException 500 "Failed to process message")
      | (repository1, Return _) =>
          match get_messages conversation_id 100 0 repository1 with
          | ValueError _ => (repository1, HTTPException 500 "Failed to process message")
          | Return messages =>
              let ai_response := llm_process_message messages in
              let ai_message :=
                {| Message.id := ai_id; Message.conversation_id := conversation_id;
                   Message.content := ai_response; Message.role := "assistant";
                   Message.created_at := ai_now; Message.context := None |} in
              match add_message ai_message repository1 with
              | (repository2, ValueError _) =>
                  (repository2, HTTPException 500 "Failed to process message")
              | (repository2, Return _) => (repository2, Returns user_message)
              end
          end
      end
  end.

End Service.

End AppMessages.

(** ** Proofs: the rate limiter *)

Module RateLimiterProofs.
Import RateLimiter.

Section Pruning.

Implicit Types (l : list Z) (reqs : gmap string (list Z)) (key : string).

Lemma elem_of_newer_than c l ts : ts ∈ newer_than c l ↔ c < ts ∧ ts ∈ l.
Proof. unfold newer_than. apply list_elem_of_filter. Qed.

(** Pruning with a later cutoff absorbs pruning with an earlier one. *)
Lemma newer_than_absorb c c' l : c ≤ c' → newer_than c' (newer_than c l) = newer_than c' l.
Proof.
  intros Hc. unfold newer_than. induction l as [|ts l IH]; [done|].
  rewrite !filter_cons. destruct (decide (c < ts)) as [Hts|Hts].
  - rewrite filter_cons. destruct (decide (c' < ts)); by rewrite IH.
  - destruct (decide (c' < ts)); [lia|]. exact IH.
Qed.

Lemma newer_than_idemp c l : newer_than c (newer_than c l) = newer_than c l.
Proof. by apply newer_than_absorb. Qed.

Lemma newer_than_all c l : (∀ ts, ts ∈ l → c < ts) → newer_than c l = l.
Proof.
  intros H. unfold newer_than. induction l as [|ts l IH]; [done|].
  rewrite filter_cons. destruct (decide (c < ts)) as [|Hn].
  - f_equal. apply IH. intros. apply H. by right.
  - exfalso. apply Hn, H. by left.
Qed.

Lemma newer_than_none c l : (∀ ts, ts ∈ l → ts ≤ c) → newer_than c l = [].
Proof.
  intros H. unfold newer_than. induction l as [|ts l IH]; [done|].
  rewrite filter_cons. destruct (decide (c < ts)) as [Hlt|].
  - assert (ts ≤ c) by (apply H; by left). lia.
  - apply IH. intros. apply H. by right.
Qed.

Lemma stored_insert reqs key l : stored (<[key := l]> reqs) key = l.
Proof. unfold stored. by rewrite lookup_insert_eq. Qed.

Lemma stored_insert_ne reqs key k l : key ≠ k → stored (<[key := l]> reqs) k = stored reqs k.
Proof. intros. unfold stored. by rewrite lookup_insert_ne. Qed.

Lemma stored_lookup reqs key l : reqs !! key = Some l → stored reqs key = l.
Proof. unfold stored. by intros ->. Qed.

End Pruning.

(** [check_rate_limit] in closed form: prune, then compare, then record. *)
Lemma check_rate_limit_unfold now key self :
  check_rate_limit now key self =
    let pruned := newer_than (now - time_window self) (stored (requests self) key) in
    if bool_decide (rate_limit self ≤ Z.of_nat (length pruned)) then
      (with_requests self (<[key := pruned]> (requests self)),
       RateLimitExceeded (rate_limit self) (time_window self))
    else
      (with_requests self (<[key := pruned ++ [now]]> (requests self)), Return ()).
Proof.
  unfold check_rate_limit. cbv zeta.
  assert (Hst : stored (match requests self !! key with
            | None => <[key := []]> (requests self) | Some _ => requests self end) key
          = stored (requests self) key).
  { unfold stored. destruct (requests self !! key) eqn:E; [by rewrite E|].
    by rewrite lookup_insert_eq. }
  rewrite Hst, stored_insert.
  assert (Hins : ∀ l : list Z, <[key := l]> (match requests self !! key with
            | None => <[key := []]> (requests self) | Some _ => requests self end)
          = <[key := l]> (requests self)).
  { intros l. destruct (requests self !! key); [done|]. by rewrite insert_insert_eq. }
  rewrite !Hins. case_bool_decide; [done|]. by rewrite insert_insert_eq.
Qed.

Lemma get_remaining_requests_state now key self :
  requests (get_remaining_requests now key self).1
  = alter (newer_than (now - time_window self)) key (requests self).
Proof.
  unfold get_remaining_requests. apply map_eq. intros k.
  destruct (decide (key = k)) as [<-|Hne].
  - rewrite lookup_alter_eq.
    destruct (requests self !! key) as [l|] eqn:E; simpl; [|by rewrite E].
    by rewrite lookup_insert_eq, (stored_lookup _ _ _ E).
  - rewrite lookup_alter_ne by done.
    destruct (requests self !! key); simpl; [|done]. by rewrite lookup_insert_ne.
Qed.

Lemma get_remaining_requests_config now key self :
  rate_limit (get_remaining_requests now key self).1 = rate_limit self
  ∧ time_window (get_remaining_requests now key self).1 = time_window self.
Proof. unfold get_remaining_requests. by destruct (requests self !! key). Qed.

Lemma get_remaining_requests_value now key self :
  (get_remaining_requests now key self).2 =
    match requests self !! key with
    | None => rate_limit self
    | Some l => Z.max 0 (rate_limit self
                  - Z.of_nat (length (newer_than (now - time_window self) l)))
    end.
Proof.
  unfold get_remaining_requests.
  destruct (requests self !! key) as [l|] eqn:E; simpl; [|done].
  by rewrite stored_insert, (stored_lookup _ _ _ E).
Qed.

(** What the sweep leaves of one stored list. *)
Definition kept (c : Z) (l : list Z) : option (list Z) :=
  match newer_than c l with
  | [] => None
  | ts :: l' => Some (ts :: l')
  end.

Lemma kept_Some c l l' : kept c l = Some l' ↔ l' = newer_than c l ∧ l' ≠ [].
Proof.
  unfold kept. destruct (newer_than c l); split.
  - done.
  - intros [-> ?]. done.
  - intros [= <-]. done.
  - intros [-> _]. done.
Qed.

Lemma kept_idemp c l : kept c l ≫= kept c = kept c l.
Proof.
  destruct (kept c l) as [l'|] eqn:E; [|done]. simpl.
  apply kept_Some in E as [-> Hne]. unfold kept. rewrite newer_than_idemp.
  by destruct (newer_than c l).
Qed.

Lemma cleanup_key_lookup c reqs key k :
  cleanup_key c reqs key !! k = if decide (key = k) then reqs !! k ≫= kept c else reqs !! k.
Proof.
  unfold cleanup_key. rewrite stored_insert.
  destruct (decide (key = k)) as [<-|Hne].
  - unfold stored, kept. destruct (reqs !! key) as [l|]; simpl.
    + destruct (newer_than c l); [by rewrite lookup_delete_eq | by rewrite lookup_insert_eq].
    + change (newer_than c []) with (@nil Z). by rewrite lookup_delete_eq.
  - destruct (newer_than c (stored reqs key)).
    + by rewrite lookup_delete_ne, lookup_insert_ne.
    + by rewrite lookup_insert_ne.
Qed.

Lemma cleanup_keys_lookup c keys reqs k :
  foldl (cleanup_key c) reqs keys !! k
  = if decide (k ∈ keys) then reqs !! k ≫= kept c else reqs !! k.
Proof.
  revert reqs. induction keys as [|a keys IH]; intros reqs; simpl.
  - destruct (decide (k ∈ [])) as [H|]; [by apply elem_of_nil in H|done].
  - rewrite IH, cleanup_key_lookup.
    destruct (decide (a = k)) as [->|Hne].
    + destruct (decide (k ∈ k :: keys)) as [|Hn]; [|exfalso; apply Hn; by left].
      destruct (decide (k ∈ keys)); [|done].
      destruct (reqs !! k); simpl; [apply kept_idemp|done].
    + destruct (decide (k ∈ keys)) as [Hin|Hnin].
      * destruct (decide (k ∈ a :: keys)) as [|Hn]; [done|]. exfalso. apply Hn. by right.
      * destruct (decide (k ∈ a :: keys)) as [Hin|]; [|done].
        apply elem_of_cons in Hin as [->|?]; done.
Qed.

Lemma periodic_cleanup_lookup now self k :
  requests (periodic_cleanup now self) !! k
  = requests self !! k ≫= kept (now - time_window self).
Proof.
  unfold periodic_cleanup. simpl. rewrite cleanup_keys_lookup.
  destruct (decide (k ∈ elements (dom (requests self)))) as [|Hn]; [done|].
  destruct (requests self !! k) eqn:E; [|done].
  exfalso. apply Hn. apply elem_of_elements, elem_of_dom. by rewrite E.
Qed.

(** *** Two limiters that no later operation can tell apart

    [same_view t a b]: same configuration, same keys, and the stored lists
    agree once pruned with any cutoff an operation at or after [t] computes. *)
Definition same_view (t : Z) (a b : RateLimiter) : Prop :=
  rate_limit a = rate_limit b
  ∧ time_window a = time_window b
  ∧ (∀ k, is_Some (requests a !! k) ↔ is_Some (requests b !! k))
  ∧ (∀ k c, t - time_window a ≤ c →
       newer_than c (stored (requests a) k) = newer_than c (stored (requests b) k)).

Lemma same_view_refl t a : same_view t a a.
Proof. by repeat split. Qed.



Lemma stored_alter (f : list Z → list Z) reqs key k :
  f [] = [] →
  stored (alter f key reqs) k = if decide (key = k) then f (stored reqs k) else stored reqs k.
Proof.
  intros Hf. unfold stored. destruct (decide (key = k)) as [<-|Hne].
  - rewrite lookup_alter_eq. by destruct (reqs !! key).
  - by rewrite lookup_alter_ne.
Qed.







Lemma perform_all_check t key rest self :
  (perform_all ((t, DoCheck key) :: rest) self).2
  = Checked (check_rate_limit t key self).2
    :: (perform_all rest (check_rate_limit t key self).1).2.
Proof.
  simpl. destruct (check_rate_limit t key self) as [s1 r].
  simpl. by destruct (perform_all rest s1).
Qed.

Lemma check_rate_limit_below now key self l :
  newer_than (now - time_window self) (stored (requests self) key) = l →
  Z.of_nat (length l) < rate_limit self →
  check_rate_limit now key self
  = (with_requests self (<[key := l ++ [now]]> (requests self)), Return ()).
Proof.
  intros <- H. rewrite check_rate_limit_unfold. cbv zeta.
  rewrite bool_decide_false; [done|lia].
Qed.

Lemma check_rate_limit_at_limit now key self l :
  newer_than (now - time_window self) (stored (requests self) key) = l →
  rate_limit self ≤ Z.of_nat (length l) →
  check_rate_limit now key self
  = (with_requests self (<[key := l]> (requests self)),
     RateLimitExceeded (rate_limit self) (time_window self)).
Proof.
  intros <- H. rewrite check_rate_limit_unfold. cbv zeta. by rewrite bool_decide_true.
Qed.



(** *** Properties of the rate limiter *)


(** A limiter with limit 2 and a window of 60 ticks after one check of key
    [a] at clock reading 0. *)
Definition one_check_of_a : RateLimiter :=
  (check_rate_limit 0 "a" (init 2 60)).1.



(** C4. [check_rate_limit] first prunes the key's list; when the pruned list
    already holds [rate_limit] timestamps or more it raises
    [RateLimitExceeded] and stores the pruned list as it is, otherwise it
    stores the pruned list with the current reading appended and succeeds.
    With a limit of 2, three checks of one key within a window succeed,
    succeed and fail, and a fourth check once the first timestamp has left
    the window succeeds again. *)
Theorem check_rate_limit_prunes_then_decides (now : Z) (key : string) (self : RateLimiter)
    (window t1 t2 t3 t4 : Z) :
  let pruned := newer_than (now - time_window self) (stored (requests self) key) in
  (rate_limit self ≤ Z.of_nat (length pruned) →
     check_rate_limit now key self =
       (with_requests self (<[key := pruned]> (requests self)),
        RateLimitExceeded (rate_limit self) (time_window self)))
  ∧ (Z.of_nat (length pruned) < rate_limit self →
     check_rate_limit now key self =
       (with_requests self (<[key := pruned ++ [now]]> (requests self)), Return ()))
  ∧ (t1 ≤ t2 → t2 ≤ t3 → t3 < t1 + window → t3 ≤ t4 → t1 + window ≤ t4 →
     (perform_all [(t1, DoCheck key); (t2, DoCheck key); (t3, DoCheck key); (t4, DoCheck key)]
        (init 2 window)).2
     = [Checked (Return ()); Checked (Return ());
        Checked (RateLimitExceeded 2 window); Checked (Return ())]).
Proof.
  cbv zeta. split; [|split].
  - by apply check_rate_limit_at_limit.
  - by apply check_rate_limit_below.
  - intros H12 H23 H31 H34 H14.
    rewrite perform_all_check, (check_rate_limit_below _ _ _ []); [|done|simpl; lia].
    cbn [fst snd].
    rewrite perform_all_check, (check_rate_limit_below _ _ _ [t1]); [| |simpl; lia].
    2:{ simpl. rewrite stored_insert. apply newer_than_all.
        intros ts ->%list_elem_of_singleton. lia. }
    cbn [fst snd].
    rewrite perform_all_check, (check_rate_limit_at_limit _ _ _ [t1; t2]); [| |simpl; lia].
    2:{ simpl. rewrite stored_insert. apply newer_than_all.
        intros ts [->|Hts]%elem_of_cons; [lia|]. apply list_elem_of_singleton in Hts as ->. lia. }
    cbn [fst snd].
    rewrite perform_all_check,
      (check_rate_limit_below _ _ _ (newer_than (t4 - window) [t2])); [done| |].
    + simpl. rewrite stored_insert. unfold newer_than.
      by rewrite filter_cons_False by lia.
    + unfold newer_than. rewrite filter_cons.
      destruct (decide (t4 - window < t2)); simpl; lia.
Qed.

Lemma check_rate_limit_prunes_then_decides_witness :
  check_rate_limit 100 "b" one_check_of_a
    = (with_requests one_check_of_a (<["b" := [100]]> (requests one_check_of_a)), Return ())
  ∧ (perform_all [(0, DoCheck "k"); (1, DoCheck "k"); (2, DoCheck "k"); (1102, DoCheck "k")]
       (init 2 1000)).2
    = [Checked (Return ()); Checked (Return ());
       Checked (RateLimitExceeded 2 1000); Checked (Return ())].
Proof.
  pose proof (check_rate_limit_prunes_then_decides 100 "b" one_check_of_a 1000 0 1 2 1102)
    as (_ & Hok & Hrun).
  split.
  - apply Hok. vm_compute. reflexivity.
  - apply Hrun; lia.
Defined.






End RateLimiterProofs.

(** ** Proofs: the request queue *)

Module RequestQueueProofs.
Import RequestQueue.

(** *** What a step leaves alone *)

Ltac unfold_step :=
  unfold step, enqueue_request, await_future, assign_and_put, finish_caller, _get_queue,
    _process_queue, throw_cancelled, while_next_in_pending, resolve, teardown,
    cleanup, clear, acquire in *.

Ltac step_cases :=
  unfold_step; repeat (progress simplify_option_eq || case_match).

(** Only the steps of [acquire] touch [active_requests], and no step
    touches the configuration. *)
Lemma run_app es1 es2 s :
  run (es1 ++ es2) s = run es1 s ≫= run es2.
Proof.
  revert s. induction es1 as [|e es1 IH]; intros s; simpl; [done|].
  destruct (step e s) as [s1|]; simpl; [apply IH|done].
Qed.

Lemma run_snoc es e s s' :
  run (es ++ [e]) s = Some s' ↔ ∃ s1, run es s = Some s1 ∧ step e s1 = Some s'.
Proof.
  rewrite run_app. split.
  - destruct (run es s) as [s1|]; simpl; [|done].
    destruct (step e s1) as [s2|] eqn:E; simpl; [|done].
    intros [= <-]. by exists s1.
  - intros (s1 & -> & Hs). simpl. by rewrite Hs.
Qed.

(** An invariant of the steps holds along every run. *)
Lemma run_invariant (P : System → Prop) (ok : event → bool) :
  (∀ e s s', ok e = true → P s → step e s = Some s' → P s') →
  ∀ es s s', forallb ok es = true → P s → run es s = Some s' → P s'.
Proof.
  intros Hstep es. induction es as [|e es IH]; intros s s' Hok HP Hrun; simpl in *.
  - by simplify_eq.
  - apply andb_true_iff in Hok as [He Hes].
    destruct (step e s) as [s1|] eqn:E; simpl in Hrun; [|done].
    eapply IH; [done| |done]. by eapply Hstep.
Qed.

Lemma run_invariant_all (P : System → Prop) :
  (∀ e s s', P s → step e s = Some s' → P s') →
  ∀ es s s', P s → run es s = Some s' → P s'.
Proof.
  intros Hstep es s s' HP Hrun.
  eapply (run_invariant P (λ _, true)); [| |exact HP|exact Hrun].
  - intros e s0 s1 _ HP0 Hs. by apply (Hstep e s0).
  - clear. induction es; simpl; auto.
Qed.

Lemma step_frame e s s' :
  step e s = Some s' →
  max_concurrent s' = max_concurrent s
  ∧ queue_timeout s' = queue_timeout s
  ∧ ((∀ u, e ≠ AcquirerRuns u) → active_requests s' = active_requests s).
Proof.
  intros Hstep. destruct e; step_cases; simpl; try done.
  all: split; [done|]; split; [done|]; intros Hne; by destruct (Hne u).
Qed.

Lemma run_frame es : ∀ s s',
  run es s = Some s' →
  max_concurrent s' = max_concurrent s
  ∧ queue_timeout s' = queue_timeout s
  ∧ (forallb (λ e, negb (of_acquire e)) es = true → active_requests s' = active_requests s).
Proof.
  induction es as [|e es IH]; intros s s' Hrun; simpl in *; [by simplify_eq|].
  destruct (step e s) as [s1|] eqn:E; simpl in Hrun; [|done].
  destruct (step_frame _ _ _ E) as (Hm & Ht & Ha).
  destruct (IH _ _ Hrun) as (Hm' & Ht' & Ha').
  split; [congruence|]. split; [congruence|].
  intros [He Hes]%andb_true_iff. rewrite Ha' by done. apply Ha.
  intros u ->. done.
Qed.

(** *** [active_requests] and its observers *)

(** A queue of capacity 1 whose only slot is taken by the task of a
    request in execution. *)
Definition busy_schedule : list event :=
  [Call 7 (mkTask 5 (Returns 11)); CallerRuns 0; CallerRuns 0;
   ProcessorRuns 0; ProcessorRuns 0; ProcessorRuns 0].

Definition busy_system : System :=
  default (init 1 30 0) (run busy_schedule (init 1 30 0)).

(** C10. No step of [enqueue_request], of the processors, of [cleanup] or
    of the clock changes [active_requests]: along a run without steps of
    [acquire] blocks the counter, and with it [get_queue_length], stays what
    it was; a step of an [acquire] block adds one on entry and takes one off
    on exit; and [is_full] answers true exactly when
    [active_requests >= max_concurrent]. *)
Theorem enqueue_request_leaves_active_requests (es : list event) (s s' : System) :
  run es s = Some s' →
  forallb (λ e, negb (of_acquire e)) es = true →
  active_requests s' = active_requests s
  ∧ (∀ n, get_queue_length s' = Some n → n = active_requests s)
  ∧ (∀ b, is_full s' = Some b →
       (b = true ↔ Z.of_nat (max_concurrent s') ≤ active_requests s'))
  ∧ (∀ u s1 s2, step (AcquirerRuns u) s1 = Some s2 →
       active_requests s2
       = active_requests s1 + match acquirers s1 !! u with
                              | Some A_enter => 1
                              | Some A_exit => -1
                              | _ => 0
                              end).
Proof.
  intros Hrun Hes. destruct (run_frame _ _ _ Hrun) as (_ & _ & Ha).
  specialize (Ha Hes). split; [done|]. split; [|split].
  - unfold get_queue_length. intros n. destruct (_lock s'); [done|]. by intros [= <-].
  - unfold is_full. intros b. destruct (_lock s'); [done|]. intros [= <-].
    by rewrite bool_decide_eq_true.
  - intros u s1 s2 Hstep. step_cases; simpl; lia.
Qed.

Lemma enqueue_request_leaves_active_requests_witness :
  count running (processors busy_system) = 1%nat
  ∧ active_requests busy_system = 0
  ∧ get_queue_length busy_system = Some 0
  ∧ is_full busy_system = Some false.
Proof.
  assert (Hrun : run busy_schedule (init 1 30 0) = Some busy_system)
    by (vm_compute; reflexivity).
  assert (Hes : forallb (λ e, negb (of_acquire e)) busy_schedule = true) by reflexivity.
  destruct (enqueue_request_leaves_active_requests _ _ _ Hrun Hes) as (Ha & _ & _ & _).
  split; [vm_compute; reflexivity|]. split; [exact Ha|].
  split; [vm_compute; reflexivity | vm_compute; reflexivity].
Defined.

(** *** Counting the holders of the semaphore *)

Section Count.
Context {A : Type} (f : A → bool).

Lemma count_nil : count f [] = 0%nat.
Proof. done. Qed.

Lemma count_cons x l : count f (x :: l) = ((if f x then 1 else 0) + count f l)%nat.
Proof. unfold count. rewrite filter_cons. by destruct (f x). Qed.

Lemma count_app l1 l2 : count f (l1 ++ l2) = (count f l1 + count f l2)%nat.
Proof. unfold count. by rewrite filter_app, length_app. Qed.

Lemma count_insert l i x y :
  l !! i = Some x →
  (count f (<[i := y]> l) + (if f x then 1 else 0)
   = count f l + (if f y then 1 else 0))%nat.
Proof.
  revert i. induction l as [|z l IH]; intros [|i] Hl; simplify_eq/=.
  - rewrite !count_cons. lia.
  - rewrite !count_cons. specialize (IH i Hl). lia.
Qed.

Lemma count_alter (g : A → A) l i :
  (∀ x, f (g x) = f x) → count f (alter g i l) = count f l.
Proof.
  intros Hg. revert i. induction l as [|z l IH]; intros [|i]; simpl; try done.
  - by rewrite !count_cons, Hg.
  - rewrite !count_cons. f_equal. apply IH.
Qed.

Lemma count_le_one l i j x y :
  (count f l ≤ 1)%nat →
  l !! i = Some x → f x = true → l !! j = Some y → f y = true → i = j.
Proof.
  revert i j. induction l as [|z l IH]; intros i j Hc Hi Hx Hj Hy; [done|].
  rewrite count_cons in Hc.
  assert (Hpos : ∀ k w, l !! k = Some w → f w = true → (1 ≤ count f l)%nat).
  { clear. induction l as [|z l IH]; intros [|k] w Hk Hw; simplify_eq/=;
      rewrite count_cons; [rewrite Hw; lia|]. specialize (IH k w Hk Hw). lia. }
  destruct i as [|i], j as [|j]; simplify_eq/=; try done.
  - rewrite Hx in Hc. specialize (Hpos j y Hj Hy). lia.
  - rewrite Hy in Hc. specialize (Hpos i x Hi Hx). lia.
  - f_equal. eapply IH; try done. destruct (f z); lia.
Qed.

End Count.

Lemma running_cancel p : running (cancel p) = running p.
Proof. unfold cancel, running. by destruct (task_done p). Qed.

Lemma count_running_cancel_all ts ps :
  count running (cancel_all ts ps) = count running ps.
Proof.
  unfold cancel_all. revert ps. induction ts as [|t ts IH]; intros ps; simpl; [done|].
  rewrite IH. apply count_alter, running_cancel.
Qed.

(** Brings the effect of an update of one processor or one [acquire] block
    on the counts into the context. *)
Ltac count_updates :=
  repeat match goal with
  | Hl : ?l !! ?i = Some ?x |- context [count ?f (<[?i := ?y]> ?l)] =>
      lazymatch goal with
      | _ : (count f (<[i := y]> l) + _ = _)%nat |- _ => fail
      | _ => pose proof (count_insert f l i x y Hl)
      end
  end.

Lemma step_slots_accounted e s s' :
  slots_accounted s → step e s = Some s' → slots_accounted s'.
Proof.
  unfold slots_accounted. intros Hinv Hstep.
  destruct e; step_cases; simpl in *;
    rewrite ?count_app, ?count_cons, ?count_nil, ?count_running_cancel_all,
      ?(count_alter running cancel _ _ running_cancel);
    count_updates;
    repeat match goal with
    | H : context [running (cancel _)] |- _ => rewrite running_cancel in H
    end;
    unfold running, in_block, at_pc in *; simpl in *;
    repeat match goal with
    | H : p_pc ?p = _ |- _ => rewrite H in *
    end; simpl in *; try lia.
Qed.

Lemma init_slots_accounted m qt now : slots_accounted (init m qt now).
Proof. unfold slots_accounted. simpl. rewrite !count_nil. lia. Qed.

(** *** The bound of the semaphore *)

(** C5. In every state that a run reaches, each task in execution and each
    [acquire] block holds one slot of the semaphore, and the slots held and
    the slots free add up to [max_concurrent]: never more than
    [max_concurrent] tasks are in execution, over all keys, and with
    [max_concurrent = 1] no two tasks are in execution at once. *)
Theorem executions_bounded_by_max_concurrent (m : nat) (qt now : Z)
    (es : list event) (s : System) :
  run es (init m qt now) = Some s →
  slots_accounted s
  ∧ max_concurrent s = m
  ∧ (count running (processors s) ≤ m)%nat
  ∧ (m = 1%nat → ∀ t1 t2 p1 p2,
       processors s !! t1 = Some p1 → running p1 = true →
       processors s !! t2 = Some p2 → running p2 = true → t1 = t2).
Proof.
  intros Hrun.
  assert (Hinv : slots_accounted s).
  { eapply (run_invariant_all slots_accounted); [|apply init_slots_accounted|exact Hrun].
    intros e s0 s1 H0 Hs. by apply (step_slots_accounted e s0). }
  destruct (run_frame _ _ _ Hrun) as (Hm & _ & _). simpl in Hm.
  split; [done|]. split; [done|]. unfold slots_accounted in Hinv. split; [lia|].
  intros -> t1 t2 p1 p2 H1 Hr1 H2 Hr2.
  apply (count_le_one running (processors s) t1 t2 p1 p2); try done. lia.
Qed.

Lemma executions_bounded_by_max_concurrent_witness :
  slots_accounted busy_system
  ∧ semaphore busy_system = 0%nat
  ∧ count running (processors busy_system) = 1%nat.
Proof.
  assert (Hrun : run busy_schedule (init 1 30 0) = Some busy_system)
    by (vm_compute; reflexivity).
  destruct (executions_bounded_by_max_concurrent 1 30 0 _ _ Hrun) as (Hinv & _ & _ & _).
  split; [exact Hinv|]. split; vm_compute; reflexivity.
Defined.

(** *** The addresses held by the coroutines stay valid *)

(** The processor is inside its [try] block. *)
Definition in_try (p : Processor) : bool :=
  match p_pc p with
  | P_get | P_acquire _ | P_run _ _ => true
  | _ => false
  end.



Lemma cancel_all_lookup ts : ∀ ps t,
  cancel_all ts ps !! t = (if decide (t ∈ ts) then cancel else id) <$> ps !! t.
Proof.
  unfold cancel_all. induction ts as [|a ts IH]; intros ps t; simpl.
  - destruct (decide (t ∈ [])) as [Hin|_]; [by apply elem_of_nil in Hin|].
    by destruct (ps !! t).
  - rewrite IH, list_lookup_alter.
    assert (Hcc : ∀ p, cancel (cancel p) = cancel p).
    { intros p. unfold cancel at 1 3. unfold task_done. destruct (p_pc p) eqn:E;
        unfold cancel, task_done; simpl; rewrite ?E; done. }
    destruct (decide (a = t)) as [->|Hne].
    + destruct (decide (t ∈ t :: ts)) as [_|Hn]; [|exfalso; apply Hn; by left].
      destruct (ps !! t) as [p|]; simpl; [|by destruct (decide (t ∈ ts))].
      destruct (decide (t ∈ ts)); simpl; by rewrite ?Hcc.
    + destruct (decide (t ∈ ts)) as [Hin|Hnin].
      * destruct (decide (t ∈ a :: ts)) as [_|Hn]; [done|]. exfalso. apply Hn. by right.
      * destruct (decide (t ∈ a :: ts)) as [Hin|_]; [|done].
        apply elem_of_cons in Hin as [->|Hin]; done.
Qed.

Lemma cancel_all_cons t ts ps :
  cancel_all ts (alter cancel t ps) = cancel_all (t :: ts) ps.
Proof. done. Qed.

Lemma in_try_cancel p : in_try (cancel p) = in_try p.
Proof. unfold cancel, in_try. by destruct (task_done p). Qed.

Lemma p_queue_cancel p : p_queue (cancel p) = p_queue p.
Proof. unfold cancel. by destruct (task_done p). Qed.







Lemma resolve_other fut o s :
  futures s !! fut ≠ Some Pending → resolve fut o s = s.
Proof.
  intros H. unfold resolve. destruct (futures s !! fut) as [[| | |]|]; done.
Qed.


(** *** The two timeouts *)




(** *** What [cleanup] does *)

(** A request is queued, and [cleanup] is called before the processor of
    its key has run for the first time. *)
Definition early_cleanup_schedule : list event :=
  [Call 7 (mkTask 5 (Returns 11)); CallerRuns 0; CallerRuns 0;
   CallCleanup; CleanupRuns 0; ProcessorRuns 0; CleanupRuns 0].

(** C2, as the code has it.  [cleanup] takes the lock and calls [cancel()]
    on every task of [_tasks] that is not done; with no task to wait for it
    clears the four containers at once, otherwise it keeps the lock, waits
    until all those tasks are done, and then clears the containers and
    releases the lock.  No step of [cleanup] touches a future or a caller:
    a future that was pending before the step is pending after it. *)
Theorem cleanup_cancels_and_clears (j : nat) (s : System) :
  (∀ s', cleanup j s = Some s' →
     futures s' = futures s ∧ callers s' = callers s
     ∧ (∀ fut, futures s !! fut = Some Pending → futures s' !! fut = Some Pending))
  ∧ (cleanups s !! j = Some CL_lock → _lock s = false →
     ∃ s', cleanup j s = Some s'
       ∧ (∀ t, processors s' !! t
               = (if decide (t ∈ _tasks s) then cancel else id) <$> processors s !! t)
       ∧ match _tasks s with
         | [] => cleared s' ∧ _lock s' = false ∧ cleanups s' !! j = Some CL_done
         | _ :: _ => _lock s' = true ∧ cleanups s' !! j = Some (CL_gather (_tasks s))
         end)
  ∧ (∀ tasks, cleanups s !! j = Some (CL_gather tasks) →
       (all_done tasks (processors s) = false → cleanup j s = None)
       ∧ (all_done tasks (processors s) = true →
          ∃ s', cleanup j s = Some s' ∧ cleared s' ∧ _lock s' = false
            ∧ processors s' = processors s
            ∧ cleanups s' !! j = Some CL_done)).
Proof.
  split; [|split].
  - intros s' Hs. unfold cleanup in Hs.
    destruct (cleanups s !! j) as [[| |]|]; simplify_eq/=;
      repeat case_match; simplify_eq/=; done.
  - intros Hj Hlock. pose proof (lookup_lt_Some _ _ _ Hj) as Hlen.
    unfold cleanup. rewrite Hj. simpl. rewrite Hlock.
    destruct (_tasks s) as [|t0 ts] eqn:Ets.
    + eexists. split; [done|]. simpl. split.
      * intros t. destruct (decide (t ∈ [])) as [Hin|_]; [by apply elem_of_nil in Hin|].
        by destruct (processors s !! t).
      * split; [done|]. split; [done|]. by apply list_lookup_insert_eq.
    + eexists. split; [done|]. simpl. split.
      * intros t. rewrite cancel_all_cons. apply cancel_all_lookup.
      * split; [done|]. by apply list_lookup_insert_eq.
  - intros tasks Hj. pose proof (lookup_lt_Some _ _ _ Hj) as Hlen.
    unfold cleanup. rewrite Hj. simpl. split; intros ->; [done|].
    eexists. split; [done|]. simpl. split; [done|]. split; [done|]. split; [done|].
    by apply list_lookup_insert_eq.
Qed.

Lemma cleanup_cancels_and_clears_witness :
  ∃ s s', run (take 4 early_cleanup_schedule) (init 10 30 0) = Some s
    ∧ cleanup 0 s = Some s'
    ∧ _lock s' = true
    ∧ futures s' !! 0%nat = Some Pending
    ∧ (cancel_requested <$> processors s' !! 0%nat) = Some true.
Proof.
  pose (s := default (init 10 30 0) (run (take 4 early_cleanup_schedule) (init 10 30 0))).
  assert (Hrun : run (take 4 early_cleanup_schedule) (init 10 30 0) = Some s)
    by (vm_compute; reflexivity).
  destruct (cleanup_cancels_and_clears 0 s) as (Hfut & Hlock & _).
  destruct Hlock as (s' & Hs & Hp & Hrest); [vm_compute; reflexivity..|].
  exists s, s'. split; [exact Hrun|]. split; [exact Hs|].
  change (_tasks s) with [0%nat] in Hrest. destruct Hrest as [Hl _]. split; [exact Hl|].
  split.
  - apply (Hfut s' Hs). vm_compute. reflexivity.
  - rewrite Hp. vm_compute. reflexivity.
Defined.

(** C2 as stated fails: after the run of [early_cleanup_schedule] the call
    of [cleanup] has returned, the containers are empty, and the future of
    the queued request is still pending, with its caller still waiting. *)
Lemma cleanup_leaves_future_pending :
  ∃ s, run early_cleanup_schedule (init 10 30 0) = Some s
    ∧ cleanups s !! 0%nat = Some CL_done
    ∧ cleared s
    ∧ futures s !! 0%nat = Some Pending
    ∧ callers s !! 0%nat = Some (mkCaller 7 (mkTask 5 (Returns 11)) (C_wait 0 0)).
Proof.
  eexists. split; [vm_compute; reflexivity|].
  split; [reflexivity|]. split; [by repeat split|]. split; reflexivity.
Qed.

(** *** Runs in which nothing is cancelled

    Along a run without cancellation and without [cleanup], every key has
    one processor that stays in its loop, and the requests of the key are
    executed in the order of their sequence numbers.  The invariant relates,
    for each processor, the counter of its key, its queue, its dictionary,
    and the part of the trace that concerns the key. *)

Lemma submitted_snoc cid tr a :
  submitted cid (tr ++ [a])
  = submitted cid tr ++ match a with
                        | Submitted r =>
                            if bool_decide (conversation_id r = cid) then [r] else []
                        | _ => []
                        end.
Proof.
  unfold submitted. rewrite omap_app. f_equal. simpl.
  destruct a; try done. by case_bool_decide.
Qed.

Lemma executions_snoc cid tr a :
  executions cid (tr ++ [a])
  = executions cid tr ++ match a with
                         | Submitted _ => []
                         | Started r | Finished r =>
                             if bool_decide (conversation_id r = cid) then [a] else []
                         end.
Proof.
  unfold executions. rewrite omap_app. f_equal. simpl.
  destruct a; try done; by case_bool_decide.
Qed.

(** The trace of a key whose first [n] requests have been executed. *)
Definition executed (l : list QueuedRequest) : list action :=
  l ≫= λ r, [Started r; Finished r].

Lemma executed_snoc l r : executed (l ++ [r]) = executed l ++ [Started r; Finished r].
Proof. unfold executed. by rewrite bind_app. Qed.

Lemma executed_take_S l n r :
  l !! n = Some r → executed (take (S n) l) = executed (take n l) ++ [Started r; Finished r].
Proof. intros H. by rewrite (take_S_r _ _ _ H), executed_snoc. Qed.

Record processor_ok (p : Processor) (t c : nat) (Q : Queue)
    (D : gmap nat QueuedRequest) (L : list QueuedRequest) (X : list action) : Prop :=
  ProcessorOk {
    ok_not_cancelled : cancel_requested p = false;
    ok_addresses : p_pc p ≠ P_created → p_queue p = t ∧ p_pending p = t;
    ok_fresh : p_pc p = P_created → next_sequence p = 0%nat;
    ok_length : length L = c;
    ok_requests : ∀ k r, L !! k = Some r →
                    sequence_number r = k ∧ conversation_id r = p_conversation_id p;
    ok_unfinished : (unfinished_tasks Q + next_sequence p = c)%nat;
    ok_dict : ∀ k r, D !! k = Some r → L !! k = Some r;
    ok_items : ∀ r, r ∈ items Q → L !! sequence_number r = Some r;
    ok_pc :
      match p_pc p with
      | P_created | P_get =>
          X = executed (take (next_sequence p) L)
          ∧ (∀ k, (next_sequence p ≤ k < c)%nat → D !! k = L !! k)
          ∧ (next_sequence p = c ∨ items Q ≠ [])
      | P_acquire r =>
          L !! next_sequence p = Some r
          ∧ X = executed (take (next_sequence p) L)
          ∧ (∀ k, (S (next_sequence p) ≤ k < c)%nat → D !! k = L !! k)
      | P_run r _ =>
          L !! next_sequence p = Some r
          ∧ X = executed (take (next_sequence p) L) ++ [Started r]
          ∧ (∀ k, (S (next_sequence p) ≤ k < c)%nat → D !! k = L !! k)
      | P_finally | P_done => False
      end;
  }.

Definition processor_inv (s : System) (t : nat) (p : Processor) : Prop :=
  queues s !! p_conversation_id p = Some t
  ∧ _pending_requests s !! p_conversation_id p = Some t
  ∧ ∃ c Q D,
      _sequence_counters s !! p_conversation_id p = Some c
      ∧ queue_objects s !! t = Some Q
      ∧ dict_objects s !! t = Some D
      ∧ processor_ok p t c Q D
          (submitted (p_conversation_id p) (trace s))
          (executions (p_conversation_id p) (trace s)).

Record undisturbed_inv (s : System) : Prop := UndisturbedInv {
  inv_lock : _lock s = false;
  inv_queue_objects : length (queue_objects s) = length (processors s);
  inv_dict_objects : length (dict_objects s) = length (processors s);
  inv_processors : ∀ t p, processors s !! t = Some p → processor_inv s t p;
  inv_unknown : ∀ cid, queues s !! cid = None →
                  submitted cid (trace s) = [] ∧ executions cid (trace s) = [];
  inv_queues : ∀ cid t, queues s !! cid = Some t →
                 ∃ p, processors s !! t = Some p ∧ p_conversation_id p = cid;
  inv_callers : ∀ i c q, callers s !! i = Some c → c_pc c = C_assign q →
                  queues s !! c_conversation_id c = Some q;
}.

Lemma processor_inv_frame s s' t p :
  processor_inv s t p →
  queues s' !! p_conversation_id p = queues s !! p_conversation_id p →
  _pending_requests s' !! p_conversation_id p = _pending_requests s !! p_conversation_id p →
  _sequence_counters s' !! p_conversation_id p = _sequence_counters s !! p_conversation_id p →
  queue_objects s' !! t = queue_objects s !! t →
  dict_objects s' !! t = dict_objects s !! t →
  submitted (p_conversation_id p) (trace s') = submitted (p_conversation_id p) (trace s) →
  executions (p_conversation_id p) (trace s') = executions (p_conversation_id p) (trace s) →
  processor_inv s' t p.
Proof.
  intros (Hq & Hd & c & Q & D & Hc & HQ & HD & Hok) E1 E2 E3 E4 E5 E6 E7.
  split; [congruence|]. split; [congruence|]. exists c, Q, D.
  rewrite E3, E4, E5, E6, E7. done.
Qed.

(** Two processors of one key are the same processor. *)
Lemma processor_inv_inj s t t' p p' :
  processor_inv s t p → processor_inv s t' p' →
  p_conversation_id p = p_conversation_id p' → t = t'.
Proof. intros (Hq & _) (Hq' & _) E. rewrite E in Hq. congruence. Qed.

Lemma init_undisturbed_inv m qt now : undisturbed_inv (init m qt now).
Proof.
  split; simpl; done.
Qed.

(** A step that changes nothing the invariant reads, but the callers. *)
Lemma undisturbed_inv_frame s s' :
  undisturbed_inv s →
  _lock s' = _lock s → queue_objects s' = queue_objects s →
  dict_objects s' = dict_objects s → processors s' = processors s →
  queues s' = queues s → _pending_requests s' = _pending_requests s →
  _sequence_counters s' = _sequence_counters s → trace s' = trace s →
  (∀ i c q, callers s' !! i = Some c → c_pc c = C_assign q →
     queues s !! c_conversation_id c = Some q) →
  undisturbed_inv s'.
Proof.
  intros [] E1 E2 E3 E4 E5 E6 E7 E8 Hc.
  split; rewrite ?E1, ?E2, ?E3, ?E4, ?E5, ?E6, ?E7, ?E8; try done.
  intros t p Hp. apply (processor_inv_frame s); [by apply inv_processors0|..]; congruence.
Qed.

Lemma get_queue_known cid q s :
  queues s !! cid = Some q → _get_queue cid s = (s, q).
Proof. intros H. unfold _get_queue. by rewrite H. Qed.

(** [_get_queue] for a key that is not known yet. *)
Lemma get_queue_new_inv cid s :
  undisturbed_inv s → queues s !! cid = None →
  undisturbed_inv (_get_queue cid s).1
  ∧ queues (_get_queue cid s).1 !! cid = Some (_get_queue cid s).2
  ∧ callers (_get_queue cid s).1 = callers s
  ∧ (∀ cid' q, queues s !! cid' = Some q → queues (_get_queue cid s).1 !! cid' = Some q).
Proof.
  intros [] Hnew. unfold _get_queue. rewrite Hnew. simpl.
  destruct (inv_unknown0 cid Hnew) as [HL HX].
  split; [|split; [by rewrite lookup_insert_eq|split; [done|]]].
  - split; simpl; rewrite ?length_app; simpl; try lia; try done.
    + intros t p Hp. apply lookup_snoc_Some in Hp as [[Hlt Hp]|[-> <-]].
      * pose proof (inv_processors0 t p Hp) as Hinv.
        assert (Hne : cid ≠ p_conversation_id p).
        { intros ->. destruct Hinv as (Hq & _). congruence. }
        apply (processor_inv_frame s); simpl; try done;
          rewrite ?lookup_insert_ne by done; try done;
          apply lookup_app_l; lia.
      * split; simpl; [rewrite lookup_insert_eq; f_equal; lia|].
        split; [rewrite lookup_insert_eq; f_equal; lia|].
        exists 0%nat, (mkQueue [] 0), ∅. rewrite lookup_insert_eq.
        split; [done|]. rewrite <- inv_queue_objects0 at 1.
        rewrite <- inv_dict_objects0 at 1.
        rewrite !lookup_app_r, !Nat.sub_diag by lia.
        split; [done|]. split; [done|]. rewrite HL, HX.
        split; simpl; try done.
        -- intros r Hr. by apply elem_of_nil in Hr.
        -- split; [done|]. split; [intros; lia|by left].
    + intros cid' Hnone. apply lookup_insert_None in Hnone as [Hnone _].
      by apply inv_unknown0.
    + intros cid' t Hq. apply lookup_insert_Some in Hq as [[<- <-]|[Hne Hq]].
      * eexists. rewrite inv_queue_objects0, lookup_app_r, Nat.sub_diag by lia. done.
      * destruct (inv_queues0 cid' t Hq) as (p & Hp & Hcid).
        exists p. split; [|done]. rewrite lookup_app_l; [done|]. by eapply lookup_lt_Some.
    + intros i c q Hc Hpc. rewrite lookup_insert_ne; [by eapply inv_callers0|].
      intros Heq. specialize (inv_callers0 i c q Hc Hpc). rewrite <- Heq in inv_callers0.
      congruence.
  - intros cid' q Hq. rewrite lookup_insert_ne; [done|]. congruence.
Qed.

Lemma take_snoc_le {A} (l : list A) (x : A) n :
  (n ≤ length l)%nat → take n (l ++ [x]) = take n l.
Proof. intros H. by rewrite take_app_le. Qed.

Lemma lookup_snoc_old {A} (l : list A) (x y : A) k :
  l !! k = Some y → (l ++ [x]) !! k = Some y.
Proof. intros H. rewrite lookup_app_l; [done|]. by eapply lookup_lt_Some. Qed.

Lemma lookup_snoc_new {A} (l : list A) (x : A) : (l ++ [x]) !! length l = Some x.
Proof. by rewrite lookup_app_r, Nat.sub_diag. Qed.

(** The sequence number is assigned and the request is stored and queued. *)
Lemma processor_ok_submit p t c Q D L X task fut :
  processor_ok p t c Q D L X →
  let r := mkQueuedRequest (p_conversation_id p) task fut c in
  processor_ok p t (S c) (put_nowait r Q) (<[c := r]> D) (L ++ [r]) X.
Proof.
  intros [] r.
  assert (Hn : (next_sequence p ≤ length L)%nat) by lia.
  assert (Hcov : ∀ n, (∀ k, (n ≤ k < c)%nat → D !! k = L !! k) →
                      ∀ k, (n ≤ k < S c)%nat → <[c := r]> D !! k = (L ++ [r]) !! k).
  { intros n H k Hk. destruct (decide (k = c)) as [->|Hne].
    - rewrite lookup_insert_eq. subst c. by rewrite lookup_snoc_new.
    - rewrite lookup_insert_ne by done. rewrite H by lia.
      rewrite lookup_app_l; [done|lia]. }
  split; simpl; try done.
  - rewrite length_app. simpl. lia.
  - intros k r0 [[_ Hk]|[-> <-]]%lookup_snoc_Some; [by apply ok_requests0|].
    by subst c.
  - lia.
  - intros k r0 [[<- <-]|[Hne Hk]]%lookup_insert_Some.
    + subst c. apply lookup_snoc_new.
    + by apply lookup_snoc_old, ok_dict0.
  - intros r0 [Hin| ->%list_elem_of_singleton]%elem_of_app.
    + by apply lookup_snoc_old, ok_items0.
    + simpl. subst c. apply lookup_snoc_new.
  - destruct (p_pc p); try done.
    + destruct ok_pc0 as (HX & Hc & _). rewrite take_snoc_le by done.
      split; [done|]. split; [by apply Hcov|]. right. by destruct (items Q).
    + destruct ok_pc0 as (HX & Hc & _). rewrite take_snoc_le by done.
      split; [done|]. split; [by apply Hcov|]. right. by destruct (items Q).
    + destruct ok_pc0 as (Hr & HX & Hc). rewrite take_snoc_le by done.
      split; [by apply lookup_snoc_old|]. split; [done|]. by apply Hcov.
    + destruct ok_pc0 as (Hr & HX & Hc). rewrite take_snoc_le by done.
      split; [by apply lookup_snoc_old|]. split; [done|]. by apply Hcov.
Qed.

Lemma assign_and_put_inv i c q s :
  undisturbed_inv s → callers s !! i = Some c → c_pc c = C_assign q →
  undisturbed_inv (assign_and_put i c q s).
Proof.
  intros [] Hi Hpc.
  pose proof (inv_callers0 i c q Hi Hpc) as Hq.
  destruct (inv_queues0 _ _ Hq) as (p & Hp & Hcid).
  destruct (inv_processors0 _ _ Hp) as (_ & Hd & n & Q & D & Hn & HQ & HD & Hok).
  unfold assign_and_put. rewrite <- Hcid in *. rewrite Hn. simpl. rewrite Hd. simpl.
  split; simpl; rewrite ?length_alter; try done.
  - intros t p' Hp'. destruct (decide (t = q)) as [->|Hne].
    + assert (p' = p) as -> by congruence.
      split; simpl; [done|]. split; [done|].
      eexists _, _, _.
      rewrite lookup_insert_eq, !list_lookup_alter_eq, HQ, HD.
      split; [done|]. split; [done|]. split; [done|].
      rewrite submitted_snoc, executions_snoc, bool_decide_true, app_nil_r by done.
      by apply processor_ok_submit.
    + pose proof (inv_processors0 _ _ Hp') as Hinv'.
      assert (Hcne : p_conversation_id p ≠ p_conversation_id p').
      { intros E. destruct Hinv' as (Hq' & _). rewrite <- E in Hq'. congruence. }
      apply (processor_inv_frame s); simpl; try done.
      * by rewrite lookup_insert_ne.
      * by rewrite list_lookup_alter_ne.
      * by rewrite list_lookup_alter_ne.
      * rewrite submitted_snoc, bool_decide_false, app_nil_r by done. done.
      * by rewrite executions_snoc, app_nil_r.
  - intros cid Hnone.
    assert (p_conversation_id p ≠ cid) by congruence.
    rewrite submitted_snoc, executions_snoc, bool_decide_false, !app_nil_r by done.
    by apply inv_unknown0.
  - intros j c' q' [(-> & <- & _)|[_ Hj]]%list_lookup_insert_Some Hpc'; [done|].
    by eapply inv_callers0.
Qed.

(** A step of the processor [t] that leaves the registry and the callers
    alone and touches no object of another processor. *)
Lemma undisturbed_inv_update s s' t p p' :
  undisturbed_inv s → processors s !! t = Some p →
  _lock s' = _lock s → queues s' = queues s →
  _pending_requests s' = _pending_requests s →
  _sequence_counters s' = _sequence_counters s → callers s' = callers s →
  processors s' = <[t := p']> (processors s) →
  p_conversation_id p' = p_conversation_id p →
  length (queue_objects s') = length (queue_objects s) →
  length (dict_objects s') = length (dict_objects s) →
  (∀ t', t' ≠ t → queue_objects s' !! t' = queue_objects s !! t') →
  (∀ t', t' ≠ t → dict_objects s' !! t' = dict_objects s !! t') →
  (∀ cid, cid ≠ p_conversation_id p →
     submitted cid (trace s') = submitted cid (trace s)
     ∧ executions cid (trace s') = executions cid (trace s)) →
  processor_inv s' t p' →
  undisturbed_inv s'.
Proof.
  intros [] Hp El Eq Ed Ec Eca Epr Ecid Elq Eld Hqo Hdo Htr Hnew.
  pose proof (inv_processors0 _ _ Hp) as Hinv.
  split; rewrite ?El, ?Eq, ?Ed, ?Ec, ?Eca, ?Epr, ?Elq, ?Eld, ?length_insert; try done.
  - intros t' p0 [(-> & <- & _)|[Hne Hp0]]%list_lookup_insert_Some; [done|].
    pose proof (inv_processors0 _ _ Hp0) as Hinv0.
    assert (Hcne : p_conversation_id p0 ≠ p_conversation_id p).
    { intros E. apply Hne. by apply (processor_inv_inj s t t' p p0). }
    destruct (Htr _ Hcne) as [E1 E2].
    apply (processor_inv_frame s); try done; try congruence.
    + by apply Hqo.
    + by apply Hdo.
  - intros cid Hnone. destruct Hinv as (Hq & _).
    assert (Hcne : cid ≠ p_conversation_id p) by congruence.
    destruct (Htr _ Hcne) as [-> ->]. by apply inv_unknown0.
  - intros cid t' Hq. destruct (inv_queues0 _ _ Hq) as (p0 & Hp0 & Hcid).
    destruct (decide (t' = t)) as [->|Hne].
    + exists p'. rewrite list_lookup_insert_eq by (by eapply lookup_lt_Some).
      split; [done|]. congruence.
    + exists p0. by rewrite list_lookup_insert_ne.
Qed.

(** The head of the [while] loop: the next request is taken from the
    dictionary when it is there. *)
Lemma processor_ok_loop_head p t c Q D L X :
  cancel_requested p = false → p_queue p = t → p_pending p = t →
  length L = c →
  (∀ k r, L !! k = Some r →
     sequence_number r = k ∧ conversation_id r = p_conversation_id p) →
  (unfinished_tasks Q + next_sequence p = c)%nat →
  (∀ k r, D !! k = Some r → L !! k = Some r) →
  (∀ r, r ∈ items Q → L !! sequence_number r = Some r) →
  X = executed (take (next_sequence p) L) →
  (∀ k, (next_sequence p ≤ k < c)%nat → D !! k = L !! k) →
  match D !! next_sequence p with
  | Some r => processor_ok (at_pc (P_acquire r) p) t c Q (delete (next_sequence p) D) L X
  | None => processor_ok (at_pc P_get p) t c Q D L X
  end.
Proof.
  intros Hc Hq Hd Hlen Hreq Hun Hdict Hitems HX Hcov.
  destruct (D !! next_sequence p) as [r|] eqn:E.
  - split; simpl; try done.
    + intros k r0 [_ Hk]%lookup_delete_Some. by apply Hdict.
    + split; [by apply Hdict|]. split; [done|].
      intros k Hk. rewrite lookup_delete_ne by lia. apply Hcov. lia.
  - split; simpl; try done. split; [done|]. split; [done|]. left.
    destruct (decide (next_sequence p = c)) as [|Hne]; [done|].
    rewrite Hcov in E by lia. apply lookup_ge_None in E. lia.
Qed.

Lemma while_next_in_pending_unfold t p s D :
  dict_objects s !! p_pending p = Some D →
  while_next_in_pending t p s =
    match D !! next_sequence p with
    | Some r =>
        set_processors (<[t := at_pc (P_acquire r) p]> (processors s))
          (set_dict_objects
             (alter (delete (next_sequence p)) (p_pending p) (dict_objects s)) s)
    | None => set_processors (<[t := at_pc P_get p]> (processors s)) s
    end.
Proof. intros H. unfold while_next_in_pending. by rewrite H. Qed.

Lemma resolve_cases fut o s :
  resolve fut o s = s ∨ resolve fut o s = set_futures (<[fut := o]> (futures s)) s.
Proof. unfold resolve. repeat case_match; auto. Qed.

Lemma resolve_fields fut o s :
  _lock (resolve fut o s) = _lock s
  ∧ queues (resolve fut o s) = queues s
  ∧ _pending_requests (resolve fut o s) = _pending_requests s
  ∧ _sequence_counters (resolve fut o s) = _sequence_counters s
  ∧ callers (resolve fut o s) = callers s
  ∧ processors (resolve fut o s) = processors s
  ∧ queue_objects (resolve fut o s) = queue_objects s
  ∧ dict_objects (resolve fut o s) = dict_objects s
  ∧ trace (resolve fut o s) = trace s
  ∧ semaphore (resolve fut o s) = semaphore s
  ∧ clock (resolve fut o s) = clock s.
Proof. destruct (resolve_cases fut o s) as [-> | ->]; by repeat split. Qed.

Lemma process_queue_inv t s s' :
  undisturbed_inv s → _process_queue t s = Some s' → undisturbed_inv s'.
Proof.
  intros Hinv Hstep. pose proof Hinv as [].
  unfold _process_queue in Hstep.
  destruct (processors s !! t) as [p|] eqn:Hp; simpl in Hstep; [|done].
  pose proof (lookup_lt_Some _ _ _ Hp) as Hlen.
  destruct (inv_processors0 _ _ Hp) as (Hq & Hd & c & Q & D & Hc & HQ & HD & Hok).
  pose proof Hok as [].
  rewrite ok_not_cancelled0 in Hstep.
  destruct (p_pc p) as [| |r|r since| |] eqn:Hpc; try done.
  - (* the task enters its body *)
    rewrite Hq, Hd in Hstep. apply (inj Some) in Hstep as <-.
    eapply (undisturbed_inv_update s _ t p); try done.
    split; simpl; [done|]. split; [done|]. exists c, Q, D.
    split; [done|]. split; [done|]. split; [done|].
    rewrite ok_fresh0 in * by done.
    split; simpl; try done.
  - (* [queue.get()] returns *)
    destruct ok_addresses0 as [Eq Ed]; [done|].
    rewrite Eq, HQ in Hstep. simpl in Hstep.
    destruct (items Q) as [|r rest] eqn:Hitems; [done|]. apply (inj Some) in Hstep as <-.
    destruct ok_pc0 as (HX & Hcov & _).
    assert (Hr : submitted (p_conversation_id p) (trace s) !! sequence_number r = Some r).
    { apply ok_items0. by left. }
    erewrite while_next_in_pending_unfold;
      [|simpl; rewrite Ed, list_lookup_alter_eq, HD; done].
    simpl.
    assert (Hdict : ∀ k r0, <[sequence_number r := r]> D !! k = Some r0 →
                      submitted (p_conversation_id p) (trace s) !! k = Some r0).
    { intros k r0 [[<- <-]|[_ Hk]]%lookup_insert_Some; [done|by apply ok_dict0]. }
    assert (Hcov' : ∀ k, (next_sequence p ≤ k < c)%nat →
                      <[sequence_number r := r]> D !! k
                      = submitted (p_conversation_id p) (trace s) !! k).
    { intros k Hk. destruct (decide (sequence_number r = k)) as [<-|Hne].
      - by rewrite lookup_insert_eq.
      - rewrite lookup_insert_ne by done. by apply Hcov. }
    pose proof (processor_ok_loop_head p t c (mkQueue rest (unfinished_tasks Q))
                  (<[sequence_number r := r]> D)
                  (submitted (p_conversation_id p) (trace s))
                  (executions (p_conversation_id p) (trace s))
                  ok_not_cancelled0 Eq Ed ok_length0 ok_requests0) as Hhead.
    simpl in Hhead. specialize (Hhead ok_unfinished0 Hdict).
    assert (Hrest : ∀ r0, r0 ∈ rest →
              submitted (p_conversation_id p) (trace s) !! sequence_number r0 = Some r0).
    { intros r0 Hin. apply ok_items0. by right. }
    specialize (Hhead Hrest HX Hcov').
    rewrite Ed.
    destruct (<[sequence_number r := r]> D !! next_sequence p) as [r'|] eqn:E.
    + eapply (undisturbed_inv_update s _ t p); simpl; try done;
        rewrite ?length_alter, ?length_insert; try done.
      * intros t' Hne. by rewrite list_lookup_insert_ne.
      * intros t' Hne. by rewrite !list_lookup_alter_ne.
      * split; simpl; [done|]. split; [done|]. eexists c, _, _.
        split; [done|].
        rewrite list_lookup_insert_eq by (rewrite inv_queue_objects0; done).
        rewrite !list_lookup_alter_eq, HD. simpl. done.
    + eapply (undisturbed_inv_update s _ t p); simpl; try done;
        rewrite ?length_alter, ?length_insert; try done.
      * intros t' Hne. by rewrite list_lookup_insert_ne.
      * intros t' Hne. by rewrite !list_lookup_alter_ne.
      * split; simpl; [done|]. split; [done|]. eexists c, _, _.
        split; [done|].
        rewrite list_lookup_insert_eq by (rewrite inv_queue_objects0; done).
        rewrite !list_lookup_alter_eq, HD. simpl. done.
  - (* the semaphore is acquired and the task is invoked *)
    destruct (semaphore s) as [|n] eqn:Hsem; [done|]. apply (inj Some) in Hstep as <-.
    destruct ok_addresses0 as [Eq Ed]; [done|].
    destruct ok_pc0 as (Hr & HX & Hcov).
    destruct (ok_requests0 _ _ Hr) as [_ Hcid].
    eapply (undisturbed_inv_update s _ t p); simpl; try done.
    + intros cid Hne.
      rewrite submitted_snoc, executions_snoc, bool_decide_false, !app_nil_r by congruence.
      done.
    + split; simpl; [done|]. split; [done|]. exists c, Q, D.
      split; [done|]. split; [done|]. split; [done|].
      rewrite submitted_snoc, executions_snoc, bool_decide_true, app_nil_r by done.
      split; simpl; try done. split; [done|]. split; [by rewrite HX|done].
  - (* the wait for the task ends *)
    destruct ok_addresses0 as [Eq Ed]; [done|].
    case_bool_decide; [|done].
    destruct ok_pc0 as (Hr & HX & Hcov).
    destruct (ok_requests0 _ _ Hr) as [_ Hcid].
    assert (Hlt : (next_sequence p < c)%nat).
    { rewrite <- ok_length0. by eapply lookup_lt_Some. }
    destruct (resolve_fields (future r)
                (outcome (wait_for (task r) (queue_timeout s))) s)
      as (E1 & E2 & E3 & E4 & E5 & E6 & E7 & E8 & E9 & E10 & E11).
    set (s1 := resolve _ _ s) in *.
    simpl in Hstep. rewrite E7, Eq, HQ in Hstep. simpl in Hstep.
    destruct (unfinished_tasks Q) as [|u] eqn:Hu; [lia|].
    apply (inj Some) in Hstep as <-.
    set (p' := mkProcessor _ _ _ _ _ _).
    erewrite (while_next_in_pending_unfold t p' _ D);
      [|simpl; by rewrite E8, Ed].
    assert (Hc' : cancel_requested p' = false) by (by subst p'; simpl).
    assert (Eq' : p_queue p' = t) by (by subst p'; simpl).
    assert (Ed' : p_pending p' = t) by (by subst p'; simpl).
    pose proof (processor_ok_loop_head p' t c (mkQueue (items Q) u) D
                  (submitted (p_conversation_id p) (trace s))
                  (executions (p_conversation_id p) (trace s) ++ [Finished r])
                  Hc' Eq' Ed' ok_length0 ok_requests0) as Hhead.
    simpl in Hhead.
    assert (Hun : (u + S (next_sequence p))%nat = c) by lia.
    specialize (Hhead Hun ok_dict0 ok_items0).
    assert (HX' : executions (p_conversation_id p) (trace s) ++ [Finished r]
                  = executed (take (S (next_sequence p))
                                (submitted (p_conversation_id p) (trace s)))).
    { rewrite HX, (executed_take_S _ _ _ Hr), <- app_assoc. done. }
    specialize (Hhead HX' Hcov).
    assert (Htr : ∀ cid, cid ≠ p_conversation_id p →
              submitted cid (trace s ++ [Finished r]) = submitted cid (trace s)
              ∧ executions cid (trace s ++ [Finished r]) = executions cid (trace s)).
    { intros cid Hne.
      rewrite submitted_snoc, executions_snoc, bool_decide_false, !app_nil_r by congruence.
      done. }
    simpl.
    destruct (D !! S (next_sequence p)) as [r'|] eqn:E.
    + eapply (undisturbed_inv_update s _ t p); simpl;
        rewrite ?E1, ?E2, ?E3, ?E4, ?E5, ?E6, ?E7, ?E8, ?E9, ?Ed,
          ?length_alter, ?length_insert; try done.
      * intros t' Hne. by rewrite list_lookup_insert_ne.
      * intros t' Hne. by rewrite !list_lookup_alter_ne.
      * split; simpl; [by rewrite E2|]. split; [by rewrite E3|]. eexists c, _, _.
        rewrite ?E4, ?E7, ?E8, ?E9. split; [done|].
        rewrite list_lookup_insert_eq by (rewrite inv_queue_objects0; done).
        rewrite !list_lookup_alter_eq, HD. simpl.
        rewrite submitted_snoc, executions_snoc, bool_decide_true, app_nil_r by done.
        done.
    + eapply (undisturbed_inv_update s _ t p); simpl;
        rewrite ?E1, ?E2, ?E3, ?E4, ?E5, ?E6, ?E7, ?E8, ?E9, ?Ed,
          ?length_alter, ?length_insert; try done.
      * intros t' Hne. by rewrite list_lookup_insert_ne.
      * split; simpl; [by rewrite E2|]. split; [by rewrite E3|]. eexists c, _, _.
        rewrite ?E4, ?E7, ?E8, ?E9. split; [done|].
        rewrite list_lookup_insert_eq by (rewrite inv_queue_objects0; done).
        rewrite HD. simpl.
        rewrite submitted_snoc, executions_snoc, bool_decide_true, app_nil_r by done.
        done.
Qed.

Lemma step_undisturbed_inv e s s' :
  undisturbed e = true → undisturbed_inv s → step e s = Some s' → undisturbed_inv s'.
Proof.
  intros He Hinv Hstep. destruct e; try done; simpl in Hstep.
  - (* a call of [enqueue_request] *)
    apply (inj Some) in Hstep as <-.
    apply (undisturbed_inv_frame s); try done. simpl.
    intros i c q [[_ Hi]|[_ <-]]%lookup_snoc_Some Hpc; [|done].
    by eapply inv_callers.
  - (* a step of [enqueue_request] *)
    unfold enqueue_request in Hstep.
    destruct (callers s !! i) as [c|] eqn:Hi; simpl in Hstep; [|done].
    destruct (c_pc c) as [|q|fut since|r] eqn:Hpc; [| | |done].
    + rewrite (inv_lock _ Hinv) in Hstep.
      destruct (queues s !! c_conversation_id c) as [q|] eqn:Hq.
      * rewrite (get_queue_known _ _ _ Hq) in Hstep. apply (inj Some) in Hstep as <-.
        apply (undisturbed_inv_frame s); try done. simpl.
        intros j c' q' [(-> & <- & _)|[_ Hj]]%list_lookup_insert_Some Hpc'.
        -- simpl in *. congruence.
        -- by eapply inv_callers.
      * destruct (get_queue_new_inv _ _ Hinv Hq) as (Hinv1 & Hq1 & Hc1 & Hmono).
        destruct (_get_queue (c_conversation_id c) s) as [s1 q]. simpl in *.
        apply (inj Some) in Hstep as <-.
        apply (undisturbed_inv_frame s1); try done. simpl.
        intros j c' q' [(-> & <- & _)|[_ Hj]]%list_lookup_insert_Some Hpc'.
        -- simpl in *. congruence.
        -- rewrite Hc1 in Hj. by eapply Hmono, inv_callers.
    + rewrite (inv_lock _ Hinv) in Hstep. apply (inj Some) in Hstep as <-.
      by apply assign_and_put_inv.
    + unfold await_future, finish_caller in Hstep.
      assert (Hcallers : ∀ r0 j c' q',
                <[i := mkCaller (c_conversation_id c) (c_task c) (C_done r0)]> (callers s)
                  !! j = Some c' →
                c_pc c' = C_assign q' → queues s !! c_conversation_id c' = Some q').
      { intros r0 j c' q' [(-> & <- & _)|[_ Hj]]%list_lookup_insert_Some Hpc'; [done|].
        by eapply inv_callers. }
      destruct (futures s !! fut) as [[| | |]|]; [| | | |done].
      * case_bool_decide; [|done]. apply (inj Some) in Hstep as <-.
        apply (undisturbed_inv_frame s); try done. apply Hcallers.
      * apply (inj Some) in Hstep as <-.
        apply (undisturbed_inv_frame s); try done. apply Hcallers.
      * apply (inj Some) in Hstep as <-.
        apply (undisturbed_inv_frame s); try done. apply Hcallers.
      * apply (inj Some) in Hstep as <-.
        apply (undisturbed_inv_frame s); try done. apply Hcallers.
  - by apply (process_queue_inv t s).
  - apply (inj Some) in Hstep as <-.
    apply (undisturbed_inv_frame s); try done. apply (inv_callers _ Hinv).
  - unfold acquire in Hstep.
    destruct (acquirers s !! u) as [pc|]; simpl in Hstep; [|done].
    destruct pc; repeat case_match; try done; apply (inj Some) in Hstep as <-;
      apply (undisturbed_inv_frame s); try done; apply (inv_callers _ Hinv).
  - apply (inj Some) in Hstep as <-.
    apply (undisturbed_inv_frame s); try done. apply (inv_callers _ Hinv).
Qed.

Lemma run_undisturbed_inv m qt now es s :
  forallb undisturbed es = true → run es (init m qt now) = Some s → undisturbed_inv s.
Proof.
  intros Hes Hrun.
  eapply (run_invariant undisturbed_inv undisturbed);
    [apply step_undisturbed_inv|exact Hes|apply init_undisturbed_inv|exact Hrun].
Qed.

(** *** What each step of a processor does, in a run without cancellation *)





(** *** Every submitted request gets executed *)













(** *** The order of execution *)





(** *** Failing tasks *)

(** The task of the first of two requests of one key raises an exception
    after 5 ticks; the clock stands at the end of its execution. *)
Definition failing_schedule : list event :=
  [Call 7 (mkTask 5 (Raises "boom")); Call 7 (mkTask 1 (Returns 2));
   CallerRuns 0; CallerRuns 0; CallerRuns 1; CallerRuns 1;
   ProcessorRuns 0; ProcessorRuns 0; ProcessorRuns 0; Tick 5].




(** *** The end of a processor *)




Lemma p_pc_cancel p : p_pc (cancel p) = p_pc p.
Proof. unfold cancel. by destruct (task_done p). Qed.


Lemma teardown_effect cid s :
  _lock (teardown cid s) = _lock s
  ∧ processors (teardown cid s) = processors s
  ∧ (∀ cid', cid' ≠ cid →
       queues (teardown cid s) !! cid' = queues s !! cid'
       ∧ _sequence_counters (teardown cid s) !! cid' = _sequence_counters s !! cid'
       ∧ _pending_requests (teardown cid s) !! cid' = _pending_requests s !! cid')
  ∧ match queues s !! cid ≫= (λ q, queue_objects s !! q) with
    | Some Q =>
        if decide (items Q = []) then
          queues (teardown cid s) !! cid = None
          ∧ _sequence_counters (teardown cid s) !! cid = None
          ∧ _pending_requests (teardown cid s) !! cid = None
        else teardown cid s = s
    | None => teardown cid s = s
    end.
Proof.
  unfold teardown.
  destruct (queues s !! cid ≫= (λ q, queue_objects s !! q)) as [Q|]; [|done].
  destruct (items Q) as [|r rest]; simpl; [|done].
  split; [done|]. split; [done|]. split.
  - intros cid' Hne. by rewrite !lookup_delete_ne.
  - by rewrite !lookup_delete_eq.
Qed.






(** *** Two behaviours under cancellation *)

(** [cleanup] is called while the processor of [busy_system] waits for its
    task, and the processor then receives the cancellation. *)
Definition late_cleanup_schedule : list event :=
  busy_schedule ++ [CallCleanup; CleanupRuns 0; ProcessorRuns 0].

Definition late_cleanup_system : System :=
  default (init 1 30 0) (run late_cleanup_schedule (init 1 30 0)).

(** [cleanup] holds the lock while it waits for the processor, and the
    processor waits for the lock in its [finally] block. *)
Definition cleanup_stuck (s : System) : Prop :=
  _lock s = true
  ∧ cleanups s !! 0%nat = Some (CL_gather [0%nat])
  ∧ (∀ j tasks, cleanups s !! j = Some (CL_gather tasks) → j = 0%nat)
  ∧ ∃ p, processors s !! 0%nat = Some p ∧ p_pc p = P_finally
         ∧ cancel_requested p = false.

Definition cancels_first (e : event) : bool :=
  match e with
  | CancelTask 0 => true
  | _ => false
  end.

Lemma step_cleanup_stuck e s s' :
  cancels_first e = false → cleanup_stuck s → step e s = Some s' → cleanup_stuck s'.
Proof.
  intros He (Hlock & Hc & Hone & p & Hp & Hpc & Hcr) Hstep.
  pose proof (lookup_lt_Some _ _ _ Hp) as Hlen.
  pose proof (lookup_lt_Some _ _ _ Hc) as Hlenc.
  destruct e as [cid task|i|t| |u| |j|t|d]; simpl in Hstep.
  - apply (inj Some) in Hstep as <-. by repeat split; eauto.
  - unfold enqueue_request, await_future, finish_caller in Hstep.
    destruct (callers s !! i) as [c|]; simpl in Hstep; [|done].
    rewrite Hlock in Hstep.
    destruct (c_pc c); try done.
    repeat case_match; simplify_eq/=; by repeat split; eauto.
  - destruct (decide (t = 0%nat)) as [->|Hne].
    + unfold _process_queue in Hstep. rewrite Hp in Hstep. simpl in Hstep.
      by rewrite Hcr, Hpc, Hlock in Hstep.
    + assert (Hkeep : _lock s' = _lock s ∧ cleanups s' = cleanups s
                      ∧ processors s' !! 0%nat = processors s !! 0%nat).
      { clear Hc Hone. step_cases; simpl;
          rewrite ?list_lookup_insert_ne by done; try done; congruence. }
      destruct Hkeep as (E1 & E2 & E3). unfold cleanup_stuck.
      rewrite E1, E2, E3. by repeat split; eauto.
  - apply (inj Some) in Hstep as <-. by repeat split; eauto.
  - unfold acquire in Hstep.
    destruct (acquirers s !! u) as [pc|]; simpl in Hstep; [|done].
    rewrite Hlock in Hstep.
    destruct pc; try done; repeat case_match; simplify_eq/=; by repeat split; eauto.
  - apply (inj Some) in Hstep as <-. simpl. split; [done|].
    split; [by apply lookup_snoc_old|]. split; [|by eauto].
    intros j tasks [[_ Hj]|[_ ?]]%lookup_snoc_Some; [by eauto|done].
  - unfold cleanup in Hstep.
    destruct (cleanups s !! j) as [[|tasks|]|] eqn:Hj; simpl in Hstep; try done.
    + by rewrite Hlock in Hstep.
    + assert (j = 0%nat) as -> by eauto.
      assert (tasks = [0%nat]) as -> by congruence.
      unfold all_done in Hstep. simpl in Hstep. rewrite Hp in Hstep. simpl in Hstep.
      unfold task_done in Hstep. by rewrite Hpc in Hstep.
  - destruct t as [|t]; [done|].
    destruct (processors s !! S t) as [p'|]; simpl in Hstep; [|done].
    apply (inj Some) in Hstep as <-. unfold cleanup_stuck. simpl.
    rewrite list_lookup_insert_ne by done. by repeat split; eauto.
  - apply (inj Some) in Hstep as <-. by repeat split; eauto.
Qed.

(** Once a processor has entered its body, a call of [cleanup] does not
    return: it waits for the processor while it holds the lock that the
    processor needs to end.  Unless the task of the processor is cancelled
    a second time, this lasts along every run, and the future of the
    request stays as it is until its caller gives up. *)
Lemma cleanup_waits_for_a_processor_that_waits_for_the_lock :
  run late_cleanup_schedule (init 1 30 0) = Some late_cleanup_system
  ∧ step (CleanupRuns 0) late_cleanup_system = None
  ∧ step (ProcessorRuns 0) late_cleanup_system = None
  ∧ futures late_cleanup_system !! 0%nat = Some Pending
  ∧ ∀ es s, forallb (λ e, negb (cancels_first e)) es = true →
      run es late_cleanup_system = Some s →
      _lock s = true ∧ cleanups s !! 0%nat = Some (CL_gather [0%nat]).
Proof.
  split; [vm_compute; reflexivity|]. split; [vm_compute; reflexivity|].
  split; [vm_compute; reflexivity|]. split; [vm_compute; reflexivity|].
  intros es s Hes Hrun.
  assert (Hstuck : cleanup_stuck s).
  { apply (run_invariant cleanup_stuck (λ e, negb (cancels_first e)))
      with es late_cleanup_system; [| exact Hes | | exact Hrun].
    - intros e s0 s1 He. apply step_cleanup_stuck. by destruct (cancels_first e).
    - split; [vm_compute; reflexivity|]. split; [vm_compute; reflexivity|]. split.
      + intros [|[|j]] tasks; vm_compute; intros; simplify_eq; done.
      + eexists. split; [vm_compute; reflexivity|]. split; reflexivity. }
  destruct Hstuck as (? & ? & _). done.
Qed.

(** The task of a processor is cancelled while the processor waits at
    [queue.get()], and a request is queued before the cancellation is
    delivered. *)
Definition stranded_schedule : list event :=
  [Call 7 (mkTask 5 (Returns 11)); CallerRuns 0; ProcessorRuns 0; CancelTask 0;
   CallerRuns 0; ProcessorRuns 0; ProcessorRuns 0;
   Call 7 (mkTask 1 (Returns 2)); CallerRuns 1; CallerRuns 1].

(** The [finally] block finds the queue not empty and keeps the state of
    the key: the key stays registered with a processor that is done, so no
    new processor is started for it, and the requests queued for it, before
    and after, wait in a queue that nobody reads. *)
Lemma cancelled_processor_strands_requests :
  ∃ s, run stranded_schedule (init 1 30 0) = Some s
    ∧ queues s !! 7%N = Some 0%nat
    ∧ (task_done <$> processors s) = [true]
    ∧ ((λ q, sequence_number <$> items q) <$> queue_objects s !! 0%nat) = Some [0; 1]%nat
    ∧ futures s = [Pending; Pending]
    ∧ step (ProcessorRuns 0) s = None.
Proof. eexists. split; [vm_compute; reflexivity|]. by repeat split. Qed.

End RequestQueueProofs.

(** ** Proofs: what a client of the rate limiter can rely on *)

Module AdmissionProofs.
Import RateLimiter RateLimiterProofs.

(** [perform_all], one operation at a time. *)
Lemma perform_all_cons t op rest self :
  perform_all ((t, op) :: rest) self
  = ((perform_all rest (perform t op self).1).1,
     (perform t op self).2 :: (perform_all rest (perform t op self).1).2).
Proof.
  simpl. destruct (perform t op self) as [s1 o]. simpl. by destruct (perform_all rest s1).
Qed.

Lemma check_rate_limit_config now key self :
  rate_limit (check_rate_limit now key self).1 = rate_limit self
  ∧ time_window (check_rate_limit now key self).1 = time_window self.
Proof. rewrite check_rate_limit_unfold. cbv zeta. by case_bool_decide. Qed.

Lemma perform_check t key self :
  perform t (DoCheck key) self
  = ((check_rate_limit t key self).1, Checked (check_rate_limit t key self).2).
Proof. simpl. by destruct (check_rate_limit t key self). Qed.

Lemma perform_remaining t key self :
  perform t (DoRemaining key) self
  = ((get_remaining_requests t key self).1, Remains (get_remaining_requests t key self).2).
Proof. simpl. by destruct (get_remaining_requests t key self). Qed.

Lemma perform_config t op self :
  rate_limit (perform t op self).1 = rate_limit self
  ∧ time_window (perform t op self).1 = time_window self.
Proof.
  destruct op as [key|key|].
  - rewrite perform_check. apply check_rate_limit_config.
  - rewrite perform_remaining. apply get_remaining_requests_config.
  - done.
Qed.

Lemma perform_all_config schedule : ∀ self,
  rate_limit (perform_all schedule self).1 = rate_limit self
  ∧ time_window (perform_all schedule self).1 = time_window self.
Proof.
  induction schedule as [|[t op] rest IH]; intros self; [done|].
  rewrite perform_all_cons. cbn [fst].
  destruct (IH (perform t op self).1) as [-> ->]. apply perform_config.
Qed.

(** What the sweep leaves of the list of a key, present or not. *)
Lemma stored_periodic_cleanup now self k :
  stored (requests (periodic_cleanup now self)) k
  = newer_than (now - time_window self) (stored (requests self) k).
Proof.
  unfold stored. rewrite periodic_cleanup_lookup.
  destruct (requests self !! k) as [l|]; simpl; [|done].
  unfold kept. by destruct (newer_than _ l).
Qed.

Lemma newer_than_app c l1 l2 : newer_than c (l1 ++ l2) = newer_than c l1 ++ newer_than c l2.
Proof. unfold newer_than. apply filter_app. Qed.

Lemma length_filter_mono {A} (P Q : A → Prop) `{∀ x, Decision (P x)} `{∀ x, Decision (Q x)}
    (l : list A) :
  (∀ x, x ∈ l → P x → Q x) → (length (filter P l) ≤ length (filter Q l))%nat.
Proof.
  induction l as [|x l IH]; intros HPQ; [done|].
  rewrite !filter_cons.
  assert (IH' : (length (filter P l) ≤ length (filter Q l))%nat).
  { apply IH. intros y Hy. apply HPQ. by right. }
  destruct (decide (P x)) as [HP|], (decide (Q x)) as [|HQ]; simpl; try lia.
  exfalso. apply HQ, HPQ; [by left|done].
Qed.

Lemma length_newer_than_mono c c' l :
  c ≤ c' → (length (newer_than c' l) ≤ length (newer_than c l))%nat.
Proof. intros Hc. unfold newer_than. apply length_filter_mono. intros. lia. Qed.

(** The timestamp that an operation records for [key]: the clock reading of
    a successful check of that key, and nothing otherwise. *)
Definition admitted_now (key : string) (t : Z) (op : operation) (o : observation)
  : list Z :=
  match op, o with
  | DoCheck k, Checked (Return _) => if decide (k = key) then [t] else []
  | _, _ => []
  end.

(** The clock readings of the successful checks of [key] along a schedule,
    in the order of the schedule. *)
Fixpoint admissions (key : string) (schedule : list (Z * operation))
    (observations : list observation) : list Z :=
  match schedule, observations with
  | (t, op) :: rest, o :: observations' =>
      admitted_now key t op o ++ admissions key rest observations'
  | _, _ => []
  end.

(** The timestamps of [l] in the trailing window [(t - window, t]]. *)
Definition in_window (window t : Z) (l : list Z) : list Z :=
  filter (λ ts, t - window < ts ≤ t) l.

(** An operation prunes the list of a key, or leaves it alone, and a
    successful check adds its clock reading: seen through any cutoff that a
    later operation computes, the list only gains what was admitted. *)
Lemma perform_view t op self key c :
  t - time_window self ≤ c →
  newer_than c (stored (requests (perform t op self).1) key)
  = newer_than c (stored (requests self) key)
    ++ newer_than c (admitted_now key t op (perform t op self).2).
Proof.
  intros Hc. destruct op as [k|k|].
  - rewrite perform_check, check_rate_limit_unfold. cbv zeta.
    case_bool_decide; simpl; destruct (decide (k = key)) as [->|Hne].
    + rewrite stored_insert, app_nil_r. by apply newer_than_absorb.
    + by rewrite stored_insert_ne, app_nil_r.
    + rewrite stored_insert, newer_than_app. f_equal. by apply newer_than_absorb.
    + by rewrite stored_insert_ne, app_nil_r.
  - rewrite perform_remaining. simpl. rewrite app_nil_r, get_remaining_requests_state.
    rewrite stored_alter by done. destruct (decide (k = key)); [|done].
    by apply newer_than_absorb.
  - unfold perform. cbn [fst snd admitted_now].
    rewrite app_nil_r, stored_periodic_cleanup. by apply newer_than_absorb.
Qed.

(** A check is admitted only below the limit. *)
Lemma perform_admits t op self key :
  admitted_now key t op (perform t op self).2 = []
  ∨ (admitted_now key t op (perform t op self).2 = [t]
     ∧ Z.of_nat (length (newer_than (t - time_window self) (stored (requests self) key)))
       < rate_limit self).
Proof.
  destruct op as [k|k|]; [|by left..].
  rewrite perform_check, check_rate_limit_unfold. cbv zeta.
  case_bool_decide; simpl; [by left|].
  destruct (decide (k = key)) as [->|]; [|by left]. right. split; [done|lia].
Qed.

Lemma admissions_bounded key schedule : ∀ now self A,
  (∀ c, now - time_window self ≤ c →
     newer_than c (stored (requests self) key) = newer_than c A) →
  (∀ ts, ts ∈ A → ts ≤ now) →
  (∀ t, Z.of_nat (length (in_window (time_window self) t A)) ≤ Z.max 0 (rate_limit self)) →
  clock_monotone now schedule →
  ∀ t, Z.of_nat (length (in_window (time_window self) t
                           (A ++ admissions key schedule (perform_all schedule self).2)))
       ≤ Z.max 0 (rate_limit self).
Proof.
  induction schedule as [|[t' op] rest IH]; intros now self A Hview Hpast Hbound Hmono t.
  - simpl. by rewrite app_nil_r.
  - destruct Hmono as [Ht' Hrest]. rewrite perform_all_cons. cbn [snd admissions].
    destruct (perform_config t' op self) as [El Ew].
    rewrite app_assoc, <- El, <- Ew.
    pose proof (perform_view t' op self key) as Hstep.
    apply (IH t'); [| | |exact Hrest]; rewrite ?El, ?Ew.
    + intros c Hc. rewrite Hstep by done. rewrite newer_than_app. f_equal.
      apply Hview. lia.
    + intros ts [Hts|Hts]%elem_of_app; [apply Hpast in Hts; lia|].
      destruct (perform_admits t' op self key) as [E|[E _]]; rewrite E in Hts.
      * by apply elem_of_nil in Hts.
      * apply list_elem_of_singleton in Hts. lia.
    + intros t1. destruct (perform_admits t' op self key) as [E|[E Hlt]]; rewrite E.
      * rewrite app_nil_r. apply Hbound.
      * pose proof (Hbound t1) as Hb1. unfold in_window in *.
        rewrite filter_app, length_app, filter_cons, filter_nil.
        destruct (decide (t1 - time_window self < t' ≤ t1)) as [Hin|_]; simpl;
          [|rewrite Nat.add_0_r; exact Hb1].
        rewrite Hview in Hlt by lia.
        pose proof (length_filter_mono (λ ts, t1 - time_window self < ts ≤ t1)
                      (λ ts, t' - time_window self < ts) A ltac:(intros; simpl in *; lia)) as Hle.
        unfold newer_than in Hlt. lia.
Qed.

(** X1. The limiter admits at most [rate_limit] requests of a key in any
    trailing window [(t - time_window, t]], along every schedule of checks,
    queries and sweeps whose clock does not run backwards. *)
Theorem at_most_rate_limit_admissions_per_window (limit window t0 : Z)
    (schedule : list (Z * operation)) (key : string) (t : Z) :
  clock_monotone t0 schedule →
  Z.of_nat (length (in_window window t
     (admissions key schedule (perform_all schedule (init limit window)).2)))
  ≤ Z.max 0 limit.
Proof.
  intros Hmono.
  apply (admissions_bounded key schedule t0 (init limit window) []); [done| | |done].
  - intros ts Hts. by apply elem_of_nil in Hts.
  - intros t1. unfold in_window. rewrite filter_nil. simpl. lia.
Qed.

Lemma at_most_rate_limit_admissions_per_window_witness :
  let schedule := [(0, DoCheck "a"); (1, DoCheck "a"); (2, DoCheck "a"); (3, DoSweep);
                   (60, DoCheck "a"); (61, DoCheck "a"); (61, DoCheck "a")] in
  admissions "a" schedule (perform_all schedule (init 2 60)).2 = [0; 1; 60; 61]
  ∧ Z.of_nat (length (in_window 60 61
       (admissions "a" schedule (perform_all schedule (init 2 60)).2))) ≤ Z.max 0 2.
Proof.
  split; [vm_compute; reflexivity|].
  apply (at_most_rate_limit_admissions_per_window 2 60 0). simpl. lia.
Defined.

(** *** The size of what is stored *)

Definition bounded (self : RateLimiter) : Prop :=
  ∀ k l, requests self !! k = Some l → Z.of_nat (length l) ≤ Z.max 0 (rate_limit self).

Lemma length_newer_than c l : (length (newer_than c l) ≤ length l)%nat.
Proof. unfold newer_than. apply length_filter. Qed.

Lemma perform_bounded t op self : bounded self → bounded (perform t op self).1.
Proof.
  intros Hb k l. destruct (perform_config t op self) as [El _].
  rewrite El. clear El. destruct op as [key|key|].
  - rewrite perform_check, check_rate_limit_unfold. cbv zeta.
    assert (Hother : key ≠ k → requests self !! k = Some l →
                     Z.of_nat (length l) ≤ Z.max 0 (rate_limit self)) by (intros _; apply Hb).
    case_bool_decide as Hlim; simpl; intros [[<- <-]|[Hne Hl]]%lookup_insert_Some;
      try (by apply Hother).
    + pose proof (length_newer_than (t - time_window self) (stored (requests self) key)).
      unfold stored in *. destruct (requests self !! key) as [l0|] eqn:E; simpl in *; [|lia].
      specialize (Hb _ _ E). lia.
    + rewrite length_app. simpl. lia.
  - rewrite perform_remaining. simpl. rewrite get_remaining_requests_state.
    destruct (decide (key = k)) as [<-|Hne].
    + rewrite lookup_alter_eq. destruct (requests self !! key) as [l0|] eqn:E; [|done].
      simpl. intros [= <-]. specialize (Hb _ _ E).
      pose proof (length_newer_than (t - time_window self) l0). lia.
    + rewrite lookup_alter_ne by done. apply Hb.
  - unfold perform. cbn [fst]. rewrite periodic_cleanup_lookup.
    destruct (requests self !! k) as [l0|] eqn:E; [|done]. simpl.
    intros [-> _]%kept_Some. specialize (Hb _ _ E).
    pose proof (length_newer_than (t - time_window self) l0). lia.
Qed.

Lemma perform_all_bounded schedule : ∀ self,
  bounded self → bounded (perform_all schedule self).1.
Proof.
  induction schedule as [|[t op] rest IH]; intros self Hb; [done|].
  rewrite perform_all_cons. cbn [fst]. by apply IH, perform_bounded.
Qed.

(** X2. Whatever is asked of a limiter, and in whatever order of clock
    readings, it never holds more than [rate_limit] timestamps for a key. *)
Theorem never_more_than_rate_limit_stored (limit window : Z)
    (schedule : list (Z * operation)) (key : string) (l : list Z) :
  requests (perform_all schedule (init limit window)).1 !! key = Some l →
  Z.of_nat (length l) ≤ Z.max 0 limit.
Proof.
  intros Hl.
  assert (Hb : bounded (perform_all schedule (init limit window)).1).
  { apply perform_all_bounded. intros k l0 H. simpl in H. by rewrite lookup_empty in H. }
  destruct (perform_all_config schedule (init limit window)) as [El _].
  specialize (Hb key l Hl). by rewrite El in Hb.
Qed.

Lemma never_more_than_rate_limit_stored_witness :
  let schedule := [(5, DoCheck "a"); (3, DoCheck "a"); (4, DoCheck "a"); (9, DoCheck "b")] in
  requests (perform_all schedule (init 2 60)).1 !! "a" = Some [5; 3]
  ∧ Z.of_nat (length [5; 3]) ≤ Z.max 0 2.
Proof.
  assert (H : requests (perform_all [(5, DoCheck "a"); (3, DoCheck "a"); (4, DoCheck "a");
                                     (9, DoCheck "b")] (init 2 60)).1 !! "a" = Some [5; 3])
    by (vm_compute; reflexivity).
  split; [exact H|]. exact (never_more_than_rate_limit_stored 2 60 _ "a" _ H).
Defined.

(** *** A check and the count of what remains *)

(** X3. At one clock reading, a check is admitted exactly when
    [get_remaining_requests] answers a positive number; with a window of
    positive length an admitted check lowers that number by one, and a
    refused check leaves nothing remaining. *)
Theorem check_succeeds_iff_requests_remain (now : Z) (key : string) (self : RateLimiter) :
  0 < time_window self →
  ((check_rate_limit now key self).2 = Return ()
   ↔ 0 < (get_remaining_requests now key self).2)
  ∧ ((check_rate_limit now key self).2 = Return () →
     (get_remaining_requests now key (check_rate_limit now key self).1).2
     = (get_remaining_requests now key self).2 - 1)
  ∧ ((check_rate_limit now key self).2 ≠ Return () →
     (get_remaining_requests now key (check_rate_limit now key self).1).2 = 0).
Proof.
  intros Hw. rewrite !get_remaining_requests_value.
  destruct (check_rate_limit_config now key self) as [El Ew]. rewrite El, Ew. clear El Ew.
  rewrite check_rate_limit_unfold. cbv zeta.
  assert (Hst : match requests self !! key with
                | Some l => Z.max 0 (rate_limit self
                              - Z.of_nat (length (newer_than (now - time_window self) l)))
                | None => rate_limit self
                end
                = match requests self !! key with
                  | Some _ => Z.max 0 (rate_limit self - Z.of_nat (length
                         (newer_than (now - time_window self) (stored (requests self) key))))
                  | None => rate_limit self
                  end).
  { unfold stored. by destruct (requests self !! key). }
  rewrite Hst. clear Hst.
  set (pruned := newer_than (now - time_window self) (stored (requests self) key)).
  assert (Hnone : requests self !! key = None → pruned = []).
  { intros E. unfold pruned, stored. by rewrite E. }
  case_bool_decide as Hlim; simpl; rewrite lookup_insert_eq.
  - split; [|split]; [|done|intros _].
    + split; [done|]. destruct (requests self !! key); [lia|].
      rewrite Hnone in Hlim by done. simpl in Hlim. lia.
    + unfold pruned. rewrite newer_than_idemp. fold pruned. lia.
  - split; [|split]; [|intros _|done].
    + split; [intros _|done]. destruct (requests self !! key); lia.
    + rewrite newer_than_app. unfold pruned at 1. rewrite newer_than_idemp. fold pruned.
      unfold newer_than at 1. rewrite filter_cons, filter_nil.
      destruct (decide (now - time_window self < now)) as [_|]; [|lia].
      rewrite length_app. simpl.
      destruct (requests self !! key); [lia|].
      rewrite Hnone by done. simpl. lia.
Qed.

Lemma check_succeeds_iff_requests_remain_witness :
  (get_remaining_requests 7 "a" (init 2 60)).2 = 2
  ∧ (get_remaining_requests 7 "a" (check_rate_limit 7 "a" (init 2 60)).1).2 = 2 - 1.
Proof.
  destruct (check_succeeds_iff_requests_remain 7 "a" (init 2 60)) as (H1 & H2 & _);
    [simpl; lia|].
  split; [reflexivity|]. apply H2. apply H1. vm_compute. reflexivity.
Defined.

(** *** The keys do not interfere *)

Definition concerns (key : string) (op : operation) : bool :=
  match op with
  | DoCheck k | DoRemaining k => bool_decide (k = key)
  | DoSweep => false
  end.

(** The operations of a schedule on [key], and what they observed. *)
Fixpoint only (key : string) (schedule : list (Z * operation)) : list (Z * operation) :=
  match schedule with
  | [] => []
  | (t, op) :: rest => if concerns key op then (t, op) :: only key rest else only key rest
  end.

Fixpoint observed (key : string) (schedule : list (Z * operation))
    (observations : list observation) : list observation :=
  match schedule, observations with
  | (t, op) :: rest, o :: observations' =>
      if concerns key op then o :: observed key rest observations'
      else observed key rest observations'
  | _, _ => []
  end.

(** Two limiters that no later operation on [key] can tell apart. *)
Definition same_key_view (t : Z) (key : string) (a b : RateLimiter) : Prop :=
  rate_limit a = rate_limit b
  ∧ time_window a = time_window b
  ∧ ∀ c, t - time_window a ≤ c →
      newer_than c (stored (requests a) key) = newer_than c (stored (requests b) key).

Lemma admitted_now_elsewhere key t op o : concerns key op = false → admitted_now key t op o = [].
Proof.
  destruct op as [k|k|]; simpl; try done.
  intros Hk%bool_decide_eq_false. destruct o as [[]| |]; try done.
  by destruct (decide (k = key)).
Qed.

Lemma same_key_view_skip t t' key op a b :
  same_key_view t key a b → t ≤ t' → concerns key op = false →
  same_key_view t' key (perform t' op a).1 b.
Proof.
  intros (Hl & Hw & Hv) Ht Hop. destruct (perform_config t' op a) as [El Ew].
  split; [congruence|]. split; [congruence|]. rewrite Ew. intros c Hc.
  rewrite perform_view by done. rewrite admitted_now_elsewhere by done.
  rewrite app_nil_r. apply Hv. lia.
Qed.

Lemma same_key_view_perform t t' key op a b :
  same_key_view t key a b → 0 ≤ rate_limit a → t ≤ t' → concerns key op = true →
  (perform t' op a).2 = (perform t' op b).2
  ∧ same_key_view t' key (perform t' op a).1 (perform t' op b).1.
Proof.
  intros (Hl & Hw & Hv) Hpos Ht Hop.
  assert (Hobs : (perform t' op a).2 = (perform t' op b).2).
  { pose proof (Hv (t' - time_window a) ltac:(lia)) as Hp.
    destruct op as [k|k|]; simpl in Hop; [| |done];
      apply bool_decide_eq_true in Hop as ->.
    - rewrite !perform_check, !check_rate_limit_unfold. cbv zeta.
      rewrite <- Hl, <- Hw, <- Hp. by case_bool_decide.
    - rewrite !perform_remaining. cbn [snd]. f_equal.
      rewrite !get_remaining_requests_value, <- Hl, <- Hw.
      unfold stored in Hp.
      destruct (requests a !! key), (requests b !! key); simpl in Hp.
      + by rewrite Hp.
      + rewrite Hp. change (newer_than (t' - time_window a) []) with (@nil Z). simpl. lia.
      + rewrite <- Hp. change (newer_than (t' - time_window a) []) with (@nil Z). simpl. lia.
      + done. }
  split; [done|].
  destruct (perform_config t' op a) as [El Ew], (perform_config t' op b) as [El' Ew'].
  split; [congruence|]. split; [congruence|]. rewrite Ew. intros c Hc.
  rewrite !perform_view by (rewrite <- ?Hw; done). rewrite Hobs. f_equal. apply Hv. lia.
Qed.

Lemma observed_only key schedule : ∀ t a b,
  same_key_view t key a b → 0 ≤ rate_limit a → clock_monotone t schedule →
  observed key schedule (perform_all schedule a).2 = (perform_all (only key schedule) b).2.
Proof.
  induction schedule as [|[t' op] rest IH]; intros t a b Hab Hpos Hmono; [done|].
  destruct Hmono as [Ht Hrest]. rewrite perform_all_cons. cbn [snd observed only].
  destruct (concerns key op) eqn:Hop.
  - destruct (same_key_view_perform t t' key op a b Hab Hpos Ht Hop) as [Hobs Hab'].
    rewrite perform_all_cons. cbn [snd]. rewrite Hobs. f_equal.
    apply (IH t'); [done| |done]. by destruct (perform_config t' op a) as [-> _].
  - apply (IH t'); [|by destruct (perform_config t' op a) as [-> _]|done].
    by apply (same_key_view_skip t).
Qed.

(** X4. What the operations on a key observe does not depend on the operations
    on other keys, nor on the sweeps, that happen in between: it is what
    they would observe if they were the only operations.  The limit must
    not be negative, and the clock must not run backwards. *)
Theorem other_keys_and_sweeps_unobservable (t0 : Z) (schedule : list (Z * operation))
    (key : string) (self : RateLimiter) :
  0 ≤ rate_limit self → clock_monotone t0 schedule →
  observed key schedule (perform_all schedule self).2
  = (perform_all (only key schedule) self).2.
Proof.
  intros Hpos Hmono. apply (observed_only key schedule t0); [|done..].
  by repeat split.
Qed.

Lemma other_keys_and_sweeps_unobservable_witness :
  let schedule := [(0, DoCheck "a"); (1, DoCheck "b"); (2, DoCheck "a"); (70, DoSweep);
                   (71, DoRemaining "b"); (72, DoCheck "a"); (73, DoRemaining "a")] in
  observed "a" schedule (perform_all schedule (init 2 60)).2
  = (perform_all [(0, DoCheck "a"); (2, DoCheck "a"); (72, DoCheck "a");
                  (73, DoRemaining "a")] (init 2 60)).2.
Proof.
  apply (other_keys_and_sweeps_unobservable 0); simpl; lia.
Defined.

(** *** Recovery *)

(** The clock reading of the last operation of a schedule that starts at
    [t0]. *)
Fixpoint last_time (t0 : Z) (schedule : list (Z * operation)) : Z :=
  match schedule with
  | [] => t0
  | (t, _) :: rest => last_time t rest
  end.

Lemma elem_of_stored_perform t op self key ts :
  ts ∈ stored (requests (perform t op self).1) key →
  ts ∈ stored (requests self) key ∨ ts = t.
Proof.
  destruct op as [k|k|].
  - rewrite perform_check, check_rate_limit_unfold. cbv zeta.
    case_bool_decide; simpl; (destruct (decide (k = key)) as [->|Hne];
      [rewrite stored_insert|rewrite stored_insert_ne by done; by left]).
    + intros [_ ?]%elem_of_newer_than. by left.
    + intros [[_ ?]%elem_of_newer_than| ->%list_elem_of_singleton]%elem_of_app;
        [by left|by right].
  - rewrite perform_remaining. simpl. rewrite get_remaining_requests_state.
    rewrite stored_alter by done. destruct (decide (k = key)); [|by left].
    intros [_ ?]%elem_of_newer_than. by left.
  - unfold perform. cbn [fst]. rewrite stored_periodic_cleanup.
    intros [_ ?]%elem_of_newer_than. by left.
Qed.

Lemma stored_before_last_time key schedule : ∀ t0 self,
  (∀ ts, ts ∈ stored (requests self) key → ts ≤ t0) →
  clock_monotone t0 schedule →
  ∀ ts, ts ∈ stored (requests (perform_all schedule self).1) key →
        ts ≤ last_time t0 schedule.
Proof.
  induction schedule as [|[t op] rest IH]; intros t0 self Hpast Hmono; [done|].
  destruct Hmono as [Ht Hrest]. rewrite perform_all_cons. cbn [fst last_time].
  apply IH; [|done]. intros ts [Hts| ->]%elem_of_stored_perform; [|lia].
  apply Hpast in Hts. lia.
Qed.

(** X5. One window after the last operation the whole quota of every key is
    available again: a check is admitted, and [get_remaining_requests]
    answers [rate_limit]. *)
Theorem quota_recovers_after_a_quiet_window (limit window t0 : Z)
    (schedule : list (Z * operation)) (key : string) (now : Z) :
  clock_monotone t0 schedule → 0 < limit →
  last_time t0 schedule + window ≤ now →
  (check_rate_limit now key (perform_all schedule (init limit window)).1).2 = Return ()
  ∧ (get_remaining_requests now key (perform_all schedule (init limit window)).1).2 = limit.
Proof.
  intros Hmono Hpos Hquiet.
  destruct (perform_all_config schedule (init limit window)) as [El Ew].
  set (self := (perform_all schedule (init limit window)).1) in *.
  simpl in El, Ew.
  assert (Hnone : newer_than (now - time_window self) (stored (requests self) key) = []).
  { apply newer_than_none. intros ts Hts.
    apply (stored_before_last_time key schedule t0) in Hts; [lia| |done].
    intros ts'. unfold stored. simpl. rewrite lookup_empty. simpl.
    intros H. by apply elem_of_nil in H. }
  split.
  - rewrite check_rate_limit_unfold. cbv zeta. rewrite Hnone. simpl.
    rewrite bool_decide_false by lia. done.
  - rewrite get_remaining_requests_value. unfold stored in Hnone.
    destruct (requests self !! key); simpl in Hnone; [|done].
    rewrite Hnone. simpl. lia.
Qed.

Lemma quota_recovers_after_a_quiet_window_witness :
  let schedule := [(0, DoCheck "a"); (1, DoCheck "a"); (2, DoCheck "a")] in
  (perform_all schedule (init 2 60)).2
  = [Checked (Return ()); Checked (Return ()); Checked (RateLimitExceeded 2 60)]
  ∧ (check_rate_limit 62 "a" (perform_all schedule (init 2 60)).1).2 = Return ()
  ∧ (get_remaining_requests 62 "a" (perform_all schedule (init 2 60)).1).2 = 2.
Proof.
  split; [vm_compute; reflexivity|].
  apply (quota_recovers_after_a_quiet_window 2 60 0); simpl; lia.
Defined.

End AdmissionProofs.

(** ** Proofs: [SlidingWindow] *)

Module SlidingWindowProofs.
Import RateLimiter RateLimiterProofs AdmissionProofs.

Lemma filter_ext_elem_of {A} (P Q : A → Prop) `{∀ x, Decision (P x)} `{∀ x, Decision (Q x)}
    (l : list A) :
  (∀ x, x ∈ l → P x ↔ Q x) → filter P l = filter Q l.
Proof.
  induction l as [|x l IH]; intros HPQ; [done|].
  rewrite !filter_cons, IH by (intros y Hy; apply HPQ; by right).
  destruct (decide (P x)) as [HP|HP], (decide (Q x)) as [HQ|HQ]; try done.
  - exfalso. apply HQ, HPQ; [by left|done].
  - exfalso. apply HP, HPQ; [by left|done].
Qed.

Lemma filter_all {A} (P : A → Prop) `{∀ x, Decision (P x)} (l : list A) :
  (∀ x, x ∈ l → P x) → filter P l = l.
Proof.
  induction l as [|x l IH]; intros HP; [done|].
  rewrite filter_cons_True by (apply HP; by left). f_equal.
  apply IH. intros y Hy. apply HP. by right.
Qed.

Lemma StronglySorted_filter {A} (R : relation A) (P : A → Prop) `{∀ x, Decision (P x)}
    (l : list A) :
  StronglySorted R l → StronglySorted R (filter P l).
Proof.
  induction 1 as [|x l Hs IH Hall]; [constructor|].
  rewrite filter_cons. destruct (decide (P x)); [|done].
  constructor; [done|]. rewrite Forall_forall in *.
  intros y [_ Hy]%list_elem_of_filter. by apply Hall.
Qed.

(** The loop pops a prefix of stale timestamps and stops at the first
    timestamp that is not stale. *)
Lemma popleft_while_old_prefix now w l :
  ∃ popped, l = popped ++ SlidingWindow.popleft_while_old now w l
    ∧ Forall (λ ts, w < now - ts) popped
    ∧ (∀ ts, head (SlidingWindow.popleft_while_old now w l) = Some ts → now - ts ≤ w).
Proof.
  induction l as [|ts l (popped & E & Hold & Hhead)]; simpl.
  - exists []. by repeat split.
  - case_bool_decide as Hts.
    + exists (ts :: popped). split; [simpl; by f_equal|]. split; [by constructor|done].
    + exists []. split; [done|]. split; [constructor|]. simpl. intros ? [= <-]. lia.
Qed.

Lemma popleft_while_old_sorted now w l :
  StronglySorted Z.le l →
  SlidingWindow.popleft_while_old now w l = filter (λ ts, now - ts ≤ w) l.
Proof.
  induction l as [|ts l IH]; intros Hs; [done|].
  apply StronglySorted_cons in Hs as [Hall Hs]. simpl.
  rewrite filter_cons. case_bool_decide as Hold.
  - destruct (decide (now - ts ≤ w)); [lia|]. by apply IH.
  - destruct (decide (now - ts ≤ w)); [|lia]. f_equal.
    symmetry. apply filter_all. rewrite Forall_forall in Hall.
    intros x Hx. specialize (Hall x Hx). lia.
Qed.

(** X6. [_cleanup_old_requests] removes timestamps from the left end only, all
    of them older than [window_size], and stops at the first one that is
    not; on a deque in ascending order, which is what [try_acquire] builds
    when the clock does not run backwards, what is left is exactly the
    timestamps of the closed window [[now - window_size, now]]. *)
Theorem cleanup_old_requests_keeps_the_window (now : Z)
    (self : SlidingWindow.SlidingWindow) :
  (∃ popped,
     SlidingWindow.requests self
     = popped ++ SlidingWindow.requests (SlidingWindow._cleanup_old_requests now self)
     ∧ Forall (λ ts, SlidingWindow.window_size self < now - ts) popped)
  ∧ (Sorted Z.le (SlidingWindow.requests self) →
     SlidingWindow.requests (SlidingWindow._cleanup_old_requests now self)
     = filter (λ ts, now - ts ≤ SlidingWindow.window_size self)
         (SlidingWindow.requests self)).
Proof.
  split.
  - destruct (popleft_while_old_prefix now (SlidingWindow.window_size self)
                (SlidingWindow.requests self)) as (popped & E & Hold & _).
    by exists popped.
  - intros Hs. apply popleft_while_old_sorted.
    apply Sorted.Sorted_StronglySorted; [|done]. intros x y z ??. lia.
Qed.

Lemma cleanup_old_requests_keeps_the_window_witness :
  SlidingWindow.requests
    (SlidingWindow._cleanup_old_requests 100 (SlidingWindow.mkSlidingWindow 60 5 [10; 40; 70]))
  = [40; 70]
  ∧ SlidingWindow.requests
      (SlidingWindow._cleanup_old_requests 100 (SlidingWindow.mkSlidingWindow 60 5 [70; 10]))
    = [70; 10].
Proof.
  split; [|reflexivity].
  destruct (cleanup_old_requests_keeps_the_window 100
              (SlidingWindow.mkSlidingWindow 60 5 [10; 40; 70])) as [_ H].
  rewrite H; [reflexivity|]. simpl. repeat constructor; lia.
Defined.

Lemma try_acquire_all_cons now rest self :
  SlidingWindow.try_acquire_all (now :: rest) self
  = ((SlidingWindow.try_acquire_all rest (SlidingWindow.try_acquire now self).1).1,
     (SlidingWindow.try_acquire now self).2
       :: (SlidingWindow.try_acquire_all rest (SlidingWindow.try_acquire now self).1).2).
Proof.
  simpl. destruct (SlidingWindow.try_acquire now self) as [s1 b]. simpl.
  by destruct (SlidingWindow.try_acquire_all rest s1).
Qed.

(** Whether a check was admitted. *)
Definition admitted (o : observation) : bool :=
  match o with
  | Checked (Return _) => true
  | _ => false
  end.

(** The checks of one key at the given clock readings. *)
Definition checks (key : string) (clock : list Z) : list (Z * operation) :=
  (λ t, (t, DoCheck key)) <$> clock.

Lemma try_acquire_all_agrees key clock : ∀ now sw rl,
  SlidingWindow.window_size sw = time_window rl →
  SlidingWindow.max_requests sw = rate_limit rl →
  SlidingWindow.requests sw = stored (requests rl) key →
  StronglySorted Z.le (SlidingWindow.requests sw) →
  (∀ ts, ts ∈ SlidingWindow.requests sw → ts ≤ now) →
  clock_monotone now (checks key clock) →
  (∀ ts t, ts ∈ SlidingWindow.requests sw ++ clock → t ∈ clock →
     t - ts ≠ time_window rl) →
  (SlidingWindow.try_acquire_all clock sw).2
  = admitted <$> (perform_all (checks key clock) rl).2.
Proof.
  induction clock as [|t' rest IH]; intros now sw rl Ew El Er Hs Hpast Hmono Hedge; [done|].
  destruct Hmono as [Ht' Hrest]. unfold checks. rewrite fmap_cons. fold (checks key rest).
  rewrite try_acquire_all_cons, perform_all_cons, perform_check. cbn [fst snd].
  rewrite fmap_cons.
  assert (Hpruned : SlidingWindow.popleft_while_old t' (SlidingWindow.window_size sw)
                      (SlidingWindow.requests sw)
                    = newer_than (t' - time_window rl) (stored (requests rl) key)).
  { rewrite popleft_while_old_sorted by done. rewrite <- Er, Ew. unfold newer_than.
    apply filter_ext_elem_of. intros ts Hts.
    assert (t' - ts ≠ time_window rl).
    { apply Hedge; [apply elem_of_app; by left|by left]. }
    lia. }
  rewrite check_rate_limit_unfold. cbv zeta.
  set (pruned := newer_than (t' - time_window rl) (stored (requests rl) key)) in *.
  assert (Hpruned_sorted : StronglySorted Z.le pruned).
  { unfold pruned, newer_than. rewrite <- Er. by apply StronglySorted_filter. }
  assert (Hpruned_elem : ∀ ts, ts ∈ pruned → ts ∈ SlidingWindow.requests sw).
  { intros ts [_ Hts]%elem_of_newer_than. by rewrite Er. }
  unfold SlidingWindow.try_acquire, SlidingWindow._cleanup_old_requests. cbn [SlidingWindow.requests SlidingWindow.max_requests SlidingWindow.window_size].
  rewrite Hpruned, El.
  destruct (decide (rate_limit rl ≤ Z.of_nat (length pruned))) as [Hfull|Hfree].
  - rewrite (bool_decide_false (_ < _)) by lia. rewrite bool_decide_true by done.
    cbn [fst snd admitted]. f_equal.
    apply (IH t'); simpl; try done.
    + by rewrite stored_insert.
    + intros ts Hts%Hpruned_elem%Hpast. lia.
    + intros ts t [Hts%Hpruned_elem|Hts]%elem_of_app Ht.
      * apply Hedge; [apply elem_of_app; by left|by right].
      * apply Hedge; [apply elem_of_app; right; by right|by right].
  - rewrite (bool_decide_true (_ < _)) by lia. rewrite bool_decide_false by done.
    cbn [fst snd admitted]. f_equal.
    apply (IH t'); simpl; try done.
    + by rewrite stored_insert.
    + apply StronglySorted_app_2; [|done|repeat constructor].
      intros x1 x2 Hx1%Hpruned_elem%Hpast ->%list_elem_of_singleton. lia.
    + intros ts [Hts%Hpruned_elem%Hpast| ->%list_elem_of_singleton]%elem_of_app; lia.
    + intros ts t [[Hts%Hpruned_elem| ->%list_elem_of_singleton]%elem_of_app|Hts]%elem_of_app Ht.
      * apply Hedge; [apply elem_of_app; by left|by right].
      * apply Hedge; [apply elem_of_app; right; by left|by right].
      * apply Hedge; [apply elem_of_app; right; by right|by right].
Qed.

(** X7. A [SlidingWindow] and a [RateLimiter] with the same window and the same
    limit give the same answers to the same calls, as long as the clock
    does not run backwards and no two calls are exactly one window apart.
    (At that distance they differ: [SlidingWindow] still counts a request
    that is exactly [window_size] old, [RateLimiter] does not.) *)
Theorem try_acquire_agrees_with_check_rate_limit (window limit t0 : Z) (key : string)
    (clock : list Z) :
  clock_monotone t0 (checks key clock) →
  (∀ t t', t ∈ clock → t' ∈ clock → t' - t ≠ window) →
  (SlidingWindow.try_acquire_all clock (SlidingWindow.init window limit)).2
  = admitted <$> (perform_all (checks key clock) (init limit window)).2.
Proof.
  intros Hmono Hedge.
  apply (try_acquire_all_agrees key clock t0); simpl; try done.
  - constructor.
  - intros ts Hts. by apply elem_of_nil in Hts.
Qed.

Lemma try_acquire_agrees_with_check_rate_limit_witness :
  (SlidingWindow.try_acquire_all [0; 1; 2; 63; 64] (SlidingWindow.init 60 2)).2
  = admitted <$> (perform_all (checks "a" [0; 1; 2; 63; 64]) (init 2 60)).2
  ∧ (SlidingWindow.try_acquire_all [0; 1; 60] (SlidingWindow.init 60 2)).2
    ≠ admitted <$> (perform_all (checks "a" [0; 1; 60]) (init 2 60)).2.
Proof.
  split; [|vm_compute; discriminate].
  apply (try_acquire_agrees_with_check_rate_limit 60 2 0).
  - simpl. lia.
  - intros t t' Ht Ht'.
    repeat (apply elem_of_cons in Ht as [->|Ht]); [..|by apply elem_of_nil in Ht];
    repeat (apply elem_of_cons in Ht' as [->|Ht']); try (by apply elem_of_nil in Ht'); lia.
Defined.

End SlidingWindowProofs.

(** ** Proofs: [rate_limit_middleware] *)

Module MiddlewareProofs.
Import RateLimiter RateLimiterProofs AdmissionProofs Middleware.

Fixpoint has_char (c : Ascii.ascii) (s : string) : bool :=
  match s with
  | EmptyString => false
  | String c' s' => bool_decide (c' = c) || has_char c s'
  end.

(** The path starts with a slash. *)
Definition rooted (path : string) : bool :=
  match path with
  | String c _ => bool_decide (c = "/"%char)
  | EmptyString => false
  end.

(** A request as the server builds it: no slash in the address of the
    client, and a path that starts with one. *)
Definition well_formed (request : Request) : Prop :=
  has_char "/"%char (client_ip request) = false ∧ rooted (path request) = true.

Lemma append_nil s : "" +:+ s = s.
Proof. reflexivity. Qed.

Lemma append_cons c s1 s2 : String c s1 +:+ s2 = String c (s1 +:+ s2).
Proof. reflexivity. Qed.

Lemma has_char_cons c c' s :
  has_char c (String c' s) = false ↔ c' ≠ c ∧ has_char c s = false.
Proof. simpl. rewrite orb_false_iff, bool_decide_eq_false. done. Qed.

Lemma rooted_cons c s : rooted (String c s) = true ↔ c = "/"%char.
Proof. simpl. by rewrite bool_decide_eq_true. Qed.

(** A string that starts with a colon or with a piece without slash does
    not start with a slash. *)
Lemma key_inj h1 : ∀ h2 p1 p2,
  has_char "/"%char h1 = false → has_char "/"%char h2 = false →
  rooted p1 = true → rooted p2 = true →
  h1 +:+ ":" +:+ p1 = h2 +:+ ":" +:+ p2 → h1 = h2 ∧ p1 = p2.
Proof.
  induction h1 as [|c h1 IH]; intros [|c2 h2] p1 p2 H1 H2 R1 R2 E;
    repeat (rewrite append_nil in E || rewrite append_cons in E).
  - by simplify_eq.
  - injection E as <- ->. exfalso. destruct h2 as [|c3 h2];
      repeat (rewrite append_nil in R1 || rewrite append_cons in R1);
      apply rooted_cons in R1; [done|subst c3].
    apply has_char_cons in H2 as [_ H2]. by apply has_char_cons in H2 as [H2 _].
  - injection E as -> <-. exfalso. destruct h1 as [|c3 h1];
      repeat (rewrite append_nil in R2 || rewrite append_cons in R2);
      apply rooted_cons in R2; [done|subst c3].
    apply has_char_cons in H1 as [_ H1]. by apply has_char_cons in H1 as [H1 _].
  - injection E as -> E. apply has_char_cons in H1 as [_ H1].
    apply has_char_cons in H2 as [_ H2].
    destruct (IH h2 p1 p2) as [-> ->]; done.
Qed.

(** X8. Two requests are counted against the same key exactly when they come
    from the same client address and ask for the same path. *)
Theorem same_key_iff_same_client_and_path (r1 r2 : Request) :
  well_formed r1 → well_formed r2 →
  key_of r1 = key_of r2 ↔ client_ip r1 = client_ip r2 ∧ path r1 = path r2.
Proof.
  intros [H1 R1] [H2 R2]. unfold key_of. split.
  - by apply key_inj.
  - by intros [-> ->].
Qed.

Lemma same_key_iff_same_client_and_path_witness :
  key_of (mkRequest (Some "10.0.0.1") "/conversations")
  ≠ key_of (mkRequest None "/conversations")
  ∧ key_of (mkRequest (Some "a:b") "c") = key_of (mkRequest (Some "a") "b:c").
Proof.
  split; [|reflexivity]. intros E.
  apply same_key_iff_same_client_and_path in E as [E _]; [done|split; reflexivity..].
Defined.










End MiddlewareProofs.

(** ** Proofs: what holds of the request queue along every run *)

Module RequestQueueLaws.
Import RequestQueue RequestQueueProofs.

(** *** Futures and results are final *)

Lemma step_future_final e s s' f st :
  step e s = Some s' → futures s !! f = Some st → done st = true →
  futures s' !! f = Some st.
Proof.
  intros Hstep Hf Hdone.
  destruct e; step_cases; simpl; try done.
  all: try (by apply lookup_app_l_Some).
  all: rewrite list_lookup_insert_ne; [done|]; intros E; rewrite E in *; simplify_eq/=;
    congruence.
Qed.

Lemma step_result_final e s s' i c r :
  step e s = Some s' → callers s !! i = Some c → c_pc c = C_done r →
  callers s' !! i = Some c.
Proof.
  intros Hstep Hc Hpc.
  destruct e; step_cases; simpl; try done.
  all: try (by apply lookup_app_l_Some).
  all: try (rewrite list_lookup_insert_ne; [done|]; intros ->; simplify_eq/=; congruence).
Qed.

(** X10. Whatever happens next, cancellation and [cleanup] included, a future
    that is done keeps its state, and a call of [enqueue_request] that has
    returned or raised keeps its result. *)
Theorem done_futures_and_results_are_final (es : list event) (s s' : System) :
  run es s = Some s' →
  (∀ f st, futures s !! f = Some st → done st = true → futures s' !! f = Some st)
  ∧ (∀ i c r, callers s !! i = Some c → c_pc c = C_done r → callers s' !! i = Some c).
Proof.
  revert s. induction es as [|e es IH]; intros s Hrun; simpl in Hrun.
  - by simplify_eq.
  - destruct (step e s) as [s1|] eqn:E; simpl in Hrun; [|done].
    destruct (IH _ Hrun) as [Hf Hc]. split.
    + intros f st H1 H2. apply Hf; [|done]. by apply (step_future_final e s).
    + intros i c r H1 H2. apply (Hc i c r); [|done]. by apply (step_result_final e s _ _ _ r).
Qed.

(** A run in which a future is resolved with the exception of its task,
    followed by the return of the caller, a call of [cleanup] and a
    cancellation. *)
Definition resolved_system : System :=
  default (init 1 30 0) (run (failing_schedule ++ [ProcessorRuns 0]) (init 1 30 0)).

Definition aftermath_schedule : list event :=
  [CallerRuns 0; CallCleanup; CleanupRuns 0; CancelTask 0; ProcessorRuns 0; Tick 100].

Lemma done_futures_and_results_are_final_witness :
  futures resolved_system !! 0%nat = Some (Exception (TaskException "boom"))
  ∧ ∃ s', run aftermath_schedule resolved_system = Some s'
      ∧ futures s' !! 0%nat = Some (Exception (TaskException "boom")).
Proof.
  assert (H0 : futures resolved_system !! 0%nat = Some (Exception (TaskException "boom")))
    by (vm_compute; reflexivity).
  split; [exact H0|].
  destruct (run aftermath_schedule resolved_system) as [s'|] eqn:Hrun;
    [|exfalso; clear -Hrun; vm_compute in Hrun; discriminate].
  exists s'. split; [reflexivity|].
  destruct (done_futures_and_results_are_final _ _ _ Hrun) as [Hf _].
  apply Hf; [exact H0|reflexivity].
Defined.

(** *** The three registries of a key *)

Definition registries_agree (s : System) : Prop :=
  ∀ cid, (queues s !! cid = None ↔ _sequence_counters s !! cid = None)
         ∧ (queues s !! cid = None ↔ _pending_requests s !! cid = None).

Lemma step_registries_agree e s s' :
  registries_agree s → step e s = Some s' → registries_agree s'.
Proof.
  unfold registries_agree. intros Hinv Hstep cid.
  destruct (Hinv cid) as [Hqc Hqp].
  destruct e; step_cases; simpl; try done;
    repeat match goal with
    | |- context [<[?k := _]> _ !! ?c] =>
        destruct (decide (k = c)) as [<-|?];
        [rewrite !lookup_insert_eq|rewrite !lookup_insert_ne by done]
    | |- context [delete ?k _ !! ?c] =>
        destruct (decide (k = c)) as [<-|?];
        [rewrite !lookup_delete_eq|rewrite !lookup_delete_ne by done]
    end; rewrite ?lookup_empty; try done.
  all: split; (split; [intros E|try done]); try done;
    try (apply Hqc in E; congruence); try (apply Hqp in E; congruence).
  all: by apply Hqp.
Qed.

Lemma run_registries_agree m qt now es s :
  run es (init m qt now) = Some s → registries_agree s.
Proof.
  intros Hrun. eapply (run_invariant_all registries_agree); [| |exact Hrun].
  - intros e s0 s1 H0 Hs. by apply (step_registries_agree e s0).
  - intros cid. simpl. by rewrite !lookup_empty.
Qed.

(** X11. In every state that a run reaches, cancellation and [cleanup]
    included, a key is in all of [queues], [_sequence_counters] and
    [_pending_requests] or in none of them.  So the second critical section
    of [enqueue_request] raises [KeyError] exactly when the key is no longer
    registered, its state having been removed since [_get_queue] returned;
    otherwise the call goes on to wait for a new, pending future. *)
Theorem key_registered_in_all_or_none (m : nat) (qt now : Z) (es : list event)
    (s : System) :
  run es (init m qt now) = Some s →
  (∀ cid, is_Some (queues s !! cid) ↔ is_Some (_sequence_counters s !! cid))
  ∧ (∀ cid, is_Some (queues s !! cid) ↔ is_Some (_pending_requests s !! cid))
  ∧ (∀ i c q, callers s !! i = Some c → c_pc c = C_assign q → _lock s = false →
       ∃ s', step (CallerRuns i) s = Some s'
         ∧ match queues s !! c_conversation_id c with
           | None => (c_pc <$> callers s' !! i) = Some (C_done (Raised KeyError))
           | Some _ =>
               (c_pc <$> callers s' !! i) = Some (C_wait (length (futures s)) (clock s))
               ∧ futures s' !! length (futures s) = Some Pending
           end).
Proof.
  intros Hrun. pose proof (run_registries_agree _ _ _ _ _ Hrun) as Hagree.
  assert (Hc : ∀ cid, is_Some (queues s !! cid) ↔ is_Some (_sequence_counters s !! cid)).
  { intros cid. destruct (Hagree cid) as [H1 _]. by rewrite <- !not_eq_None_Some, H1. }
  assert (Hp : ∀ cid, is_Some (queues s !! cid) ↔ is_Some (_pending_requests s !! cid)).
  { intros cid. destruct (Hagree cid) as [_ H2]. by rewrite <- !not_eq_None_Some, H2. }
  split; [done|]. split; [done|].
  intros i c q Hi Hpc Hlock. pose proof (lookup_lt_Some _ _ _ Hi) as Hlen.
  simpl. unfold enqueue_request. rewrite Hi. simpl. rewrite Hpc, Hlock.
  eexists. split; [done|]. unfold assign_and_put, finish_caller.
  specialize (Hc (c_conversation_id c)). specialize (Hp (c_conversation_id c)).
  destruct (queues s !! c_conversation_id c) as [q'|].
  - destruct Hc as [[n Hn] _]; [done|]. destruct Hp as [[d Hd] _]; [done|].
    rewrite Hn. simpl. rewrite Hd. simpl.
    rewrite list_lookup_insert_eq by done. split; [done|].
    by rewrite lookup_app_r, Nat.sub_diag.
  - destruct (_sequence_counters s !! c_conversation_id c) as [n|] eqn:Hn.
    { destruct Hc as [_ Hc]. by destruct Hc. }
    simpl. by rewrite list_lookup_insert_eq.
Qed.

(** The processor of the only key is cancelled at [queue.get()] and ends
    while a caller for the key is between its two critical sections. *)
Definition torn_down_schedule : list event :=
  [Call 7 (mkTask 5 (Returns 11)); CallerRuns 0; ProcessorRuns 0;
   CancelTask 0; ProcessorRuns 0; ProcessorRuns 0].

Definition torn_down_system : System :=
  default (init 1 30 0) (run torn_down_schedule (init 1 30 0)).

Lemma key_registered_in_all_or_none_witness :
  queues torn_down_system !! 7%N = None
  ∧ ∃ s', step (CallerRuns 0) torn_down_system = Some s'
      ∧ (c_pc <$> callers s' !! 0%nat) = Some (C_done (Raised KeyError)).
Proof.
  assert (Hrun : run torn_down_schedule (init 1 30 0) = Some torn_down_system)
    by (vm_compute; reflexivity).
  destruct (key_registered_in_all_or_none 1 30 0 _ _ Hrun) as (_ & _ & H).
  split; [vm_compute; reflexivity|].
  destruct (H 0%nat (mkCaller 7 (mkTask 5 (Returns 11)) (C_assign 0)) 0%nat)
    as (s' & Hs & Hres); [vm_compute; reflexivity|reflexivity|vm_compute; reflexivity|].
  exists s'. split; [exact Hs|].
  assert (Hq : queues torn_down_system !! 7%N = None) by (vm_compute; reflexivity).
  simpl in Hres. rewrite Hq in Hres. exact Hres.
Defined.

(** *** [active_requests] counts the [acquire] blocks *)







End RequestQueueLaws.

(** ** Proofs: every caller gets the outcome of its own task *)

Module DeliveryProofs.
Import RequestQueue RequestQueueProofs.

(** What the processor sets on the future of a request whose task is [t]. *)
Definition verdict (t : Task) (timeout : Z) : future_state :=
  outcome (wait_for t timeout).

(** What a call of [enqueue_request] with the task [t] may hand back: the
    [TimeoutError] of [enqueue_request] itself, or what the processor has
    set on the future. *)
Definition delivered (t : Task) (timeout : Z) (res : result) : Prop :=
  res = Raised (TimeoutError "Request processing timed out")
  ∨ match verdict t timeout with
    | Result v => res = Returned v
    | Exception e => res = Raised e
    | _ => False
    end.

Record delivery_inv (s : System) : Prop := DeliveryInv {
  del_allocated : ∀ r, Submitted r ∈ trace s → (future r < length (futures s))%nat;
  del_waiting : ∀ i c fut since,
    callers s !! i = Some c → c_pc c = C_wait fut since →
    (∀ r, Submitted r ∈ trace s → future r = fut → task r = c_task c)
    ∧ (futures s !! fut = Some Pending
       ∨ futures s !! fut = Some (verdict (c_task c) (queue_timeout s)));
  del_distinct : ∀ i j c c' fut since since',
    callers s !! i = Some c → c_pc c = C_wait fut since →
    callers s !! j = Some c' → c_pc c' = C_wait fut since' → i = j;
  del_done : ∀ i c res,
    callers s !! i = Some c → c_pc c = C_done res →
    delivered (c_task c) (queue_timeout s) res;
}.

Lemma init_delivery_inv m qt now : delivery_inv (init m qt now).
Proof.
  split; simpl.
  - intros r Hr. by apply elem_of_nil in Hr.
  - intros i c fut since Hi. by rewrite lookup_nil in Hi.
  - intros i j c c' fut since since' Hi. by rewrite lookup_nil in Hi.
  - intros i c res Hi. by rewrite lookup_nil in Hi.
Qed.

(** A step that leaves the callers and the futures alone and submits
    nothing. *)
Lemma delivery_inv_frame s s' :
  delivery_inv s →
  callers s' = callers s → futures s' = futures s → queue_timeout s' = queue_timeout s →
  (∀ r, Submitted r ∈ trace s' → Submitted r ∈ trace s) →
  delivery_inv s'.
Proof.
  intros [] Ec Ef Eq Htr. split; rewrite ?Ec, ?Ef, ?Eq; eauto.
  intros i c fut since Hi Hpc. destruct (del_waiting0 i c fut since Hi Hpc) as [H1 H2].
  split; [|done]. intros r Hr. apply H1. by apply Htr.
Qed.

(** A step that changes the program point of one caller, which does not
    start to wait. *)
Lemma delivery_inv_caller s s' i c pc :
  delivery_inv s → callers s !! i = Some c →
  callers s' = <[i := mkCaller (c_conversation_id c) (c_task c) pc]> (callers s) →
  (∀ fut since, pc ≠ C_wait fut since) →
  (∀ res, pc = C_done res → delivered (c_task c) (queue_timeout s) res) →
  queue_timeout s' = queue_timeout s →
  (∀ r, Submitted r ∈ trace s' → Submitted r ∈ trace s) →
  length (futures s') = length (futures s) →
  (∀ j c' fut since, j ≠ i → callers s !! j = Some c' → c_pc c' = C_wait fut since →
     futures s' !! fut = futures s !! fut) →
  delivery_inv s'.
Proof.
  intros [] Hi Ec Hpc Hres Eq Htr Hlen Hfut. split; rewrite ?Ec, ?Eq.
  - intros r Hr. rewrite Hlen. by apply del_allocated0, Htr.
  - intros j c' fut since [(-> & <- & _)|[Hne Hj]]%list_lookup_insert_Some Hpc'.
    { simpl in Hpc'. by destruct (Hpc fut since). }
    destruct (del_waiting0 j c' fut since Hj Hpc') as [H1 H2].
    split; [intros r Hr; apply H1; by apply Htr|].
    by rewrite (Hfut j c' fut since).
  - intros j1 j2 c1 c2 fut since since'
      [(-> & <- & _)|[Hne1 Hj1]]%list_lookup_insert_Some Hpc1;
      [simpl in Hpc1; by destruct (Hpc fut since)|].
    intros [(-> & <- & _)|[Hne2 Hj2]]%list_lookup_insert_Some Hpc2;
      [simpl in Hpc2; by destruct (Hpc fut since')|].
    by eapply del_distinct0.
  - intros j c' res [(-> & <- & _)|[Hne Hj]]%list_lookup_insert_Some Hpc'.
    + simpl in *. by apply Hres.
    + by eapply del_done0.
Qed.

Lemma elem_of_submitted cid tr r :
  r ∈ submitted cid tr → Submitted r ∈ tr.
Proof.
  unfold submitted. intros (a & Ha & Hr)%list_elem_of_omap.
  destruct a as [r0| |]; try done. case_bool_decide; by simplify_eq.
Qed.

Lemma submitted_in_snoc tr a r :
  Submitted r ∈ tr ++ [a] ↔ Submitted r ∈ tr ∨ a = Submitted r.
Proof.
  rewrite elem_of_app, list_elem_of_singleton.
  split; (intros [?|?]; [by left|by right]).
Qed.

(** What a step of a processor does to the futures: nothing, or it sets
    the verdict on the pending future of the request whose wait ends. *)
Lemma process_queue_futures t s s' :
  _process_queue t s = Some s' →
  callers s' = callers s ∧ queue_timeout s' = queue_timeout s
  ∧ (∀ r, Submitted r ∈ trace s' → Submitted r ∈ trace s)
  ∧ (futures s' = futures s
     ∨ ∃ p r since,
         processors s !! t = Some p ∧ p_pc p = P_run r since
         ∧ futures s !! future r = Some Pending
         ∧ futures s' = <[future r := verdict (task r) (queue_timeout s)]> (futures s)).
Proof.
  intros Hstep. unfold verdict.
  step_cases; simpl;
    (split; [done|]; split; [done|]; split;
       [intros r0; rewrite ?submitted_in_snoc; first [done|by intros [?|?]]|]);
    try (by left).
  all: right; eexists _, _, _; split; [done|]; split; [done|]; split; [|done].
  all: by destruct f.
Qed.

Lemma process_queue_delivery t s s' :
  undisturbed_inv s → delivery_inv s → _process_queue t s = Some s' → delivery_inv s'.
Proof.
  intros Hinv Hdel Hstep.
  destruct (process_queue_futures t s s' Hstep) as (Ec & Eq & Htr & [Ef|Hres]).
  { by apply (delivery_inv_frame s). }
  destruct Hres as (p & r & since & Hp & Hpc & Hpend & Ef).
  assert (Hsub : Submitted r ∈ trace s).
  { destruct (inv_processors _ Hinv _ _ Hp) as (_ & _ & c & Q & D & _ & _ & _ & Hok).
    pose proof (ok_pc _ _ _ _ _ _ _ Hok) as Hrun. rewrite Hpc in Hrun.
    destruct Hrun as (Hr & _). apply (elem_of_submitted (p_conversation_id p)).
    by eapply list_elem_of_lookup_2. }
  destruct Hdel. split; rewrite ?Ec, ?Ef, ?Eq, ?length_insert.
  - intros r0 Hr0. by apply del_allocated0, Htr.
  - intros i c fut since' Hi Hpc'.
    destruct (del_waiting0 i c fut since' Hi Hpc') as [H1 H2].
    split; [intros r0 Hr0; apply H1; by apply Htr|].
    destruct (decide (fut = future r)) as [->|Hne].
    + right. rewrite list_lookup_insert_eq by (by eapply lookup_lt_Some).
      by rewrite (H1 r).
    + by rewrite list_lookup_insert_ne.
  - done.
  - done.
Qed.

Lemma verdict_not_cancelled t timeout : verdict t timeout ≠ Cancelled.
Proof. unfold verdict, outcome. by repeat case_match. Qed.

Lemma verdict_not_pending t timeout : verdict t timeout ≠ Pending.
Proof. unfold verdict, outcome. by repeat case_match. Qed.

Lemma enqueue_request_delivery i s s' :
  undisturbed_inv s → delivery_inv s → enqueue_request i s = Some s' → delivery_inv s'.
Proof.
  intros Hinv Hdel Hstep. unfold enqueue_request in Hstep.
  destruct (callers s !! i) as [c|] eqn:Hi; simpl in Hstep; [|done].
  pose proof (lookup_lt_Some _ _ _ Hi) as Hlen.
  destruct (c_pc c) as [|q|fut since|r] eqn:Hpc; [| | |done].
  - (* [_get_queue] *)
    rewrite (inv_lock _ Hinv) in Hstep.
    assert (Hsame : callers (_get_queue (c_conversation_id c) s).1 = callers s
                    ∧ futures (_get_queue (c_conversation_id c) s).1 = futures s
                    ∧ queue_timeout (_get_queue (c_conversation_id c) s).1 = queue_timeout s
                    ∧ trace (_get_queue (c_conversation_id c) s).1 = trace s).
    { unfold _get_queue. by destruct (queues s !! c_conversation_id c). }
    destruct (_get_queue (c_conversation_id c) s) as [s1 q]. simpl in Hsame.
    destruct Hsame as (E1 & E2 & E3 & E4). apply (inj Some) in Hstep as <-.
    apply (delivery_inv_caller s _ i c (C_assign q)); simpl;
      rewrite ?E1, ?E2, ?E3, ?E4; done.
  - (* the sequence number, the future and the request *)
    rewrite (inv_lock _ Hinv) in Hstep. apply (inj Some) in Hstep as <-.
    pose proof (inv_callers _ Hinv i c q Hi Hpc) as Hq.
    destruct (inv_queues _ Hinv _ _ Hq) as (p & Hp & Hcid).
    destruct (inv_processors _ Hinv _ _ Hp) as (_ & Hd & n & Q & D & Hn & _).
    unfold assign_and_put. rewrite <- Hcid in *. rewrite Hn. simpl. rewrite Hd. simpl.
    set (r := mkQueuedRequest _ _ _ _).
    destruct Hdel. split; simpl.
    + intros r0 [Hr0|[= <-]]%submitted_in_snoc; rewrite length_app; simpl.
      * specialize (del_allocated0 r0 Hr0). lia.
      * lia.
    + intros j c' fut since [(-> & <- & _)|[Hne Hj]]%list_lookup_insert_Some Hpc'.
      * simpl in *. injection Hpc' as <- <-. split.
        -- intros r0 [Hr0|[= <-]]%submitted_in_snoc; [|done].
           intros E. specialize (del_allocated0 r0 Hr0). lia.
        -- left. by rewrite lookup_app_r, Nat.sub_diag.
      * destruct (del_waiting0 j c' fut since Hj Hpc') as [H1 H2].
        assert (Hfut : (fut < length (futures s))%nat).
        { destruct H2 as [H2|H2]; by eapply lookup_lt_Some. }
        split.
        -- intros r0 [Hr0|[= <-]]%submitted_in_snoc; [by apply H1|]. simpl. lia.
        -- by rewrite lookup_app_l.
    + intros j1 j2 c1 c2 fut since since'
        [(-> & <- & _)|[Hne1 Hj1]]%list_lookup_insert_Some Hpc1
        [(-> & <- & _)|[Hne2 Hj2]]%list_lookup_insert_Some Hpc2; simpl in *; try done.
      * injection Hpc1 as <- <-.
        destruct (del_waiting0 j2 c2 _ since' Hj2 Hpc2) as [_ [H2|H2]];
          apply lookup_lt_Some in H2; lia.
      * injection Hpc2 as <- <-.
        destruct (del_waiting0 j1 c1 _ since Hj1 Hpc1) as [_ [H2|H2]];
          apply lookup_lt_Some in H2; lia.
      * by eapply del_distinct0.
    + intros j c' res [(-> & <- & _)|[Hne Hj]]%list_lookup_insert_Some Hpc'; [done|].
      by eapply del_done0.
  - (* the end of the wait for the future *)
    destruct (del_waiting _ Hdel i c fut since Hi Hpc) as [_ Hfut].
    unfold await_future, finish_caller in Hstep.
    assert (Hother : ∀ j c' fut' since', j ≠ i → callers s !! j = Some c' →
                       c_pc c' = C_wait fut' since' → fut' ≠ fut).
    { intros j c' fut' since' Hne Hj Hpc' ->. apply Hne.
      by apply (del_distinct _ Hdel j i c' c fut since' since). }
    destruct (futures s !! fut) as [[|v|e|]|] eqn:Ef; [| | | |done].
    + case_bool_decide; [|done]. apply (inj Some) in Hstep as <-.
      eapply (delivery_inv_caller s _ i c); simpl; try done.
      * intros res [= <-]. by left.
      * by rewrite length_insert.
      * intros j c' fut' since' Hne Hj Hpc'. rewrite list_lookup_insert_ne; [done|].
        intros E. by apply (Hother j c' fut' since').
    + apply (inj Some) in Hstep as <-.
      eapply (delivery_inv_caller s _ i c); simpl; try done.
      intros res [= <-]. right. destruct Hfut as [|[= <-]]; [done|]. done.
    + apply (inj Some) in Hstep as <-.
      eapply (delivery_inv_caller s _ i c); simpl; try done.
      intros res [= <-]. right. destruct Hfut as [|[= <-]]; [done|]. done.
    + destruct Hfut as [|[= E]]; [done|]. symmetry in E. by apply verdict_not_cancelled in E.
Qed.

Lemma step_delivery_inv e s s' :
  undisturbed e = true → undisturbed_inv s → delivery_inv s → step e s = Some s' →
  delivery_inv s'.
Proof.
  intros He Hinv Hdel Hstep. destruct e; try done; simpl in Hstep.
  - apply (inj Some) in Hstep as <-. destruct Hdel. split; simpl; try done.
    + intros i c fut since [[_ Hi]|[_ <-]]%lookup_snoc_Some Hpc; [|done]. by eauto.
    + intros i j c c' fut since since' [[_ Hi]|[_ <-]]%lookup_snoc_Some Hpc; [|done].
      intros [[_ Hj]|[_ <-]]%lookup_snoc_Some Hpc'; [|done]. by eauto.
    + intros i c res [[_ Hi]|[_ <-]]%lookup_snoc_Some Hpc; [|done]. by eauto.
  - by apply (enqueue_request_delivery i s).
  - by apply (process_queue_delivery t s).
  - apply (inj Some) in Hstep as <-. by apply (delivery_inv_frame s).
  - unfold acquire in Hstep.
    destruct (acquirers s !! u) as [pc|]; simpl in Hstep; [|done].
    destruct pc; repeat case_match; try done; apply (inj Some) in Hstep as <-;
      by apply (delivery_inv_frame s).
  - apply (inj Some) in Hstep as <-. by apply (delivery_inv_frame s).
Qed.

Lemma run_delivery_inv m qt now es s :
  forallb undisturbed es = true → run es (init m qt now) = Some s → delivery_inv s.
Proof.
  intros Hes Hrun.
  assert (H : undisturbed_inv s ∧ delivery_inv s); [|by destruct H].
  eapply (run_invariant (λ s, undisturbed_inv s ∧ delivery_inv s) undisturbed);
    [|exact Hes| |exact Hrun].
  - intros e s0 s1 He [H1 H2] Hs. split.
    + by apply (step_undisturbed_inv e s0).
    + by apply (step_delivery_inv e s0).
  - split; [apply init_undisturbed_inv|apply init_delivery_inv].
Qed.

(** X13. Along a run without cancellation, a call of [enqueue_request] that is
    over has handed back the outcome of its own task and of no other: the
    value the task returned or the exception it raised, when the task
    needed no more than [queue_timeout], and [TimeoutError] otherwise; it
    may also raise [TimeoutError] because its own wait of [queue_timeout]
    ended first.  It raises neither [KeyError] nor [CancelledError]. *)
Theorem caller_gets_outcome_of_own_task (m : nat) (qt now : Z) (es : list event)
    (s : System) (i : nat) (c : Caller) (res : result) :
  forallb undisturbed es = true →
  run es (init m qt now) = Some s →
  callers s !! i = Some c → c_pc c = C_done res →
  res = Raised (TimeoutError "Request processing timed out")
  ∨ (duration (c_task c) ≤ qt
     ∧ res = match ending (c_task c) with
             | Returns v => Returned v
             | Raises msg => Raised (TaskException msg)
             end).
Proof.
  intros Hes Hrun Hi Hpc.
  pose proof (run_delivery_inv _ _ _ _ _ Hes Hrun) as Hdel.
  destruct (run_frame _ _ _ Hrun) as (_ & Hqt & _). simpl in Hqt.
  pose proof (del_done _ Hdel i c res Hi Hpc) as [Hres|Hres]; [by left|].
  rewrite Hqt in Hres. unfold verdict, outcome, wait_for in Hres.
  case_bool_decide as Hd.
  - right. split; [done|]. by destruct (ending (c_task c)).
  - by left.
Qed.

(** Two callers of one key whose tasks end in the reverse order of their
    submission. *)
Definition crossed_schedule : list event :=
  [Call 7 (mkTask 20 (Returns 1)); Call 7 (mkTask 5 (Raises "boom"));
   CallerRuns 0; CallerRuns 1; CallerRuns 0; CallerRuns 1;
   ProcessorRuns 0; ProcessorRuns 0; ProcessorRuns 0;
   Tick 20; ProcessorRuns 0; ProcessorRuns 0; Tick 5; ProcessorRuns 0;
   CallerRuns 1; CallerRuns 0].

Definition crossed_system : System :=
  default (init 2 30 0) (run crossed_schedule (init 2 30 0)).

Lemma caller_gets_outcome_of_own_task_witness :
  (c_pc <$> callers crossed_system)
  = [C_done (Returned 1); C_done (Raised (TaskException "boom"))]
  ∧ (Returned 1 = Raised (TimeoutError "Request processing timed out")
     ∨ (20 ≤ 30 ∧ Returned 1 = Returned 1)).
Proof.
  assert (Hrun : run crossed_schedule (init 2 30 0) = Some crossed_system)
    by (vm_compute; reflexivity).
  assert (Hes : forallb undisturbed crossed_schedule = true) by reflexivity.
  split; [vm_compute; reflexivity|].
  apply (caller_gets_outcome_of_own_task 2 30 0 _ _ 0%nat
           (mkCaller 7 (mkTask 20 (Returns 1)) (C_done (Returned 1))) (Returned 1)
           Hes Hrun); [vm_compute; reflexivity|reflexivity].
Defined.

(** *** The answers of [create_message] *)

(** X14. Through the handlers of [create_message], a request for a message is
    answered with the message that its own task returned, with status 408
    when a timeout ended the wait, and with status 500 when its task raised
    an exception, whatever that exception was: the status 404 that
    [process_message] raises for a conversation that does not exist reaches
    the client as 500.  Along a run without cancellation nothing but these
    answers is given. *)
Theorem create_message_answers (m : nat) (qt now : Z) (es : list event)
    (s : System) (i : nat) (c : Caller) (res : result) :
  forallb undisturbed es = true →
  run es (init m qt now) = Some s →
  callers s !! i = Some c → c_pc c = C_done res →
  match App.create_message res with
  | App.Ok v => ending (c_task c) = Returns v ∧ duration (c_task c) ≤ qt
  | App.HTTPException status_code detail =>
      (status_code = 408 ∧ detail = "Request timeout")
      ∨ (status_code = 500 ∧ detail = "Failed to process message"
         ∧ duration (c_task c) ≤ qt ∧ ∃ msg, ending (c_task c) = Raises msg)
  | App.Propagated _ => False
  end.
Proof.
  intros Hes Hrun Hi Hpc.
  pose proof (run_delivery_inv _ _ _ _ _ Hes Hrun) as Hdel.
  destruct (run_frame _ _ _ Hrun) as (_ & Hqt & _). simpl in Hqt.
  pose proof (del_done _ Hdel i c res Hi Hpc) as [->|Hres]; [by left|].
  rewrite Hqt in Hres. unfold verdict, outcome, wait_for in Hres.
  case_bool_decide as Hd.
  - destruct (ending (c_task c)) as [v|msg]; subst res; simpl; [done|].
    right. by eauto.
  - subst res. by left.
Qed.

Lemma create_message_answers_witness :
  (App.create_message <$> [Returned 1; Raised (TaskException "404: Conversation not found")])
  = [App.Ok 1; App.HTTPException 500 "Failed to process message"]
  ∧ match App.create_message (Raised (TaskException "boom")) with
    | App.Ok v => Raises "boom" = Returns v ∧ 5 ≤ 30
    | App.HTTPException status_code detail =>
        (status_code = 408 ∧ detail = "Request timeout")
        ∨ (status_code = 500 ∧ detail = "Failed to process message"
           ∧ 5 ≤ 30 ∧ ∃ msg, Raises "boom" = Raises msg)
    | App.Propagated _ => False
    end.
Proof.
  assert (Hrun : run crossed_schedule (init 2 30 0) = Some crossed_system)
    by (vm_compute; reflexivity).
  assert (Hes : forallb undisturbed crossed_schedule = true) by reflexivity.
  split; [reflexivity|].
  apply (create_message_answers 2 30 0 _ _ 1%nat
           (mkCaller 7 (mkTask 5 (Raises "boom")) (C_done (Raised (TaskException "boom"))))
           (Raised (TaskException "boom")) Hes Hrun); [vm_compute; reflexivity|reflexivity].
Defined.

End DeliveryProofs.

(** ** Proofs: [cleanup] while processors are at work *)

Module CleanupProofs.
Import RequestQueue RequestQueueProofs.

(** Only [cleanup] takes [self._lock] across an await: a cleanup that
    waits in [gather] holds the lock, and it is the only one there. *)
Definition gather_holds_lock (s : System) : Prop :=
  (∀ j ts, cleanups s !! j = Some (CL_gather ts) → _lock s = true)
  ∧ (∀ j j' ts ts', cleanups s !! j = Some (CL_gather ts) →
       cleanups s !! j' = Some (CL_gather ts') → j = j').

Definition of_cleanup (e : event) : bool :=
  match e with
  | CallCleanup | CleanupRuns _ => true
  | _ => false
  end.

Lemma step_lock_frame e s s' :
  of_cleanup e = false → step e s = Some s' →
  _lock s' = _lock s ∧ cleanups s' = cleanups s.
Proof. intros He Hstep. destruct e; try done; step_cases; done. Qed.

Lemma step_gather_holds_lock e s s' :
  gather_holds_lock s → step e s = Some s' → gather_holds_lock s'.
Proof.
  intros [Hlock Hone] Hstep. destruct (of_cleanup e) eqn:He.
  - destruct e; try done; simpl in Hstep.
    + apply (inj Some) in Hstep as <-. split; simpl.
      * intros j ts [[_ Hj]|[_ ?]]%lookup_snoc_Some; [by eauto|done].
      * intros j j' ts ts' [[_ Hj]|[_ ?]]%lookup_snoc_Some; [|done].
        intros [[_ Hj']|[_ ?]]%lookup_snoc_Some; [by eauto|done].
    + unfold cleanup in Hstep.
      destruct (cleanups s !! j) as [[|tasks|]|] eqn:Hj; simpl in Hstep; try done.
      * destruct (_lock s) eqn:Hl; [done|].
        assert (Hnone : ∀ j' ts, cleanups s !! j' = Some (CL_gather ts) → False).
        { intros j' ts Hj'. specialize (Hlock _ _ Hj'). congruence. }
        destruct (_tasks s) as [|t0 ts0]; apply (inj Some) in Hstep as <-; split; simpl.
        -- intros j' ts [(_ & ? & _)|[_ Hj']]%list_lookup_insert_Some; [done|].
           by destruct (Hnone _ _ Hj').
        -- intros j1 j2 ts ts' [(_ & ? & _)|[_ Hj1]]%list_lookup_insert_Some; [done|].
           by destruct (Hnone _ _ Hj1).
        -- done.
        -- intros j1 j2 ts ts' [(-> & _ & _)|[_ Hj1]]%list_lookup_insert_Some;
             [|by destruct (Hnone _ _ Hj1)].
           intros [(-> & _ & _)|[_ Hj2]]%list_lookup_insert_Some;
             [done|by destruct (Hnone _ _ Hj2)].
      * destruct (all_done tasks (processors s)); [|done].
        apply (inj Some) in Hstep as <-. split; simpl.
        -- intros j' ts [(_ & ? & _)|[Hne Hj']]%list_lookup_insert_Some; [done|].
           destruct Hne. by eapply Hone.
        -- intros j1 j2 ts ts' [(_ & ? & _)|[Hne Hj1]]%list_lookup_insert_Some; [done|].
           destruct Hne. by eapply Hone.
  - destruct (step_lock_frame e s s' He Hstep) as [El Ec].
    split; rewrite ?El, ?Ec; [exact Hlock|exact Hone].
Qed.

Lemma run_gather_holds_lock m qt now es s :
  run es (init m qt now) = Some s → gather_holds_lock s.
Proof.
  intros Hrun. eapply (run_invariant_all gather_holds_lock); [| |exact Hrun].
  - intros e s0 s1 H0 Hs. by apply (step_gather_holds_lock e s0).
  - split; simpl; intros j; intros; by rewrite lookup_nil in *.
Qed.

(** The cleanup [j] holds the lock and waits for the task [t], which still
    has a cancellation to receive inside its [try] block, or has received
    it and waits for the lock in its [finally] block. *)
Definition stuck (j t : nat) (tasks : list nat) (s : System) : Prop :=
  _lock s = true
  ∧ cleanups s !! j = Some (CL_gather tasks) ∧ t ∈ tasks
  ∧ (∀ j' ts, cleanups s !! j' = Some (CL_gather ts) → j' = j)
  ∧ ∃ p, processors s !! t = Some p
       ∧ ((in_try p = true ∧ cancel_requested p = true)
          ∨ (p_pc p = P_finally ∧ cancel_requested p = false)).

(** The event cancels the task [t]. *)
Definition cancels (t : nat) (e : event) : bool :=
  match e with
  | CancelTask t' => bool_decide (t' = t)
  | _ => false
  end.

Lemma all_done_elem_of tasks ps t :
  all_done tasks ps = true → t ∈ tasks → ∃ p, ps !! t = Some p ∧ task_done p = true.
Proof.
  unfold all_done. intros Hall Ht. rewrite forallb_forall in Hall.
  specialize (Hall t). rewrite <- list_elem_of_In in Hall. specialize (Hall Ht).
  destruct (ps !! t) as [p|]; [|done]. by exists p.
Qed.

Lemma step_stuck e s s' j t tasks :
  cancels t e = false → stuck j t tasks s → step e s = Some s' → stuck j t tasks s'.
Proof.
  intros He (Hlock & Hc & Hin & Hone & p & Hp & Hpc) Hstep.
  pose proof (lookup_lt_Some _ _ _ Hp) as Hlen.
  destruct e as [cid task|i|t'| |u| |j'|t'|d]; simpl in Hstep.
  - apply (inj Some) in Hstep as <-. by repeat split; eauto.
  - unfold enqueue_request, await_future, finish_caller in Hstep.
    destruct (callers s !! i) as [c|]; simpl in Hstep; [|done].
    rewrite Hlock in Hstep.
    destruct (c_pc c); try done.
    repeat case_match; simplify_eq/=; by repeat split; eauto.
  - destruct (decide (t' = t)) as [->|Hne].
    + unfold _process_queue in Hstep. rewrite Hp in Hstep. simpl in Hstep.
      destruct Hpc as [[Htry Hcr]|[Hpc Hcr]]; rewrite Hcr in Hstep.
      * unfold throw_cancelled, in_try in *.
        destruct (p_pc p); try done; apply (inj Some) in Hstep as <-;
          (split; [done|]; split; [done|]; split; [done|]; split; [done|]);
          eexists; simpl; (split; [by apply list_lookup_insert_eq|]); by right.
      * by rewrite Hpc, Hlock in Hstep.
    + assert (Hkeep : _lock s' = _lock s ∧ cleanups s' = cleanups s
                      ∧ processors s' !! t = processors s !! t).
      { clear Hc Hone Hpc. step_cases; simpl;
          rewrite ?list_lookup_insert_ne by done; try done; congruence. }
      destruct Hkeep as (E1 & E2 & E3). unfold stuck.
      rewrite E1, E2, E3. by repeat split; eauto.
  - apply (inj Some) in Hstep as <-. by repeat split; eauto.
  - unfold acquire in Hstep.
    destruct (acquirers s !! u) as [pc|]; simpl in Hstep; [|done].
    rewrite Hlock in Hstep.
    destruct pc; try done; repeat case_match; simplify_eq/=; by repeat split; eauto.
  - apply (inj Some) in Hstep as <-. simpl. split; [done|].
    split; [by apply lookup_snoc_old|]. split; [done|]. split; [|by eauto].
    intros j' ts [[_ Hj]|[_ ?]]%lookup_snoc_Some; [by eauto|done].
  - unfold cleanup in Hstep.
    destruct (cleanups s !! j') as [[|ts|]|] eqn:Hj; simpl in Hstep; try done.
    + by rewrite Hlock in Hstep.
    + assert (j' = j) as -> by eauto.
      assert (ts = tasks) as -> by congruence.
      destruct (all_done tasks (processors s)) eqn:Hall; [|done].
      destruct (all_done_elem_of _ _ _ Hall Hin) as (p' & Hp' & Hdone).
      assert (p' = p) as -> by congruence.
      unfold task_done, in_try in *.
      destruct Hpc as [[Htry _]|[Hpc _]]; destruct (p_pc p); done.
  - simpl in He. apply bool_decide_eq_false in He.
    destruct (processors s !! t') as [p'|]; simpl in Hstep; [|done].
    apply (inj Some) in Hstep as <-. unfold stuck. simpl.
    rewrite list_lookup_insert_ne by done. by repeat split; eauto.
  - apply (inj Some) in Hstep as <-. by repeat split; eauto.
Qed.

(** X15. Once a processor has entered its body, which every processor does
    with its first step and then stays in as long as it is not cancelled,
    a call of [cleanup] does not return: it cancels the processor and waits
    for it in [gather] while it holds [self._lock], and the processor, on
    its way out, waits for [self._lock] in its [finally] block.  Unless the
    task of the processor is cancelled once more from outside, this lasts
    along every run: [cleanup] stays in [gather], the lock stays taken, and
    no call of [enqueue_request] gets through either of its critical
    sections. *)
Theorem cleanup_waits_forever_for_a_processor_in_its_body (m : nat) (qt now : Z)
    (es0 : list event) (s : System) (j t : nat) (p : Processor) :
  run es0 (init m qt now) = Some s →
  cleanups s !! j = Some CL_lock → _lock s = false →
  t ∈ _tasks s → processors s !! t = Some p → in_try p = true →
  ∃ s1, step (CleanupRuns j) s = Some s1
    ∧ ∀ es s2, forallb (λ e, negb (cancels t e)) es = true → run es s1 = Some s2 →
        _lock s2 = true
        ∧ cleanups s2 !! j = Some (CL_gather (_tasks s))
        ∧ step (CleanupRuns j) s2 = None
        ∧ (∃ p2, processors s2 !! t = Some p2 ∧ task_done p2 = false)
        ∧ (∀ i c, callers s2 !! i = Some c →
             c_pc c = C_get_queue ∨ (∃ q, c_pc c = C_assign q) →
             step (CallerRuns i) s2 = None).
Proof.
  intros Hrun Hj Hlock Ht Hp Htry.
  destruct (run_gather_holds_lock _ _ _ _ _ Hrun) as [Hheld _].
  pose proof (lookup_lt_Some _ _ _ Hj) as Hlen.
  assert (Hstep : ∃ s1, step (CleanupRuns j) s = Some s1
            ∧ _lock s1 = true
            ∧ cleanups s1 = <[j := CL_gather (_tasks s)]> (cleanups s)
            ∧ processors s1 = cancel_all (_tasks s) (processors s)).
  { simpl. unfold cleanup. rewrite Hj. simpl. rewrite Hlock.
    destruct (_tasks s) as [|t0 ts] eqn:Hts; [by apply elem_of_nil in Ht|].
    eexists. split; [done|]. by repeat split. }
  destruct Hstep as (s1 & Hs1 & Hl1 & Hc1 & Hp1). exists s1. split; [done|].
  assert (Hstuck : stuck j t (_tasks s) s1).
  { split; [done|]. rewrite Hc1, Hp1. split; [by apply list_lookup_insert_eq|].
    split; [done|]. split.
    - intros j' ts [(-> & _ & _)|[_ Hj']]%list_lookup_insert_Some; [done|].
      specialize (Hheld _ _ Hj'). congruence.
    - exists (cancel p). rewrite cancel_all_lookup, Hp. simpl.
      rewrite decide_True by done. split; [done|]. left.
      rewrite in_try_cancel. split; [done|].
      unfold cancel, task_done, in_try in *. by destruct (p_pc p). }
  intros es s2 Hes Hrun2.
  assert (Hstuck2 : stuck j t (_tasks s) s2).
  { apply (run_invariant (stuck j t (_tasks s)) (λ e, negb (cancels t e))) with es s1;
      [|exact Hes|exact Hstuck|exact Hrun2].
    intros e sa sb He. apply step_stuck. by destruct (cancels t e). }
  destruct Hstuck2 as (Hl2 & Hc2 & _ & _ & p2 & Hp2 & Hpc2).
  assert (Hlive : task_done p2 = false).
  { unfold task_done, in_try in *. destruct Hpc2 as [[H _]|[H _]]; by destruct (p_pc p2). }
  split; [done|]. split; [done|]. split; [|split].
  - simpl. unfold cleanup. rewrite Hc2. simpl.
    destruct (all_done (_tasks s) (processors s2)) eqn:Hall; [|done].
    destruct (all_done_elem_of _ _ _ Hall Ht) as (p' & Hp' & Hdone). congruence.
  - by exists p2.
  - intros i c Hi Hpc. simpl. unfold enqueue_request. rewrite Hi. simpl.
    destruct Hpc as [->|[q ->]]; by rewrite Hl2.
Qed.

(** The request of [busy_system] has been executed, its caller has
    returned, the processor waits at [queue.get()], and [cleanup] is
    called. *)
Definition shutdown_schedule : list event :=
  busy_schedule ++ [Tick 5; ProcessorRuns 0; CallerRuns 0; CallCleanup].

Definition shutdown_system : System :=
  default (init 1 30 0) (run shutdown_schedule (init 1 30 0)).

Lemma cleanup_waits_forever_for_a_processor_in_its_body_witness :
  ∃ s1 s2, step (CleanupRuns 0) shutdown_system = Some s1
    ∧ run [ProcessorRuns 0; Call 7 (mkTask 1 (Returns 2)); Tick 1000] s1 = Some s2
    ∧ _lock s2 = true ∧ step (CleanupRuns 0) s2 = None.
Proof.
  assert (Hrun : run shutdown_schedule (init 1 30 0) = Some shutdown_system)
    by (vm_compute; reflexivity).
  destruct (cleanup_waits_forever_for_a_processor_in_its_body 1 30 0 _ _ 0 0
              (mkProcessor 7 0 0 1 P_get false) Hrun) as (s1 & Hs1 & Hlater).
  - vm_compute. reflexivity.
  - vm_compute. reflexivity.
  - assert (E : _tasks shutdown_system = [0%nat]) by (vm_compute; reflexivity).
    rewrite E. apply list_elem_of_singleton. reflexivity.
  - vm_compute. reflexivity.
  - reflexivity.
  - assert (E1 : s1 = default shutdown_system (step (CleanupRuns 0) shutdown_system))
      by (rewrite Hs1; reflexivity).
    destruct (run [ProcessorRuns 0; Call 7 (mkTask 1 (Returns 2)); Tick 1000] s1)
      as [s2|] eqn:Hrun2.
    + exists s1, s2. split; [exact Hs1|]. split; [exact Hrun2|].
      destruct (Hlater [ProcessorRuns 0; Call 7 (mkTask 1 (Returns 2)); Tick 1000] s2
                  eq_refl Hrun2) as (Hl & _ & Hcl & _).
      split; [exact Hl|exact Hcl].
    + exfalso. clear -Hrun2 E1. rewrite E1 in Hrun2. vm_compute in Hrun2. discriminate.
Defined.

End CleanupProofs.

(** ** Proofs: one conversation, one task at a time *)

Module ExclusionProofs.
Import RequestQueue RequestQueueProofs RequestQueueLaws CleanupProofs.

(** The queue, the dictionary and the processor of a key are created
    together, so they have the same index in their heaps; the key of an
    index is the key of the processor there, which never changes. *)
Definition owned_by (s : System) (k : nat) (cid : N) : Prop :=
  ∃ p, processors s !! k = Some p ∧ p_conversation_id p = cid.

Lemma p_conversation_id_cancel p : p_conversation_id (cancel p) = p_conversation_id p.
Proof. unfold cancel. by destruct (task_done p). Qed.

Lemma step_owned_by e s s' k cid :
  step e s = Some s' → owned_by s k cid → owned_by s' k cid.
Proof.
  intros Hstep (p & Hp & Hcid). unfold owned_by.
  destruct e; step_cases; simpl; eauto.
  all: try (rewrite ?cancel_all_cons, cancel_all_lookup, Hp; simpl;
            destruct (decide (k ∈ _)); eexists; split; try done;
            by rewrite ?p_conversation_id_cancel).
  all: try (eexists; split; [by apply lookup_app_l_Some|done]).
  all: try (match goal with
            | |- context [@insert _ _ _ _ ?t ?x ?l] =>
                destruct (decide (k = t)) as [->|Hne];
                [rewrite list_lookup_insert_eq by (by eapply lookup_lt_Some);
                 eexists; split; [done|]; simpl; rewrite ?p_conversation_id_cancel; congruence
                |rewrite list_lookup_insert_ne by done; eauto]
            end).
Qed.

(** The processor holds the request [r]. *)
Definition holds (p : Processor) (r : QueuedRequest) : Prop :=
  p_pc p = P_acquire r ∨ ∃ since, p_pc p = P_run r since.

(** Every reference to a queue or to a dictionary, and every request, is
    found under the key it belongs to; [o] is the state in which the keys
    of the indices are read. *)
Record ownership (o s : System) : Prop := Ownership {
  own_queue_objects : length (queue_objects s) = length (processors s);
  own_dict_objects : length (dict_objects s) = length (processors s);
  own_queues : ∀ cid q, queues s !! cid = Some q → owned_by o q cid;
  own_pending : ∀ cid d, _pending_requests s !! cid = Some d → owned_by o d cid;
  own_callers : ∀ i c q, callers s !! i = Some c → c_pc c = C_assign q →
                  owned_by o q (c_conversation_id c);
  own_items : ∀ q Q r, queue_objects s !! q = Some Q → r ∈ items Q →
                owned_by o q (conversation_id r);
  own_dict : ∀ d D k r, dict_objects s !! d = Some D → D !! k = Some r →
               owned_by o d (conversation_id r);
  own_locals : ∀ t p, processors s !! t = Some p → in_try p = true →
                 owned_by o (p_queue p) (p_conversation_id p)
                 ∧ owned_by o (p_pending p) (p_conversation_id p);
  own_request : ∀ t p r, processors s !! t = Some p → holds p r →
                  conversation_id r = p_conversation_id p;
}.

Definition ownership_inv (s : System) : Prop := ownership s s.

Lemma init_ownership_inv m qt now : ownership_inv (init m qt now).
Proof.
  split; simpl; try done; intros *; rewrite ?lookup_empty, ?lookup_nil; done.
Qed.

Lemma owned_by_inj s k cid cid' : owned_by s k cid → owned_by s k cid' → cid = cid'.
Proof. intros (p & Hp & <-) (p' & Hp' & <-). congruence. Qed.

Lemma ownership_lift o s :
  ownership o s → (∀ k cid, owned_by o k cid → owned_by s k cid) → ownership_inv s.
Proof.
  intros [] Hown. split; try done; eauto.
  intros t p Hp Htry. destruct (own_locals0 t p Hp Htry). split; by apply Hown.
Qed.

Lemma length_cancel_all ts : ∀ ps, length (cancel_all ts ps) = length ps.
Proof.
  unfold cancel_all. induction ts as [|t ts IH]; intros ps; simpl; [done|].
  by rewrite IH, length_alter.
Qed.

Lemma p_pending_cancel p : p_pending (cancel p) = p_pending p.
Proof. unfold cancel. by destruct (task_done p). Qed.

Lemma holds_cancel p r : holds (cancel p) r ↔ holds p r.
Proof. unfold holds. by rewrite p_pc_cancel. Qed.

(** Cancelling tasks changes nothing that the invariant reads. *)
Lemma ownership_cancel_all o s ts :
  ownership o s → ownership o (set_processors (cancel_all ts (processors s)) s).
Proof.
  intros []. split; simpl; rewrite ?length_cancel_all; try done.
  - intros t p'. rewrite cancel_all_lookup.
    destruct (processors s !! t) as [p|] eqn:Hp; simpl; [|done]. intros [= <-].
    destruct (decide (t ∈ ts));
      rewrite ?in_try_cancel, ?p_queue_cancel, ?p_pending_cancel, ?p_conversation_id_cancel;
      by apply (own_locals0 t).
  - intros t p' r. rewrite cancel_all_lookup.
    destruct (processors s !! t) as [p|] eqn:Hp; simpl; [|done]. intros [= <-].
    destruct (decide (t ∈ ts)); rewrite ?holds_cancel, ?p_conversation_id_cancel;
      by apply (own_request0 t).
Qed.

(** Removing keys from the registries does no harm. *)
Lemma ownership_registries o s s' :
  ownership o s →
  queue_objects s' = queue_objects s → dict_objects s' = dict_objects s →
  processors s' = processors s → callers s' = callers s →
  (∀ cid q, queues s' !! cid = Some q → queues s !! cid = Some q) →
  (∀ cid d, _pending_requests s' !! cid = Some d → _pending_requests s !! cid = Some d) →
  ownership o s'.
Proof.
  intros [] E1 E2 E3 E4 Hq Hd. split; rewrite ?E1, ?E2, ?E3, ?E4; eauto.
Qed.

(** One processor moves on. *)
Lemma ownership_processor o s p' t :
  ownership o s →
  (in_try p' = true →
   owned_by o (p_queue p') (p_conversation_id p')
   ∧ owned_by o (p_pending p') (p_conversation_id p')) →
  (∀ r, holds p' r → conversation_id r = p_conversation_id p') →
  ownership o (set_processors (<[t := p']> (processors s)) s).
Proof.
  intros [] Hlocals Hreq. split; simpl; rewrite ?length_insert; try done.
  - intros t' p0 [(-> & <- & _)|[Hne Hp0]]%list_lookup_insert_Some; [done|].
    by apply (own_locals0 t').
  - intros t' p0 r [(-> & <- & _)|[Hne Hp0]]%list_lookup_insert_Some; [by apply Hreq|].
    by apply (own_request0 t').
Qed.

Lemma ownership_processor_frame o s s' p' t :
  ownership o s →
  processors s' = <[t := p']> (processors s) →
  queue_objects s' = queue_objects s → dict_objects s' = dict_objects s →
  callers s' = callers s → queues s' = queues s →
  _pending_requests s' = _pending_requests s →
  (in_try p' = true →
   owned_by o (p_queue p') (p_conversation_id p')
   ∧ owned_by o (p_pending p') (p_conversation_id p')) →
  (∀ r, holds p' r → conversation_id r = p_conversation_id p') →
  ownership o s'.
Proof.
  intros Hs E1 E2 E3 E4 E5 E6 Hlocals Hreq.
  apply (ownership_registries o (set_processors (<[t := p']> (processors s)) s));
    [by apply ownership_processor|done..| |]; intros *; by rewrite ?E5, ?E6.
Qed.

Lemma teardown_shrinks c s :
  queue_objects (teardown c s) = queue_objects s
  ∧ dict_objects (teardown c s) = dict_objects s
  ∧ processors (teardown c s) = processors s
  ∧ callers (teardown c s) = callers s
  ∧ (∀ cid q, queues (teardown c s) !! cid = Some q → queues s !! cid = Some q)
  ∧ (∀ cid d, _pending_requests (teardown c s) !! cid = Some d →
       _pending_requests s !! cid = Some d).
Proof.
  unfold teardown. repeat case_match; simpl; repeat split; try done;
    by intros ?? [_ ?]%lookup_delete_Some.
Qed.

Lemma ownership_resolve o s fut v : ownership o s → ownership o (resolve fut v s).
Proof.
  intros H. destruct (resolve_fields fut v s)
    as (E1 & E2 & E3 & E4 & E5 & E6 & E7 & E8 & E9 & E10 & E11).
  eapply ownership_registries; [exact H|done..| |]; intros *; by rewrite ?E2, ?E3.
Qed.

(** The head of the [while] loop takes a request of the key of the
    processor out of its dictionary, if any. *)
Lemma ownership_while_next o s t p :
  ownership o s →
  owned_by o (p_queue p) (p_conversation_id p) →
  owned_by o (p_pending p) (p_conversation_id p) →
  ownership o (while_next_in_pending t p s).
Proof.
  intros Hs Hq Hd. unfold while_next_in_pending.
  destruct (dict_objects s !! p_pending p) as [D|] eqn:HD; simpl;
    [destruct (D !! next_sequence p) as [r|] eqn:Hr|]; simpl.
  - apply (ownership_processor o (set_dict_objects _ s)); [|done|].
    + destruct Hs. split; simpl; rewrite ?length_alter; try done.
      intros d D' k r'. destruct (decide (d = p_pending p)) as [->|Hne].
      * rewrite list_lookup_alter_eq, HD. simpl. intros [= <-].
        intros [_ Hk]%lookup_delete_Some. by apply (own_dict0 _ D k).
      * rewrite list_lookup_alter_ne by done. apply own_dict0.
    + intros r' [Hr'|[since Hr']]; simpl in Hr'; [|done]. injection Hr' as <-.
      apply (owned_by_inj o (p_pending p)); [|done].
      by apply (own_dict _ _ Hs _ D (next_sequence p)).
  - apply ownership_processor; [done|done|]. by intros r' [?|[? ?]].
  - apply ownership_processor; [done|done|]. by intros r' [?|[? ?]].
Qed.

(** One caller moves on. *)
Lemma ownership_caller o s i cid task pc :
  ownership o s →
  (∀ q, pc = C_assign q → owned_by o q cid) →
  ownership o (set_callers (<[i := mkCaller cid task pc]> (callers s)) s).
Proof.
  intros [] Hpc. split; simpl; try done.
  intros j c q [(-> & <- & _)|[Hne Hj]]%list_lookup_insert_Some Hq.
  - simpl in *. by apply Hpc.
  - by apply (own_callers0 j).
Qed.

Lemma ownership_caller_frame o s s' i cid task pc :
  ownership o s →
  callers s' = <[i := mkCaller cid task pc]> (callers s) →
  queue_objects s' = queue_objects s → dict_objects s' = dict_objects s →
  processors s' = processors s → queues s' = queues s →
  _pending_requests s' = _pending_requests s →
  (∀ q, pc = C_assign q → owned_by o q cid) →
  ownership o s'.
Proof.
  intros Hs E1 E2 E3 E4 E5 E6 Hpc.
  pose proof (ownership_caller o s i cid task pc Hs Hpc) as [].
  split; rewrite ?E1, ?E2, ?E3, ?E4, ?E5, ?E6; done.
Qed.

Lemma owned_by_app s s' x k cid :
  processors s' = processors s ++ [x] → owned_by s k cid → owned_by s' k cid.
Proof.
  intros E (p & Hp & Hcid). exists p. rewrite E. split; [|done]. by apply lookup_app_l_Some.
Qed.

(** [_get_queue] for a key that is not registered: the queue, the
    dictionary and the processor get the same index. *)
Lemma get_queue_new_ownership cid s :
  ownership_inv s → queues s !! cid = None →
  ownership_inv (_get_queue cid s).1
  ∧ owned_by (_get_queue cid s).1 (_get_queue cid s).2 cid
  ∧ callers (_get_queue cid s).1 = callers s.
Proof.
  intros Hinv Hnew. unfold _get_queue. rewrite Hnew. simpl.
  set (task := mkProcessor cid 0 0 0 P_created false).
  set (s1 := set_tasks _ _).
  assert (Hold : ∀ k c, owned_by s k c → owned_by s1 k c).
  { intros k c. by apply (owned_by_app s s1 task). }
  assert (Hnew1 : owned_by s1 (length (processors s)) cid).
  { exists task. split; [|done]. simpl. by rewrite lookup_app_r, Nat.sub_diag. }
  destruct Hinv. split; [|split; [rewrite own_queue_objects0; exact Hnew1|]].
  2: { reflexivity. }
  split; simpl; rewrite ?length_app; simpl; try lia.
  - intros c q [[<- <-]|[Hne Hq]]%lookup_insert_Some;
      [rewrite own_queue_objects0; exact Hnew1|].
    by apply Hold, own_queues0.
  - intros c d [[<- <-]|[Hne Hd]]%lookup_insert_Some;
      [rewrite own_dict_objects0; exact Hnew1|].
    by apply Hold, own_pending0.
  - intros i c q Hi Hpc. by apply Hold, (own_callers0 i).
  - intros q Q r [[_ HQ]|[_ <-]]%lookup_snoc_Some Hr.
    + by apply Hold, (own_items0 q Q).
    + by apply elem_of_nil in Hr.
  - intros d D k r [[_ HD]|[_ <-]]%lookup_snoc_Some Hr.
    + by apply Hold, (own_dict0 d D k).
    + by rewrite lookup_empty in Hr.
  - intros t p [[_ Hp]|[_ <-]]%lookup_snoc_Some Htry; [|done].
    destruct (own_locals0 t p Hp Htry). split; by apply Hold.
  - intros t p r [[_ Hp]|[_ <-]]%lookup_snoc_Some Hr.
    + by apply (own_request0 t).
    + by destruct Hr as [?|[? ?]].
Qed.

Lemma enqueue_request_ownership i s s' :
  ownership_inv s → enqueue_request i s = Some s' → ownership_inv s'.
Proof.
  intros Hinv Hstep.
  assert (Hown : ∀ k cid, owned_by s k cid → owned_by s' k cid).
  { intros k cid. by apply (step_owned_by (CallerRuns i)). }
  unfold enqueue_request in Hstep.
  destruct (callers s !! i) as [c|] eqn:Hi; simpl in Hstep; [|done].
  destruct (c_pc c) as [|q|fut since|r] eqn:Hpc; [| | |done].
  - destruct (_lock s); [done|].
    destruct (queues s !! c_conversation_id c) as [q|] eqn:Hq.
    + rewrite (get_queue_known _ _ _ Hq) in Hstep. apply (inj Some) in Hstep as <-.
      apply (ownership_lift s); [|exact Hown]. apply ownership_caller; [done|].
      intros q' [= <-]. by apply (own_queues _ _ Hinv).
    + destruct (get_queue_new_ownership _ _ Hinv Hq) as (Hinv1 & Hq1 & Hc1).
      destruct (_get_queue (c_conversation_id c) s) as [s1 q]. simpl in *.
      apply (inj Some) in Hstep as <-.
      apply (ownership_lift s1); [|by intros k cid H].
      apply ownership_caller; [done|]. by intros q' [= <-].
  - destruct (_lock s); [done|]. apply (inj Some) in Hstep as <-.
    apply (ownership_lift s); [|exact Hown]. clear Hown.
    pose proof (own_callers _ _ Hinv i c q Hi Hpc) as Hq.
    unfold assign_and_put, finish_caller.
    destruct (_sequence_counters s !! c_conversation_id c) as [n|]; simpl.
    + destruct (_pending_requests s !! c_conversation_id c) as [d|] eqn:Hd; simpl.
      * match goal with
        | |- ownership s (set_callers _ ?s5) => assert (H5 : ownership s s5)
        end; [|by eapply (ownership_caller_frame s _); [exact H5|reflexivity..|]].
        destruct Hinv. split; simpl; rewrite ?length_alter; try done.
        -- intros q' Q' r. destruct (decide (q' = q)) as [->|Hne].
           ++ rewrite list_lookup_alter_eq.
              destruct (queue_objects s !! q) as [Q|] eqn:HQ; simpl; [|done].
              intros [= <-]. simpl.
              intros [Hr| ->%list_elem_of_singleton]%elem_of_app; [|done].
              by apply (own_items0 q Q).
           ++ rewrite list_lookup_alter_ne by done. apply own_items0.
        -- intros d' D' k r. destruct (decide (d' = d)) as [->|Hne].
           ++ rewrite list_lookup_alter_eq.
              destruct (dict_objects s !! d) as [D|] eqn:HD; simpl; [|done].
              intros [= <-] [[<- <-]|[_ Hk]]%lookup_insert_Some;
                [by apply own_pending0|by apply (own_dict0 d D k)].
           ++ rewrite list_lookup_alter_ne by done. apply own_dict0.
      * by eapply (ownership_caller_frame s s); [exact Hinv|reflexivity..|].
    + by apply ownership_caller.
  - unfold await_future, finish_caller in Hstep.
    apply (ownership_lift s); [|exact Hown]. clear Hown.
    destruct (futures s !! fut) as [[| | |]|]; [| | | |done].
    + case_bool_decide; [|done]. apply (inj Some) in Hstep as <-.
      by eapply (ownership_caller_frame s s); [exact Hinv|reflexivity..|].
    + apply (inj Some) in Hstep as <-. by apply ownership_caller.
    + apply (inj Some) in Hstep as <-. by apply ownership_caller.
    + apply (inj Some) in Hstep as <-. by apply ownership_caller.
Qed.

Lemma step_ownership_inv e s s' :
  ownership_inv s → step e s = Some s' → ownership_inv s'.
Proof.
  intros Hinv Hstep.
  assert (Hown : ∀ k cid, owned_by s k cid → owned_by s' k cid).
  { intros k cid. by apply (step_owned_by e). }
  destruct e as [cid0 task0|i|t| |u| |j|t|d]; simpl in Hstep.
  2: { by apply (enqueue_request_ownership i s). }
  all: apply (ownership_lift s); [|exact Hown]; clear Hown.
  - apply (inj Some) in Hstep as <-. destruct Hinv. split; simpl; eauto.
    intros i c q [[_ Hi]|[_ <-]]%lookup_snoc_Some Hpc; [by eauto|done].
  - (* a step of a processor *)
    unfold _process_queue in Hstep.
    destruct (processors s !! t) as [p|] eqn:Hp; simpl in Hstep; [|done].
    pose proof (own_locals _ _ Hinv t p Hp) as Hlocals.
    pose proof (own_request _ _ Hinv t p) as Hreq. specialize (λ r, Hreq r Hp).
    destruct (cancel_requested p) eqn:Hcr.
    { unfold throw_cancelled in Hstep.
      destruct (p_pc p) eqn:Hpc; try done; apply (inj Some) in Hstep as <-;
        (eapply (ownership_processor_frame s s); [done|done..| |]); simpl; try done;
        by intros r [?|[? ?]]. }
    destruct (p_pc p) as [| |r|r since| |] eqn:Hpc; [| | | | |done].
    + destruct (queues s !! p_conversation_id p) as [q|] eqn:Hq;
        [destruct (_pending_requests s !! p_conversation_id p) as [d|] eqn:Hd|];
        apply (inj Some) in Hstep as <-; (apply ownership_processor; [done|..]); simpl;
        try done; try (by intros r [?|[? ?]]).
      intros _. split; [by apply (own_queues _ _ Hinv)|by apply (own_pending _ _ Hinv)].
    + destruct Hlocals as [Hq Hd]; [unfold in_try; by rewrite Hpc|].
      destruct (queue_objects s !! p_queue p) as [Q|] eqn:HQ; simpl in Hstep; [|done].
      destruct (items Q) as [|r rest] eqn:Hitems; [done|].
      apply (inj Some) in Hstep as <-.
      assert (Hr : conversation_id r = p_conversation_id p).
      { apply (owned_by_inj s (p_queue p)); [|done].
        apply (own_items _ _ Hinv _ Q); [done|]. rewrite Hitems. by left. }
      apply ownership_while_next; [|done..].
      destruct Hinv. split; simpl; rewrite ?length_alter, ?length_insert; try done.
      * intros q Q' r' [(<- & <- & _)|[Hne HQ']]%list_lookup_insert_Some Hr'.
        -- apply (own_items0 _ Q); [done|]. rewrite Hitems. by right.
        -- by apply (own_items0 _ Q').
      * intros d D' k r'. destruct (decide (d = p_pending p)) as [->|Hne].
        -- rewrite list_lookup_alter_eq.
           destruct (dict_objects s !! p_pending p) as [D|] eqn:HD; simpl; [|done].
           intros [= <-] [[<- <-]|[_ Hk]]%lookup_insert_Some; [by rewrite Hr|].
           by apply (own_dict0 _ D k).
        -- rewrite list_lookup_alter_ne by done. apply own_dict0.
    + destruct Hlocals as [Hq Hd]; [unfold in_try; by rewrite Hpc|].
      destruct (semaphore s) as [|n]; [done|]. apply (inj Some) in Hstep as <-.
      eapply (ownership_processor_frame s s); [done|done..| |]; simpl; [done|].
      intros r' [Hr'|[since Hr']]; simpl in Hr'; [done|]. injection Hr' as <- _.
      apply Hreq. by left.
    + destruct Hlocals as [Hq Hd]; [unfold in_try; by rewrite Hpc|].
      case_bool_decide; [|done].
      set (s1 := resolve _ _ s) in *.
      assert (H1 : ownership s s1) by (by apply ownership_resolve).
      assert (E7 : queue_objects s1 = queue_objects s)
        by (by destruct (resolve_fields (future r)
                           (outcome (wait_for (task r) (queue_timeout s))) s)
              as (_ & _ & _ & _ & _ & _ & ? & _)).
      clearbody s1. simpl in Hstep. rewrite E7 in Hstep.
      destruct (queue_objects s !! p_queue p) as [Q|] eqn:HQ; simpl in Hstep; [|done].
      assert (H3 : ownership s (set_trace (trace s1 ++ [Finished r])
                                 (set_semaphore (S (semaphore s1)) s1)))
        by (by apply (ownership_registries s s1)).
      destruct (unfinished_tasks Q) as [|n]; apply (inj Some) in Hstep as <-.
      * eapply ownership_processor_frame; [exact H3|done..| |]; simpl; [done|].
        by intros r' [?|[? ?]].
      * apply ownership_while_next; [|done..].
        destruct H3. simpl in *. rewrite E7 in own_queue_objects0, own_items0.
        split; simpl in *; rewrite ?length_insert; try done.
        intros q Q' r' [(<- & <- & _)|[Hne HQ']]%list_lookup_insert_Some Hr'.
        -- by apply (own_items0 _ Q).
        -- by apply (own_items0 _ Q').
    + destruct (_lock s); [done|]. apply (inj Some) in Hstep as <-.
      destruct (teardown_effect (p_conversation_id p) s) as (_ & Ep & _).
      eapply (ownership_processor_frame s (teardown (p_conversation_id p) s));
        [|simpl; by rewrite ?Ep|done..|done|by intros r [?|[? ?]]].
      destruct (teardown_shrinks (p_conversation_id p) s) as (E1 & E2 & E3 & E4 & H5 & H6).
      by apply (ownership_registries s s).
  - apply (inj Some) in Hstep as <-. by apply (ownership_registries s s).
  - unfold acquire in Hstep.
    destruct (acquirers s !! u) as [pc|]; simpl in Hstep; [|done].
    destruct pc; repeat case_match; try done; apply (inj Some) in Hstep as <-;
      by apply (ownership_registries s s).
  - apply (inj Some) in Hstep as <-. by apply (ownership_registries s s).
  - (* [cleanup] *)
    unfold cleanup in Hstep.
    destruct (cleanups s !! j) as [[|tasks|]|] eqn:Hj; simpl in Hstep; try done.
    + destruct (_lock s); [done|].
      pose proof (ownership_cancel_all s s (_tasks s) Hinv) as Hc.
      destruct (_tasks s) as [|t0 ts0]; apply (inj Some) in Hstep as <-;
        eapply ownership_registries; try exact Hc; done.
    + destruct (all_done tasks (processors s)); [|done].
      apply (inj Some) in Hstep as <-. by apply (ownership_registries s s).
  - destruct (processors s !! t) as [p|] eqn:Hp; simpl in Hstep; [|done].
    apply (inj Some) in Hstep as <-. apply ownership_processor; [done|..].
    + rewrite in_try_cancel, p_queue_cancel, p_pending_cancel, p_conversation_id_cancel.
      by apply (own_locals _ _ Hinv t).
    + intros r. rewrite holds_cancel, p_conversation_id_cancel.
      by apply (own_request _ _ Hinv t).
  - apply (inj Some) in Hstep as <-. by apply (ownership_registries s s).
Qed.

(** *** One live processor for a key *)

(** The tasks that are not done are known to [_tasks], their keys are
    registered, and no two of them have the same key; a cleanup that waits
    in [gather] waits for all the tasks of [_tasks]. *)
Record exclusive_inv (s : System) : Prop := ExclusiveInv {
  ex_known : ∀ t p, processors s !! t = Some p → task_done p = false →
               t ∈ _tasks s ∧ is_Some (queues s !! p_conversation_id p);
  ex_one : ∀ t t' p p', processors s !! t = Some p → processors s !! t' = Some p' →
             task_done p = false → task_done p' = false →
             p_conversation_id p = p_conversation_id p' → t = t';
  ex_snapshot : ∀ j ts, cleanups s !! j = Some (CL_gather ts) → ts = _tasks s;
}.

Lemma init_exclusive_inv m qt now : exclusive_inv (init m qt now).
Proof. split; simpl; intros *; by rewrite lookup_nil. Qed.

(** A step after which every task that is not done was there before, not
    done and with the same key, and still finds its key registered. *)
Lemma exclusive_frame s s' :
  exclusive_inv s →
  _tasks s' = _tasks s → cleanups s' = cleanups s →
  (∀ t p', processors s' !! t = Some p' → task_done p' = false →
     ∃ p, processors s !! t = Some p ∧ task_done p = false
       ∧ p_conversation_id p = p_conversation_id p'
       ∧ (is_Some (queues s !! p_conversation_id p) →
          is_Some (queues s' !! p_conversation_id p))) →
  exclusive_inv s'.
Proof.
  intros [] Et Ec Hps. split; rewrite ?Et, ?Ec; [| |done].
  - intros t p' Hp' Hlive. destruct (Hps _ _ Hp' Hlive) as (p & Hp & Hl & Hcid & Hq).
    destruct (ex_known0 _ _ Hp Hl) as [Hin Hreg]. split; [done|].
    rewrite <- Hcid. by apply Hq.
  - intros t1 t2 p1' p2' H1 H2 Hl1 Hl2 Hcid.
    destruct (Hps _ _ H1 Hl1) as (p1 & Hp1 & Hd1 & Hc1 & _).
    destruct (Hps _ _ H2 Hl2) as (p2 & Hp2 & Hd2 & Hc2 & _).
    apply (ex_one0 t1 t2 p1 p2); try done. congruence.
Qed.

Lemma task_done_cancel p : task_done (cancel p) = task_done p.
Proof. unfold cancel. by destruct (task_done p) eqn:E. Qed.

Lemma cancel_all_live ts ps t p' :
  cancel_all ts ps !! t = Some p' → task_done p' = false →
  ∃ p, ps !! t = Some p ∧ task_done p = false
    ∧ p_conversation_id p = p_conversation_id p'.
Proof.
  rewrite cancel_all_lookup. destruct (ps !! t) as [p|]; simpl; [|done].
  intros [= <-]. exists p. split; [done|].
  destruct (decide (t ∈ ts)); simpl in *;
    rewrite ?task_done_cancel, ?p_conversation_id_cancel in *; done.
Qed.

(** What a step of a processor changes of the tasks and of the registry. *)
Lemma process_queue_shape t s s' :
  _process_queue t s = Some s' →
  _tasks s' = _tasks s ∧ cleanups s' = cleanups s
  ∧ ∃ p p', processors s !! t = Some p ∧ processors s' = <[t := p']> (processors s)
      ∧ p_conversation_id p' = p_conversation_id p
      ∧ task_done p = false
      ∧ (queues s' = queues s
         ∨ (task_done p' = true
            ∧ ∀ cid, cid ≠ p_conversation_id p → queues s' !! cid = queues s !! cid)).
Proof.
  intros Hstep. unfold _process_queue in Hstep.
  destruct (processors s !! t) as [p|] eqn:Hp; simpl in Hstep; [|done].
  assert (Hlive : p_pc p ≠ P_done → task_done p = false).
  { unfold task_done. by destruct (p_pc p). }
  assert (Hgen : (cancel_requested p = true ∨ p_pc p ≠ P_finally) →
            queues s' = queues s ∧ _tasks s' = _tasks s ∧ cleanups s' = cleanups s
            ∧ ∃ p', processors s' = <[t := p']> (processors s)
                ∧ p_conversation_id p' = p_conversation_id p
                ∧ p_pc p ≠ P_done).
  { intros Hor. unfold throw_cancelled, while_next_in_pending, resolve in Hstep.
    repeat (case_match; simplify_option_eq); simpl;
      try (by destruct Hor);
      (split; [done|]; split; [done|]; split; [done|]);
      eexists; (split; [done|]); simpl; split; congruence. }
  destruct (cancel_requested p) eqn:Hcr.
  { destruct Hgen as (Eq & Et & Ec & p' & Ep & Hcid & Hpc); [by left|].
    split; [done|]. split; [done|]. exists p, p'. repeat (split; [by auto|]). by left. }
  destruct (p_pc p) eqn:Hpc.
  5: { destruct (_lock s); [done|].
       apply (inj Some) in Hstep as <-.
       destruct (teardown_effect (p_conversation_id p) s) as (_ & Ep & Hother & _).
       assert (Et : _tasks (teardown (p_conversation_id p) s) = _tasks s
                    ∧ cleanups (teardown (p_conversation_id p) s) = cleanups s).
       { unfold teardown. by repeat case_match. }
       destruct Et as [Et Ec]. simpl. split; [done|]. split; [done|].
       exists p, (at_pc P_done p). split; [done|]. split; [done|].
       split; [done|]. split; [by apply Hlive|]. right. split; [done|].
       intros cid Hcid. by apply Hother. }
  all: destruct Hgen as (Eq & Et & Ec & p' & Ep & Hcid & Hpc'); [by right|];
    split; [done|]; split; [done|]; exists p, p'; repeat (split; [by auto|]); by left.
Qed.

Lemma step_exclusive_inv e s s' :
  gather_holds_lock s → exclusive_inv s → step e s = Some s' → exclusive_inv s'.
Proof.
  intros [Hheld Hone] Hinv Hstep.
  destruct e as [cid0 task0|i|t| |u| |j|t|d]; simpl in Hstep.
  - apply (inj Some) in Hstep as <-. apply (exclusive_frame s); try done.
    intros t p' Hp' Hl. by exists p'.
  - (* a step of [enqueue_request] *)
    unfold enqueue_request in Hstep.
    destruct (callers s !! i) as [c|] eqn:Hi; simpl in Hstep; [|done].
    destruct (c_pc c) as [|q|fut since|r] eqn:Hpc; [| | |done].
    + destruct (_lock s) eqn:Hlock; [done|].
      destruct (queues s !! c_conversation_id c) as [q|] eqn:Hq.
      * rewrite (get_queue_known _ _ _ Hq) in Hstep. apply (inj Some) in Hstep as <-.
        apply (exclusive_frame s); try done. intros t p' Hp' Hl. by exists p'.
      * unfold _get_queue in Hstep. rewrite Hq in Hstep. simpl in Hstep.
        apply (inj Some) in Hstep as <-. destruct Hinv. split; simpl.
        -- intros t p [[_ Hp]|[-> <-]]%lookup_snoc_Some Hl.
           ++ destruct (ex_known0 _ _ Hp Hl) as [Hin Hreg].
              split; [apply elem_of_app; by left|].
              apply lookup_insert_is_Some.
              destruct (decide (c_conversation_id c = p_conversation_id p)); auto.
           ++ split; [apply elem_of_app; right; by apply list_elem_of_singleton|].
              simpl. rewrite lookup_insert_eq. by eexists.
        -- assert (Hfresh : ∀ t p, processors s !! t = Some p → task_done p = false →
                              p_conversation_id p ≠ c_conversation_id c).
           { intros t p Hp Hl E. destruct (ex_known0 _ _ Hp Hl) as [_ Hreg].
             rewrite E, Hq in Hreg. by destruct Hreg. }
           intros t1 t2 p1 p2 [[_ H1]|[-> <-]]%lookup_snoc_Some
             [[_ H2]|[-> <-]]%lookup_snoc_Some Hl1 Hl2 Hcid; simpl in *.
           ++ by apply (ex_one0 t1 t2 p1 p2).
           ++ by destruct (Hfresh _ _ H1 Hl1).
           ++ by destruct (Hfresh _ _ H2 Hl2).
           ++ done.
        -- intros j ts Hj. specialize (Hheld _ _ Hj). congruence.
    + destruct (_lock s); [done|]. apply (inj Some) in Hstep as <-.
      apply (exclusive_frame s);
        try (unfold assign_and_put, finish_caller; by repeat case_match).
      intros t p' Hp' Hl. exists p'.
      unfold assign_and_put, finish_caller in *. by repeat case_match.
    + unfold await_future, finish_caller in Hstep.
      repeat case_match; simplify_eq/=;
        (apply (exclusive_frame s); try done; intros t p' Hp' Hl; by exists p').
  - (* a step of a processor *)
    destruct (process_queue_shape t s s' Hstep)
      as (Et & Ec & p & p' & Hp & Ep & Hcid & Hlive & Hq).
    apply (exclusive_frame s); try done. rewrite Ep.
    intros t' p0 [(-> & <- & _)|[Hne Hp0]]%list_lookup_insert_Some Hl.
    + exists p. repeat (split; [done|]).
      destruct Hq as [->|[Hdone _]]; [done|congruence].
    + exists p0. repeat (split; [done|]).
      destruct Hq as [->|[_ Hq]]; [done|]. rewrite Hq; [done|].
      intros E. apply Hne. apply (ex_one _ Hinv t t' p p0); try done.
  - apply (inj Some) in Hstep as <-. apply (exclusive_frame s); try done.
    intros t p' Hp' Hl. by exists p'.
  - unfold acquire in Hstep.
    destruct (acquirers s !! u) as [pc|]; simpl in Hstep; [|done].
    destruct pc; repeat case_match; try done; apply (inj Some) in Hstep as <-;
      (apply (exclusive_frame s); try done; intros t p' Hp' Hl; by exists p').
  - apply (inj Some) in Hstep as <-. destruct Hinv. split; simpl; try done.
    intros j ts [[_ Hj]|[_ ?]]%lookup_snoc_Some; [by eauto|done].
  - (* [cleanup] *)
    unfold cleanup in Hstep.
    destruct (cleanups s !! j) as [[|tasks|]|] eqn:Hj; simpl in Hstep; try done.
    + destruct (_lock s) eqn:Hlock; [done|].
      assert (Hnone : ∀ j' ts, cleanups s !! j' = Some (CL_gather ts) → False).
      { intros j' ts Hj'. specialize (Hheld _ _ Hj'). congruence. }
      destruct Hinv.
      destruct (_tasks s) as [|t0 ts0] eqn:Hts; apply (inj Some) in Hstep as <-;
        split; simpl; rewrite ?cancel_all_cons, ?Hts.
      * intros t p Hp Hl. destruct (ex_known0 _ _ Hp Hl) as [Hin _].
        by apply elem_of_nil in Hin.
      * done.
      * intros j' ts [(_ & ? & _)|[_ Hj']]%list_lookup_insert_Some; [done|].
        by destruct (Hnone _ _ Hj').
      * intros t p' Hp' Hl. destruct (cancel_all_live _ _ _ _ Hp' Hl) as (p & Hp & Hd & <-).
        by apply ex_known0.
      * intros t1 t2 p1' p2' H1 H2 Hl1 Hl2 Hcid.
        destruct (cancel_all_live _ _ _ _ H1 Hl1) as (p1 & Hp1 & Hd1 & Hc1).
        destruct (cancel_all_live _ _ _ _ H2 Hl2) as (p2 & Hp2 & Hd2 & Hc2).
        apply (ex_one0 t1 t2 p1 p2); try done. congruence.
      * intros j' ts [(_ & [= <-] & _)|[_ Hj']]%list_lookup_insert_Some; [done|].
        by destruct (Hnone _ _ Hj').
    + destruct (all_done tasks (processors s)) eqn:Hall; [|done].
      apply (inj Some) in Hstep as <-.
      assert (Hdead : ∀ t p, processors s !! t = Some p → task_done p = false → False).
      { intros t p Hp Hl. destruct (ex_known _ Hinv _ _ Hp Hl) as [Hin _].
        rewrite <- (ex_snapshot _ Hinv _ _ Hj) in Hin.
        destruct (all_done_elem_of _ _ _ Hall Hin) as (p0 & Hp0 & Hd). congruence. }
      split; simpl.
      * intros t p Hp Hl. by destruct (Hdead t p).
      * intros t1 t2 p1 p2 H1 _ Hl1. by destruct (Hdead t1 p1).
      * intros j' ts [(_ & ? & _)|[Hne Hj']]%list_lookup_insert_Some; [done|].
        destruct Hne. by eapply Hone.
  - destruct (processors s !! t) as [p|] eqn:Hp; simpl in Hstep; [|done].
    apply (inj Some) in Hstep as <-. apply (exclusive_frame s); try done. simpl.
    intros t' p0 [(-> & <- & _)|[Hne Hp0]]%list_lookup_insert_Some Hl.
    + exists p. rewrite task_done_cancel in Hl. by rewrite p_conversation_id_cancel.
    + by exists p0.
  - apply (inj Some) in Hstep as <-. apply (exclusive_frame s); try done.
    intros t p' Hp' Hl. by exists p'.
Qed.

Lemma run_exclusive_inv m qt now es s :
  run es (init m qt now) = Some s → ownership_inv s ∧ exclusive_inv s.
Proof.
  intros Hrun.
  assert (H : gather_holds_lock s ∧ ownership_inv s ∧ exclusive_inv s); [|by destruct H].
  eapply (run_invariant_all (λ s, gather_holds_lock s ∧ ownership_inv s ∧ exclusive_inv s));
    [| |exact Hrun].
  - intros e s0 s1 (H1 & H2 & H3) Hs. split; [|split].
    + by apply (step_gather_holds_lock e s0).
    + by apply (step_ownership_inv e s0).
    + by apply (step_exclusive_inv e s0).
  - split; [|split; [apply init_ownership_inv|apply init_exclusive_inv]].
    split; simpl; intros *; by rewrite lookup_nil.
Qed.

(** X16. In every state that a run reaches, whatever has been cancelled or
    cleaned up on the way, the request that a processor holds is a request
    of the key of that processor, and no two processors that are not done
    have the same key: two tasks of one conversation are never in execution
    at the same time. *)
Theorem one_task_per_conversation_at_a_time (m : nat) (qt now : Z) (es : list event)
    (s : System) (t1 t2 : nat) (p1 p2 : Processor) (r1 r2 : QueuedRequest)
    (since1 since2 : Z) :
  run es (init m qt now) = Some s →
  processors s !! t1 = Some p1 → p_pc p1 = P_run r1 since1 →
  processors s !! t2 = Some p2 → p_pc p2 = P_run r2 since2 →
  conversation_id r1 = conversation_id r2 →
  t1 = t2 ∧ r1 = r2 ∧ conversation_id r1 = p_conversation_id p1.
Proof.
  intros Hrun H1 Hpc1 H2 Hpc2 Hcid.
  destruct (run_exclusive_inv _ _ _ _ _ Hrun) as [Hown Hex].
  assert (E1 : conversation_id r1 = p_conversation_id p1).
  { apply (own_request _ _ Hown t1); [done|]. right. by eexists. }
  assert (E2 : conversation_id r2 = p_conversation_id p2).
  { apply (own_request _ _ Hown t2); [done|]. right. by eexists. }
  assert (t1 = t2) as <-.
  { apply (ex_one _ Hex t1 t2 p1 p2); try done; try congruence;
      unfold task_done; by rewrite ?Hpc1, ?Hpc2. }
  split; [done|]. split; [|done]. congruence.
Qed.

(** The processor of key 7 is cancelled and ends, the key is registered
    anew, and the second processor of the key executes a request. *)
Definition second_processor_schedule : list event :=
  torn_down_schedule
  ++ [Call 7 (mkTask 3 (Returns 4)); CallerRuns 1; CallerRuns 1;
      ProcessorRuns 1; ProcessorRuns 1; ProcessorRuns 1].

Definition second_processor_system : System :=
  default (init 1 30 0) (run second_processor_schedule (init 1 30 0)).

Lemma one_task_per_conversation_at_a_time_witness :
  (p_conversation_id <$> processors second_processor_system) = [7%N; 7%N]
  ∧ (running <$> processors second_processor_system) = [false; true]
  ∧ (1 = 1 ∧ mkQueuedRequest 7 (mkTask 3 (Returns 4)) 0 0
             = mkQueuedRequest 7 (mkTask 3 (Returns 4)) 0 0 ∧ 7%N = 7%N)%nat.
Proof.
  assert (Hrun : run second_processor_schedule (init 1 30 0) = Some second_processor_system)
    by (vm_compute; reflexivity).
  split; [vm_compute; reflexivity|]. split; [vm_compute; reflexivity|].
  pose (r := mkQueuedRequest 7 (mkTask 3 (Returns 4)) 0 0).
  apply (one_task_per_conversation_at_a_time 1 30 0 _ _ 1 1
           (mkProcessor 7 1 1 0 (P_run r 0) false) (mkProcessor 7 1 1 0 (P_run r 0) false)
           r r 0 0 Hrun); try reflexivity; vm_compute; reflexivity.
Defined.

End ExclusionProofs.

(** ** Proofs: the in-memory repository *)

Module RepositoryProofs.
Import Builtins InMemoryRepository.

Section Sorting.
Context {A : Type} (key : A → Z).

Definition by_key (x y : A) : Prop := key x ≤ key y.

Lemma insort_Permutation x l : insort key x l ≡ₚ x :: l.
Proof.
  induction l as [|y l IH]; simpl; [done|].
  case_bool_decide; [done|]. rewrite IH. apply Permutation_swap.
Qed.

Lemma sorted_Permutation l : sorted key l ≡ₚ l.
Proof.
  induction l as [|x l IH]; simpl; [done|]. by rewrite insort_Permutation, IH.
Qed.

Lemma insort_StronglySorted x l :
  StronglySorted by_key l → StronglySorted by_key (insort key x l).
Proof.
  induction 1 as [|y l Hs IH Hall]; simpl; [repeat constructor|].
  case_bool_decide as Hxy.
  - constructor; [by constructor|]. constructor; [done|].
    eapply Forall_impl; [exact Hall|]. unfold by_key. intros z Hz. lia.
  - constructor; [done|]. rewrite insort_Permutation. constructor; [|done].
    unfold by_key. lia.
Qed.

Lemma sorted_StronglySorted l : StronglySorted by_key (sorted key l).
Proof.
  induction l as [|x l IH]; simpl; [constructor|]. by apply insort_StronglySorted.
Qed.

(** Sorting keeps a list that is in order as it is. *)
Lemma sorted_id l : StronglySorted by_key l → sorted key l = l.
Proof.
  induction 1 as [|x l Hs IH Hall]; simpl; [done|]. rewrite IH.
  destruct l as [|y l]; simpl; [done|].
  apply Forall_cons in Hall as [Hxy _]. by rewrite bool_decide_true.
Qed.

(** The sort is stable: the elements of any one key keep their order. *)
Lemma insort_filter k x l :
  StronglySorted by_key l →
  filter (λ y, key y = k) (insort key x l) = filter (λ y, key y = k) (x :: l).
Proof.
  induction 1 as [|y l Hs IH Hall]; simpl; [done|].
  case_bool_decide as Hxy; [done|].
  rewrite (filter_cons _ y), IH, !filter_cons.
  destruct (decide (key y = k)), (decide (key x = k)); try done. lia.
Qed.

Lemma sorted_stable k l :
  filter (λ y, key y = k) (sorted key l) = filter (λ y, key y = k) l.
Proof.
  induction l as [|x l IH]; simpl; [done|].
  rewrite insort_filter by apply sorted_StronglySorted.
  by rewrite !filter_cons, IH.
Qed.

End Sorting.

Section Slices.
Context {A : Type}.
Implicit Types l : list A.

Lemma slice_sublist start stop l : slice start stop l `sublist_of` l.
Proof.
  unfold slice. etrans; [apply sublist_take|apply sublist_drop].
Qed.

Lemma slice_StronglySorted (R : relation A) start stop l :
  StronglySorted R l → StronglySorted R (slice start stop l).
Proof.
  intros Hl. unfold slice.
  rewrite <-(take_drop (slice_index (length l) start) l) in Hl at 1.
  apply StronglySorted_app_1_r in Hl.
  rewrite <-(take_drop (slice_index (length l) stop - slice_index (length l) start)
    (drop (slice_index (length l) start) l)) in Hl.
  by apply StronglySorted_app_1_l in Hl.
Qed.

(** A page is no longer than a limit that is not negative, whatever the
    offset.  (A negative limit counts from the end: [l[0:-1]] is all of
    [l] but its last element.) *)
Lemma length_slice offset limit l :
  0 ≤ limit → Z.of_nat (length (slice offset (offset + limit) l)) ≤ limit.
Proof.
  intros Hlimit. unfold slice, slice_index. rewrite length_take, length_drop.
  repeat case_bool_decide; lia.
Qed.

Lemma slice_all stop l : Z.of_nat (length l) ≤ stop → slice 0 stop l = l.
Proof.
  intros Hstop. unfold slice, slice_index.
  rewrite bool_decide_false by lia. rewrite bool_decide_false by lia.
  replace (Z.to_nat (Z.min 0 _)) with 0%nat by lia. simpl.
  apply take_ge. lia.
Qed.

(** Without negative numbers, consecutive pages are consecutive parts. *)
Lemma slice_app offset a b l :
  0 ≤ offset → 0 ≤ a → 0 ≤ b →
  slice offset (offset + a) l ++ slice (offset + a) (offset + a + b) l
  = slice offset (offset + (a + b)) l.
Proof.
  intros Ho Ha Hb. unfold slice, slice_index.
  rewrite !bool_decide_false by lia.
  set (n := Z.of_nat (length l)).
  set (i := Z.to_nat (Z.min offset n)).
  set (j := Z.to_nat (Z.min (offset + a) n)).
  set (k := Z.to_nat (Z.min (offset + (a + b)) n)).
  replace (Z.to_nat (Z.min (offset + a + b) n)) with k by (unfold k; f_equal; lia).
  assert (Hij : (i ≤ j)%nat) by (unfold i, j; lia).
  assert (Hjk : (j ≤ k)%nat) by (unfold j, k; lia).
  replace (drop j l) with (drop (j - i) (drop i l))
    by (rewrite drop_drop; f_equal; lia).
  rewrite take_take_drop. f_equal. lia.
Qed.

End Slices.

Section Dicts.
Context {V : Type}.
Implicit Types d : list (N * V).

Lemma dict_get_set_eq k v d : dict_get k (dict_set k v d) = Some v.
Proof.
  induction d as [|[k' v'] d IH]; simpl.
  - by rewrite decide_True.
  - destruct (decide (k' = k)) as [->|Hne]; simpl.
    + by rewrite decide_True.
    + by rewrite decide_False.
Qed.

Lemma dict_get_set_ne k k' v d :
  k ≠ k' → dict_get k' (dict_set k v d) = dict_get k' d.
Proof.
  intros Hne. induction d as [|[k0 v0] d IH]; simpl.
  - by rewrite decide_False.
  - destruct (decide (k0 = k)) as [->|Hne0]; simpl.
    + by rewrite !decide_False.
    + by rewrite IH.
Qed.

Lemma dict_get_None k d : dict_get k d = None ↔ k ∉ d.*1.
Proof.
  induction d as [|[k' v'] d IH]; simpl.
  - split; [intros _; apply not_elem_of_nil|done].
  - rewrite not_elem_of_cons. destruct (decide (k' = k)) as [->|Hne].
    + split; [done|]. by intros [? _].
    + rewrite IH. split; [by intros ?; split|by intros [_ ?]].
Qed.

Lemma dict_get_Some_elem_of k v d : dict_get k d = Some v → (k, v) ∈ d.
Proof.
  induction d as [|[k' v'] d IH]; simpl; [done|].
  destruct (decide (k' = k)) as [->|Hne].
  - intros [= ->]. left.
  - intros Hd. right. by apply IH.
Qed.

Lemma elem_of_dict_get k v d : NoDup d.*1 → (k, v) ∈ d → dict_get k d = Some v.
Proof.
  induction d as [|[k' v'] d IH]; simpl.
  - intros _ Hin. by apply elem_of_nil in Hin.
  - rewrite NoDup_cons. intros [Hk' Hd] Hin.
    apply elem_of_cons in Hin as [[= <- <-]|Hin].
    + by rewrite decide_True.
    + rewrite decide_False; [by apply IH|].
      intros ->. apply Hk'. apply list_elem_of_fmap. by exists (k, v).
Qed.

Lemma elem_of_dict_set k k' v d :
  k' ∈ (dict_set k v d).*1 ↔ k' = k ∨ k' ∈ d.*1.
Proof.
  induction d as [|[k0 v0] d IH]; simpl.
  - rewrite list_elem_of_singleton, elem_of_nil. tauto.
  - destruct (decide (k0 = k)) as [->|Hne]; simpl.
    + rewrite !elem_of_cons. tauto.
    + rewrite !elem_of_cons, IH. tauto.
Qed.

Lemma dict_set_NoDup k v d : NoDup d.*1 → NoDup (dict_set k v d).*1.
Proof.
  induction d as [|[k0 v0] d IH]; simpl.
  - intros _. apply NoDup_singleton.
  - rewrite NoDup_cons. intros [Hk0 Hd].
    destruct (decide (k0 = k)) as [->|Hne]; simpl.
    + by apply NoDup_cons.
    + apply NoDup_cons. split; [|by apply IH].
      rewrite elem_of_dict_set. intros [?|?]; done.
Qed.

Lemma dict_values_NoDup_keys d :
  NoDup d.*1 → ∀ v, v ∈ dict_values d ↔ ∃ k, dict_get k d = Some v.
Proof.
  intros Hd v. unfold dict_values. rewrite list_elem_of_fmap. split.
  - intros ([k v'] & -> & Hin). exists k. by apply elem_of_dict_get.
  - intros [k Hk]. exists (k, v). split; [done|]. by apply dict_get_Some_elem_of.
Qed.

End Dicts.

(** *** Histories of calls *)

(** The calls on the repository that change it. *)
Inductive call : Type :=
  | Create (id : N) (created_at updated_at : Z)
  | Add (message : Message.Message).

Definition perform (self : InMemoryRepository) (c : call) : InMemoryRepository :=
  match c with
  | Create id created_at updated_at => (create_conversation id created_at updated_at self).1
  | Add message => (add_message message self).1
  end.

Definition perform_all (calls : list call) : InMemoryRepository :=
  foldl perform init calls.

(** What the two dictionaries have to do with each other. *)
Record consistent (self : InMemoryRepository) : Prop := {
  con_keys : NoDup (_conversations self).*1;
  con_same : ∀ k, dict_get k (_conversations self) = None
                ↔ dict_get k (_messages self) = None;
  con_id : ∀ k c, dict_get k (_conversations self) = Some c → Conversation.id c = k;
  con_messages : ∀ k c, dict_get k (_conversations self) = Some c →
                 dict_get k (_messages self) = Some (Conversation.messages c);
  con_filed : ∀ k c m, dict_get k (_conversations self) = Some c →
              m ∈ Conversation.messages c → Message.conversation_id m = k;
  con_updated : ∀ k c m, dict_get k (_conversations self) = Some c →
                last (Conversation.messages c) = Some m →
                Conversation.updated_at c = Message.created_at m;
}.

Lemma init_consistent : consistent init.
Proof. split; simpl; try done. apply NoDup_nil_2. Qed.

Lemma create_conversation_consistent id created updated self :
  consistent self → consistent (create_conversation id created updated self).1.
Proof.
  intros [Hkeys Hsame Hid Hmsgs Hfiled Hupd].
  split; simpl.
  - by apply dict_set_NoDup.
  - intros k. destruct (decide (id = k)) as [->|Hne].
    + by rewrite !dict_get_set_eq.
    + by rewrite !dict_get_set_ne.
  - intros k c. destruct (decide (id = k)) as [->|Hne].
    + rewrite dict_get_set_eq. by intros [= <-].
    + rewrite dict_get_set_ne by done. apply Hid.
  - intros k c. destruct (decide (id = k)) as [->|Hne].
    + rewrite !dict_get_set_eq. by intros [= <-].
    + rewrite !dict_get_set_ne by done. apply Hmsgs.
  - intros k c m. destruct (decide (id = k)) as [->|Hne].
    + rewrite dict_get_set_eq. intros [= <-]. simpl. by intros ?%elem_of_nil.
    + rewrite dict_get_set_ne by done. apply Hfiled.
  - intros k c m. destruct (decide (id = k)) as [->|Hne].
    + rewrite dict_get_set_eq. by intros [= <-].
    + rewrite dict_get_set_ne by done. apply Hupd.
Qed.

(** What [add_message] does to a repository whose dictionaries agree. *)
Lemma add_message_found message self c :
  consistent self →
  dict_get (Message.conversation_id message) (_conversations self) = Some c →
  add_message message self =
    ({| _conversations :=
          dict_set (Message.conversation_id message)
            {| Conversation.id := Conversation.id c;
               Conversation.created_at := Conversation.created_at c;
               Conversation.updated_at := Message.created_at message;
               Conversation.messages := Conversation.messages c ++ [message] |}
            (_conversations self);
        _messages :=
          dict_set (Message.conversation_id message)
            (Conversation.messages c ++ [message]) (_messages self) |},
     Return message).
Proof.
  intros Hcon Hc. unfold add_message. rewrite Hc.
  cbv zeta. by rewrite !(con_messages _ Hcon _ _ Hc).
Qed.

Lemma add_message_consistent message self :
  consistent self → consistent (add_message message self).1.
Proof.
  intros Hcon.
  destruct (dict_get (Message.conversation_id message) (_conversations self))
    as [c|] eqn:Hc.
  2: { unfold add_message. by rewrite Hc. }
  rewrite (add_message_found _ _ _ Hcon Hc).
  destruct Hcon as [Hkeys Hsame Hid Hmsgs Hfiled Hupd].
  set (cid := Message.conversation_id message) in *.
  split; simpl.
  - by apply dict_set_NoDup.
  - intros k. destruct (decide (cid = k)) as [<-|Hne].
    + by rewrite !dict_get_set_eq.
    + by rewrite !dict_get_set_ne.
  - intros k c'. destruct (decide (cid = k)) as [<-|Hne].
    + rewrite dict_get_set_eq. intros [= <-]. simpl. by apply Hid.
    + rewrite dict_get_set_ne by done. apply Hid.
  - intros k c'. destruct (decide (cid = k)) as [<-|Hne].
    + rewrite !dict_get_set_eq. by intros [= <-].
    + rewrite !dict_get_set_ne by done. apply Hmsgs.
  - intros k c' m. destruct (decide (cid = k)) as [<-|Hne].
    + rewrite dict_get_set_eq. intros [= <-]. simpl.
      rewrite elem_of_app, list_elem_of_singleton. intros [Hm| ->]; [|done].
      by eapply Hfiled.
    + rewrite dict_get_set_ne by done. apply Hfiled.
  - intros k c' m. destruct (decide (cid = k)) as [<-|Hne].
    + rewrite dict_get_set_eq. intros [= <-]. simpl.
      rewrite last_snoc. by intros [= <-].
    + rewrite dict_get_set_ne by done. apply Hupd.
Qed.

Lemma perform_consistent self c : consistent self → consistent (perform self c).
Proof.
  destruct c; simpl.
  - apply create_conversation_consistent.
  - apply add_message_consistent.
Qed.

Lemma perform_all_snoc calls c :
  perform_all (calls ++ [c]) = perform (perform_all calls) c.
Proof. unfold perform_all. by rewrite foldl_snoc. Qed.

Lemma perform_all_consistent calls : consistent (perform_all calls).
Proof.
  induction calls as [|c calls IH] using rev_ind.
  - apply init_consistent.
  - rewrite perform_all_snoc. by apply perform_consistent.
Qed.

(** X17. Whatever was created and added, the repository that results is
    in order: a conversation is filed under its own id, the messages it
    carries are the ones [get_messages] reads (asked for all of them, it
    gives them sorted by their time), each of them names this
    conversation, the conversation's [updated_at] is the time of the
    message added last, and a conversation that cannot be got has no
    messages to get: [get_messages] raises [ValueError] for it. *)
Theorem conversation_carries_its_stored_messages calls k :
  let self := perform_all calls in
  match get_conversation k self with
  | Some c =>
      Conversation.id c = k
      ∧ (∀ limit, Z.of_nat (length (Conversation.messages c)) ≤ limit →
           get_messages k limit 0 self
           = Return (sorted Message.created_at (Conversation.messages c)))
      ∧ (∀ m, m ∈ Conversation.messages c → Message.conversation_id m = k)
      ∧ (∀ m, last (Conversation.messages c) = Some m →
           Conversation.updated_at c = Message.created_at m)
  | None => ∀ limit offset, get_messages k limit offset self = ValueError k
  end.
Proof.
  intros self. pose proof (perform_all_consistent calls) as Hcon.
  fold self in Hcon. unfold get_conversation, get_messages.
  destruct (dict_get k (_conversations self)) as [c|] eqn:Hc; [|done].
  split; [by eapply con_id|]. split; [|split].
  - intros limit Hlimit. rewrite (con_messages _ Hcon _ _ Hc). simpl.
    by rewrite slice_all by lia.
  - intros m. by eapply con_filed.
  - intros m. by eapply con_updated.
Qed.

(** A history with a conversation of two messages, a second one of one
    message, and a message for a conversation that was never created. *)
Definition message_of (id conversation_id : N) (created_at : Z) : Message.Message :=
  {| Message.id := id; Message.conversation_id := conversation_id;
     Message.content := "hello"; Message.role := "user";
     Message.created_at := created_at; Message.context := None |}.

Definition two_conversations : list call :=
  [Create 1 10 10; Create 2 11 11; Add (message_of 101 1 20);
   Add (message_of 102 2 30); Add (message_of 103 3 35);
   Add (message_of 104 1 40)].

Lemma conversation_carries_its_stored_messages_witness :
  get_conversation 1 (perform_all two_conversations)
  = Some {| Conversation.id := 1; Conversation.created_at := 10;
            Conversation.updated_at := 40;
            Conversation.messages := [message_of 101 1 20; message_of 104 1 40] |}
  ∧ get_messages 1 2 0 (perform_all two_conversations)
    = Return [message_of 101 1 20; message_of 104 1 40]
  ∧ get_messages 3 100 0 (perform_all two_conversations) = ValueError 3.
Proof.
  pose proof (conversation_carries_its_stored_messages two_conversations 1) as H1.
  pose proof (conversation_carries_its_stored_messages two_conversations 3) as H3.
  split; [reflexivity|]. split.
  - simpl in H1. destruct H1 as (_ & H1 & _). apply (H1 2). simpl. lia.
  - apply (H3 100 0).
Defined.

(** X18. [add_message] on a repository that calls have built: for a
    conversation that was not created it raises [ValueError] and changes
    nothing; otherwise it returns the message, and the conversation
    afterwards is the one before with the message at the end of its
    messages and the message's time as [updated_at].  In both cases every
    other conversation, and what [get_messages] gives for it, is as
    before. *)
Theorem add_message_touches_one_conversation calls message :
  let self := perform_all calls in
  let cid := Message.conversation_id message in
  match get_conversation cid self with
  | None => add_message message self = (self, ValueError cid)
  | Some c =>
      (add_message message self).2 = Return message
      ∧ get_conversation cid (add_message message self).1
        = Some {| Conversation.id := cid;
                  Conversation.created_at := Conversation.created_at c;
                  Conversation.updated_at := Message.created_at message;
                  Conversation.messages := Conversation.messages c ++ [message] |}
  end
  ∧ ∀ k, k ≠ cid →
      get_conversation k (add_message message self).1 = get_conversation k self
      ∧ ∀ limit offset,
          get_messages k limit offset (add_message message self).1
          = get_messages k limit offset self.
Proof.
  intros self cid. pose proof (perform_all_consistent calls) as Hcon.
  fold self in Hcon. unfold get_conversation, get_messages.
  destruct (dict_get cid (_conversations self)) as [c|] eqn:Hc.
  - rewrite (add_message_found _ _ _ Hcon Hc). simpl. fold cid.
    rewrite dict_get_set_eq, (con_id _ Hcon _ _ Hc). split; [done|].
    intros k Hk. by rewrite !dict_get_set_ne by done.
  - unfold add_message. fold cid. by rewrite Hc.
Qed.

Lemma add_message_touches_one_conversation_witness :
  get_conversation 2 (add_message (message_of 105 2 50) (perform_all two_conversations)).1
  = Some {| Conversation.id := 2; Conversation.created_at := 11;
            Conversation.updated_at := 50;
            Conversation.messages := [message_of 102 2 30; message_of 105 2 50] |}
  ∧ get_messages 1 100 0 (add_message (message_of 105 2 50) (perform_all two_conversations)).1
    = get_messages 1 100 0 (perform_all two_conversations)
  ∧ add_message (message_of 106 3 50) (perform_all two_conversations)
    = (perform_all two_conversations, ValueError 3).
Proof.
  pose proof (add_message_touches_one_conversation two_conversations
                (message_of 105 2 50)) as H2.
  pose proof (add_message_touches_one_conversation two_conversations
                (message_of 106 3 50)) as H3.
  split; [|split].
  - exact (proj2 (proj1 H2)).
  - apply (proj2 H2 1%N). done.
  - exact (proj1 H3).
Defined.

(** The conversations of a repository, newest first. *)
Definition newest_first (c c' : Conversation.Conversation) : Prop :=
  Conversation.updated_at c' ≤ Conversation.updated_at c.

Lemma sorted_reverse_newest_first l :
  StronglySorted newest_first (sorted_reverse Conversation.updated_at l).
Proof.
  unfold sorted_reverse.
  pose proof (sorted_StronglySorted (λ x, - Conversation.updated_at x) l) as Hs.
  induction Hs as [|x k Hs IH Hall]; constructor; [done|].
  eapply Forall_impl; [exact Hall|].
  unfold by_key, newest_first. intros y. lia.
Qed.

Lemma ids_are_keys self :
  consistent self →
  Conversation.id <$> dict_values (_conversations self) = (_conversations self).*1.
Proof.
  intros Hcon. unfold dict_values. rewrite <-list_fmap_compose.
  apply Forall_fmap_ext_1, Forall_forall. intros [k c] Hin. simpl.
  eapply con_id; [done|]. apply elem_of_dict_get; [by apply con_keys|done].
Qed.

(** X19. A page of [list_conversations], on a repository that calls have
    built: its conversations come with the most recently updated first,
    each is a conversation that [get_conversation] gives for its id, no id
    comes twice, and with a limit that is not negative there are at most
    that many.  With offset 0 and a limit of at least the number of
    conversations, every conversation is on the page. *)
Theorem list_conversations_newest_first calls limit offset :
  let self := perform_all calls in
  let page := list_conversations limit offset self in
  StronglySorted newest_first page
  ∧ (∀ c, c ∈ page → get_conversation (Conversation.id c) self = Some c)
  ∧ NoDup (Conversation.id <$> page)
  ∧ (0 ≤ limit → Z.of_nat (length page) ≤ limit)
  ∧ (offset = 0 → Z.of_nat (length (_conversations self)) ≤ limit →
     ∀ k c, get_conversation k self = Some c → c ∈ page).
Proof.
  intros self page. pose proof (perform_all_consistent calls) as Hcon.
  fold self in Hcon. unfold page, list_conversations, get_conversation.
  set (all := sorted_reverse Conversation.updated_at (dict_values (_conversations self))).
  assert (Hperm : all ≡ₚ dict_values (_conversations self))
    by apply sorted_Permutation.
  pose proof (slice_sublist offset (offset + limit) all) as Hsub.
  split; [|split; [|split; [|split]]].
  - apply slice_StronglySorted, sorted_reverse_newest_first.
  - intros c Hc. eapply elem_of_sublist in Hc; [|exact Hsub].
    rewrite Hperm in Hc.
    apply (dict_values_NoDup_keys _ (con_keys _ Hcon)) in Hc as [k Hk].
    by rewrite (con_id _ Hcon _ _ Hk).
  - eapply sublist_NoDup; [|by apply fmap_sublist].
    rewrite Hperm, ids_are_keys by done. by apply con_keys.
  - apply length_slice.
  - intros -> Hlimit k c Hc. rewrite slice_all.
    + rewrite Hperm. apply (dict_values_NoDup_keys _ (con_keys _ Hcon)). by exists k.
    + rewrite Hperm. unfold dict_values. rewrite length_fmap. lia.
Qed.

Lemma list_conversations_newest_first_witness :
  list_conversations 2 0 (perform_all two_conversations)
  = [ {| Conversation.id := 1; Conversation.created_at := 10;
         Conversation.updated_at := 40;
         Conversation.messages := [message_of 101 1 20; message_of 104 1 40] |};
      {| Conversation.id := 2; Conversation.created_at := 11;
         Conversation.updated_at := 30;
         Conversation.messages := [message_of 102 2 30] |} ]
  ∧ Z.of_nat (length (list_conversations 1 1 (perform_all two_conversations))) ≤ 1
  ∧ ∃ c, c ∈ list_conversations 2 0 (perform_all two_conversations)
         ∧ Conversation.id c = 2%N.
Proof.
  pose proof (list_conversations_newest_first two_conversations 1 1) as H1.
  pose proof (list_conversations_newest_first two_conversations 2 0) as H2.
  split; [reflexivity|]. split.
  - apply H1. lia.
  - eexists. split.
    + apply H2 with (k := 2%N); [reflexivity|simpl; lia|reflexivity].
    + reflexivity.
Defined.

(** X20. A page of [get_messages], on a repository that calls have built
    and for a conversation that exists: the page is cut out of the
    conversation's messages in the order they were added, and only then
    sorted.  So it holds those messages, in the order of their times,
    messages of the same time in the order they were added, and with a
    limit that is not negative there are at most that many. *)
Theorem get_messages_sorts_the_page calls k c limit offset :
  let self := perform_all calls in
  get_conversation k self = Some c →
  ∃ page,
    get_messages k limit offset self = Return page
    ∧ page ≡ₚ slice offset (offset + limit) (Conversation.messages c)
    ∧ StronglySorted (λ m m', Message.created_at m ≤ Message.created_at m') page
    ∧ (∀ t, filter (λ m, Message.created_at m = t) page
            = filter (λ m, Message.created_at m = t)
                (slice offset (offset + limit) (Conversation.messages c)))
    ∧ (0 ≤ limit → Z.of_nat (length page) ≤ limit).
Proof.
  intros self Hc. pose proof (perform_all_consistent calls) as Hcon.
  fold self in Hcon. unfold get_conversation in Hc. unfold get_messages.
  rewrite Hc, (con_messages _ Hcon _ _ Hc). simpl.
  eexists. split; [done|]. split; [|split; [|split]].
  - apply sorted_Permutation.
  - apply sorted_StronglySorted.
  - intros t. apply sorted_stable.
  - intros Hlimit. rewrite sorted_Permutation. by apply length_slice.
Qed.

(** Messages that were not added in the order of their times. *)
Definition late_message : list call :=
  [Create 1 10 10; Add (message_of 101 1 30); Add (message_of 102 1 20);
   Add (message_of 103 1 25)].

Lemma get_messages_sorts_the_page_witness :
  get_messages 1 2 0 (perform_all late_message)
  = Return [message_of 102 1 20; message_of 101 1 30]
  ∧ get_messages 1 3 0 (perform_all late_message)
    = Return [message_of 102 1 20; message_of 103 1 25; message_of 101 1 30].
Proof.
  destruct (get_messages_sorts_the_page late_message 1
              {| Conversation.id := 1; Conversation.created_at := 10;
                 Conversation.updated_at := 25;
                 Conversation.messages :=
                   [message_of 101 1 30; message_of 102 1 20; message_of 103 1 25] |}
              2 0 eq_refl) as (page & Hpage & _).
  split; [|reflexivity]. rewrite Hpage. vm_compute in Hpage.
  injection Hpage as <-. reflexivity.
Defined.

(** The times of the messages that the calls add to a conversation. *)
Definition stamps (k : N) (calls : list call) : list Z :=
  omap (λ c, match c with
             | Add m => if decide (Message.conversation_id m = k)
                        then Some (Message.created_at m) else None
             | Create _ _ _ => None
             end) calls.

Lemma perform_all_in_order calls k c :
  StronglySorted Z.le (stamps k calls) →
  dict_get k (_conversations (perform_all calls)) = Some c →
  StronglySorted (by_key Message.created_at) (Conversation.messages c)
  ∧ ∀ m, m ∈ Conversation.messages c → Message.created_at m ∈ stamps k calls.
Proof.
  revert c. induction calls as [|call calls IH] using rev_ind; intros c; [done|].
  unfold stamps. rewrite omap_app, perform_all_snoc. fold (stamps k calls).
  pose proof (perform_all_consistent calls) as Hcon.
  destruct call as [id created updated|message]; simpl.
  - rewrite app_nil_r. intros Hs. destruct (decide (id = k)) as [->|Hne].
    + rewrite dict_get_set_eq. intros [= <-]. simpl. split; [constructor|].
      by intros m ?%elem_of_nil.
    + rewrite dict_get_set_ne by done. by apply IH.
  - destruct (dict_get (Message.conversation_id message)
                (_conversations (perform_all calls))) as [c0|] eqn:Hc0.
    2: { unfold add_message. rewrite Hc0. simpl.
         destruct (decide (Message.conversation_id message = k)) as [Hk|Hne].
         - rewrite Hk in Hc0. by rewrite Hc0.
         - rewrite app_nil_r. apply IH. }
    rewrite (add_message_found _ _ _ Hcon Hc0). simpl.
    destruct (decide (Message.conversation_id message = k)) as [Hk|Hne].
    + rewrite Hk in *. rewrite dict_get_set_eq. simpl. intros Hs [= <-]. simpl.
      apply StronglySorted_app in Hs as (Hle & Hs & _).
      destruct (IH c0 Hs Hc0) as [Hsorted Hin]. split.
      * apply StronglySorted_app_2; [|done|repeat constructor].
        intros m1 m2 Hm1 ->%list_elem_of_singleton. unfold by_key.
        apply Hle; [by apply Hin|left].
      * intros m. rewrite !elem_of_app, !list_elem_of_singleton.
        intros [Hm| ->]; [left; by apply Hin|by right].
    + rewrite app_nil_r, dict_get_set_ne by done. apply IH.
Qed.

(** X21. If the messages of a conversation were added in the order of
    their times, [get_messages] with an offset and a limit that are not
    negative gives exactly that part of the messages as they were added,
    so that a page and the page after it make up the one page of both
    their sizes: going through the pages shows every message once, in
    order. *)
Theorem pages_of_messages_added_in_order calls k c offset a b :
  let self := perform_all calls in
  StronglySorted Z.le (stamps k calls) →
  get_conversation k self = Some c →
  0 ≤ offset → 0 ≤ a → 0 ≤ b →
  get_messages k a offset self
  = Return (slice offset (offset + a) (Conversation.messages c))
  ∧ ∃ page1 page2,
      get_messages k a offset self = Return page1
      ∧ get_messages k b (offset + a) self = Return page2
      ∧ get_messages k (a + b) offset self = Return (page1 ++ page2).
Proof.
  intros self Hs Hc Ho Ha Hb. pose proof (perform_all_consistent calls) as Hcon.
  fold self in Hcon. unfold get_conversation in Hc.
  destruct (perform_all_in_order _ _ _ Hs Hc) as [Hsorted _].
  assert (Hget : ∀ limit offset,
    get_messages k limit offset self
    = Return (slice offset (offset + limit) (Conversation.messages c))).
  { intros limit o. unfold get_messages.
    rewrite Hc, (con_messages _ Hcon _ _ Hc). simpl. f_equal.
    apply sorted_id. by apply slice_StronglySorted. }
  split; [apply Hget|].
  eexists _, _. split; [apply Hget|]. split; [apply Hget|].
  rewrite Hget. f_equal. symmetry. by apply slice_app.
Qed.

Lemma pages_of_messages_added_in_order_witness :
  (get_messages 1 1 0 (perform_all two_conversations)
   = Return [message_of 101 1 20]
   ∧ ∃ page1 page2,
       get_messages 1 1 0 (perform_all two_conversations) = Return page1
       ∧ get_messages 1 1 1 (perform_all two_conversations) = Return page2
       ∧ get_messages 1 2 0 (perform_all two_conversations) = Return (page1 ++ page2))
  ∧ get_messages 1 1 0 (perform_all late_message) = Return [message_of 101 1 30]
  ∧ get_messages 1 1 1 (perform_all late_message) = Return [message_of 102 1 20]
  ∧ get_messages 1 2 0 (perform_all late_message)
    = Return [message_of 102 1 20; message_of 101 1 30].
Proof.
  split; [|by vm_compute].
  apply (pages_of_messages_added_in_order two_conversations 1
           {| Conversation.id := 1; Conversation.created_at := 10;
              Conversation.updated_at := 40;
              Conversation.messages := [message_of 101 1 20; message_of 104 1 40] |}
           0 1 1).
  - change (StronglySorted Z.le [20; 40]). repeat constructor; lia.
  - reflexivity.
  - lia.
  - lia.
  - lia.
Defined.

End RepositoryProofs.

(** ** Proofs: the task of [create_message] *)

Module AppMessagesProofs.
Import Builtins InMemoryRepository RepositoryProofs AppMessages.

Lemma insort_snoc {A} (key : A → Z) y l x :
  key y ≤ key x → insort key y (l ++ [x]) = insort key y l ++ [x].
Proof.
  intros Hyx. induction l as [|z l IH]; simpl.
  - by rewrite bool_decide_true.
  - case_bool_decide; [done|]. by rewrite IH.
Qed.

(** An element that is not before any other stays last. *)
Lemma sorted_snoc {A} (key : A → Z) l x :
  (∀ y, y ∈ l → key y ≤ key x) → sorted key (l ++ [x]) = sorted key l ++ [x].
Proof.
  induction l as [|y l IH]; intros Hx; simpl; [done|].
  rewrite IH by (intros z Hz; apply Hx; by right).
  apply insort_snoc, Hx. left.
Qed.

Lemma slice_snoc_short {A} (l : list A) x stop :
  Z.of_nat (length l) < stop → slice 0 stop (l ++ [x]) = l ++ [x].
Proof.
  intros Hl. apply slice_all. rewrite length_app. simpl. lia.
Qed.

Lemma slice_snoc_long {A} (l : list A) x stop :
  0 ≤ stop ≤ Z.of_nat (length l) →
  slice 0 stop (l ++ [x]) = take (Z.to_nat stop) l.
Proof.
  intros Hl. unfold slice, slice_index.
  rewrite !bool_decide_false by lia. rewrite length_app. simpl.
  replace (Z.to_nat (Z.min 0 _)) with 0%nat by lia. simpl.
  rewrite Nat.sub_0_r.
  replace (Z.to_nat (Z.min stop _)) with (Z.to_nat stop) by lia.
  apply take_app_le. lia.
Qed.

Section Service.
Variable llm_process_message : list Message.Message → string.

(** X22. [process_message] on a repository that calls have built.  For a
    conversation that does not exist it raises the status 404 and changes
    nothing.  Otherwise it returns the message of the user, and adds to the
    conversation that message and then the reply of the service; the reply
    is made from the first 100 messages of the conversation, sorted by
    their times.  While the conversation held fewer than 100 messages, none
    of them later than the new one, these are all its messages with the new
    one last; once it held 100, they are its first 100 and the new message
    is not among what the service sees.  No other conversation changes. *)
Theorem reply_is_made_from_the_first_100_messages calls conversation_id content
    user_id user_now ai_id ai_now :
  let repository := perform_all calls in
  let run := process_message llm_process_message conversation_id content
               user_id user_now ai_id ai_now repository in
  let user_message :=
    {| Message.id := user_id; Message.conversation_id := conversation_id;
       Message.content := content; Message.role := "user";
       Message.created_at := user_now; Message.context := None |} in
  (get_conversation conversation_id repository = None →
   run = (repository, HTTPException 404 "Conversation not found"))
  ∧ (∀ c, get_conversation conversation_id repository = Some c →
     ∃ seen,
       run.2 = Returns user_message
       ∧ get_conversation conversation_id run.1
         = Some {| Conversation.id := conversation_id;
                   Conversation.created_at := Conversation.created_at c;
                   Conversation.updated_at := ai_now;
                   Conversation.messages :=
                     Conversation.messages c ++
                     [user_message;
                      {| Message.id := ai_id;
                         Message.conversation_id := conversation_id;
                         Message.content := llm_process_message seen;
                         Message.role := "assistant";
                         Message.created_at := ai_now;
                         Message.context := None |}] |}
       ∧ (Z.of_nat (length (Conversation.messages c)) < 100 →
          (∀ m, m ∈ Conversation.messages c → Message.created_at m ≤ user_now) →
          seen = sorted Message.created_at (Conversation.messages c) ++ [user_message])
       ∧ (100 ≤ Z.of_nat (length (Conversation.messages c)) →
          seen = sorted Message.created_at (take 100 (Conversation.messages c))))
  ∧ ∀ k, k ≠ conversation_id →
      get_conversation k run.1 = get_conversation k repository.
Proof.
  intros repository run user_message.
  pose proof (perform_all_consistent calls) as Hcon. fold repository in Hcon.
  unfold run, process_message. fold user_message.
  destruct (get_conversation conversation_id repository) as [c|] eqn:Hc.
  2: { split; [done|]. split; [by intros c [=]|done]. }
  unfold get_conversation in Hc.
  pose proof (add_message_found user_message repository c Hcon Hc) as Hadd1.
  pose proof (add_message_consistent user_message repository Hcon) as Hcon1.
  set (c1 := {| Conversation.id := Conversation.id c;
                Conversation.created_at := Conversation.created_at c;
                Conversation.updated_at := user_now;
                Conversation.messages := Conversation.messages c ++ [user_message] |}).
  destruct (add_message user_message repository) as [repository1 o1].
  injection Hadd1 as Hrep1 ->. simpl in Hcon1.
  assert (Hc1 : dict_get conversation_id (_conversations repository1) = Some c1)
    by (rewrite Hrep1; apply dict_get_set_eq).
  assert (Hothers1 : ∀ k, k ≠ conversation_id →
            dict_get k (_conversations repository1)
            = dict_get k (_conversations repository)).
  { intros k Hk. rewrite Hrep1. simpl. by rewrite dict_get_set_ne. }
  clear Hrep1. unfold get_messages.
  rewrite Hc1, (con_messages _ Hcon1 _ _ Hc1). simpl default.
  set (seen := sorted Message.created_at _).
  set (ai_message :=
         {| Message.id := ai_id; Message.conversation_id := conversation_id;
            Message.content := llm_process_message seen;
            Message.role := "assistant"; Message.created_at := ai_now;
            Message.context := None |}).
  rewrite (add_message_found ai_message repository1 c1 Hcon1 Hc1).
  cbn [fst snd]. unfold get_conversation. cbn [_conversations].
  split; [by intros [=]|]. split.
  - intros ? [= <-]. exists seen. split; [done|]. split; [|split].
    + simpl. rewrite dict_get_set_eq, (con_id _ Hcon _ _ Hc), <-app_assoc. done.
    + intros Hshort Hlate. unfold seen, c1. cbn [Conversation.messages].
      rewrite slice_snoc_short by lia. by apply sorted_snoc.
    + intros Hlong. unfold seen, c1. cbn [Conversation.messages].
      by rewrite slice_snoc_long by lia.
  - intros k Hk. simpl. rewrite dict_get_set_ne by done. by apply Hothers1.
Qed.

End Service.

(** A conversation of a hundred messages, each a number and its time. *)
Definition numbered (n : nat) : Message.Message :=
  {| Message.id := N.of_nat n; Message.conversation_id := 1;
     Message.content := "start with 5"; Message.role := "user";
     Message.created_at := Z.of_nat n; Message.context := None |}.

Definition a_hundred_messages : list call :=
  Create 1 0 0 :: (Add ∘ numbered <$> seq 0 100).

(** A service that tells which message it was asked last. *)
Definition tells_the_last (messages : list Message.Message) : string :=
  match last messages with
  | Some m => Message.content m
  | None => "No message provided."
  end.

Definition the_hundred : Conversation.Conversation :=
  {| Conversation.id := 1; Conversation.created_at := 0;
     Conversation.updated_at := 99;
     Conversation.messages := numbered <$> seq 0 100 |}.

Lemma reply_is_made_from_the_first_100_messages_witness :
  (∃ c, get_conversation 1
          (process_message tells_the_last 1 "double it" 200 200 201 201
             (perform_all a_hundred_messages)).1 = Some c
        ∧ Message.content <$> last (Conversation.messages c) = Some "start with 5")
  ∧ process_message tells_the_last 3 "double it" 200 200 201 201
      (perform_all a_hundred_messages)
    = (perform_all a_hundred_messages, HTTPException 404 "Conversation not found").
Proof.
  pose proof (reply_is_made_from_the_first_100_messages tells_the_last
                a_hundred_messages 1 "double it" 200 200 201 201) as (_ & H1 & _).
  pose proof (reply_is_made_from_the_first_100_messages tells_the_last
                a_hundred_messages 3 "double it" 200 200 201 201) as (H3 & _).
  split.
  - assert (Hc : get_conversation 1 (perform_all a_hundred_messages) = Some the_hundred)
      by (vm_compute; reflexivity).
    destruct (H1 the_hundred Hc) as (seen & _ & Hget & _ & Hlong).
    eexists. split; [exact Hget|].
    assert (Hseen : tells_the_last seen = "start with 5").
    { rewrite Hlong; [vm_compute; reflexivity|]. vm_compute. discriminate. }
    clear -Hseen. cbn [Conversation.messages]. rewrite last_app.
    cbn [last fmap option_fmap option_map Message.content]. by rewrite Hseen.
  - apply H3. vm_compute. reflexivity.
Defined.

End AppMessagesProofs.
